(** * Piranha: the separate-chaining hash set and the hybrid integer

    A shallow embedding of [src/hash_set.hpp] (class [piranha::hash_set]) and
    of the hybrid multiprecision integer exercised by
    [tests/mp_integer_02.cpp], with the properties proved about them.

    Conventions of the embedding:
    - [size_type] values are [N]; the places where the C++ code could wrap
      around are guarded in the source and the guards are modelled.
    - A C++ method of [hash_set] is a computation over the pair
      (the object [*this], the free store). It returns, throws, or has
      undefined behaviour ([piranha_assert] is compiled out in release
      builds, so a violated assertion is undefined behaviour, not a throw).
    - The hasher may throw, and so may the copy constructor of the key
      type. The equality predicate, the move constructor of the key type
      (the element concept requires it not to throw) and memory allocation
      are taken not to throw. *)

From stdpp Require Import base numbers list sets gmap.
From Stdlib Require Import QArith.
Local Open Scope N_scope.

(** ** Exceptions and outcomes *)

Inductive exn : Type :=
| bad_alloc             (* std::bad_alloc *)
| overflow_error        (* std::overflow_error *)
| invalid_argument      (* std::invalid_argument *)
| zero_division_error   (* piranha::zero_division_error *)
| unspecified (tag : nat) (* whatever a user-supplied functor throws *).

Inductive out (S A : Type) : Type :=
| Returns (a : A) (s : S)
| Throws (e : exn) (s : S)
| Undefined.
Arguments Returns {S A} a s.
Arguments Throws {S A} e s.
Arguments Undefined {S A}.

Module HashSet.

(** Addresses of heap-allocated nodes, and the free store: the set of
    addresses currently allocated by [new node()]. *)
Definition addr := nat.
Abbreviation heap := (gset addr).

(** [node *]: null, the static [list::terminator], the node embedded in the
    bucket array at a given index ([&m_container[idx].m_node]), or a node on
    the free store. *)
Inductive node_ptr : Type :=
| nullptr
| terminator
| m_node_of (idx : N)
| heap_node (a : addr).

Global Instance node_ptr_eq_dec : EqDecision node_ptr.
Proof. solve_decision. Defined.

(** [hash_set::iterator_impl]: bucket index and position in the bucket
    ([m_set] is always the table at hand). *)
Record iterator : Type := { m_idx : N; m_it : node_ptr }.

Global Instance iterator_eq_dec : EqDecision iterator.
Proof. solve_decision. Defined.

Section hash_set.
Context {T : Type}.
(** [PIRANHA_64BIT_MODE] of config.hpp (not among the sources): it selects
    the number of size classes; [size_type] is taken to be 64 bits wide
    in that mode and 32 bits wide otherwise. *)
Variable PIRANHA_64BIT_MODE : bool.
Variable m_hasher : T → exn + N.
Variable m_key_equal : T → T → bool.
(** What copy-constructing a key from the given value throws, if
    anything. *)
Variable T_copy_throws : T → option exn.

(** [struct list]: the bucket. [m_node.m_next == nullptr] is the empty
    list, whose storage holds no payload; otherwise [m_node] holds the
    first payload and links to the heap nodes, the last of which links to
    [&terminator]. Every heap node is owned by exactly one link. *)
Inductive bucket_list : Type :=
| empty_list
| nodes (first : T) (rest : list (addr * T)).

(** [std::vector<list> m_container; size_type m_n_elements]. *)
Record hash_set : Type := { m_container : list bucket_list; m_n_elements : N }.

Definition M (A : Type) : Type := hash_set * heap → out (hash_set * heap) A.

Global Instance M_ret : MRet M := λ A a s, Returns a s.
Global Instance M_bind : MBind M := λ A B f m s,
  match m s with
  | Returns a s' => f a s'
  | Throws e s' => Throws e s'
  | Undefined => Undefined
  end.
Definition throw {A} (e : exn) : M A := λ s, Throws e s.
Definition undefined {A} : M A := λ _, Undefined.
Definition get_this : M hash_set := λ s, Returns s.1 s.
Definition modify_this (f : hash_set → hash_set) : M unit :=
  λ s, Returns () (f s.1, s.2).

(** *** The bucket list *)

Definition list_empty (b : bucket_list) : bool :=
  match b with empty_list => true | nodes _ _ => false end.

(** Payloads of a bucket in the order [begin() .. end()] visits them. *)
Definition list_elements (b : bucket_list) : list T :=
  match b with empty_list => [] | nodes x rest => x :: rest.*2 end.

(** Addresses of the heap nodes a bucket owns. *)
Definition list_heap_nodes (b : bucket_list) : list addr :=
  match b with empty_list => [] | nodes _ rest => rest.*1 end.

Definition list_begin (idx : N) : node_ptr := m_node_of idx.
Definition list_end (idx : N) (b : bucket_list) : node_ptr :=
  if list_empty b then m_node_of idx else terminator.

(** [list::insert]: into the embedded node when the list is empty,
    otherwise into a new heap node linked right after the embedded one. *)
Definition list_insert (idx : N) (item : T) (b : bucket_list) (h : heap)
  : bucket_list * node_ptr * heap :=
  match b with
  | nodes x rest =>
      let a := fresh h in
      (nodes x ((a, item) :: rest), heap_node a, {[a]} ∪ h)
  | empty_list => (nodes item [], m_node_of idx, h)
  end.

(** [list::destroy] (and [~list]): every heap node is deleted. *)
Definition list_destroy (b : bucket_list) (h : heap) : bucket_list * heap :=
  (empty_list, h ∖ list_to_set (list_heap_nodes b)).

(** *** Size classes *)

Definition n_available_sizes : nat := if PIRANHA_64BIT_MODE then 41%nat else 33%nat.

Definition table_sizes : list N :=
  [0; 1; 3; 5; 11; 23; 53; 97; 193; 389; 769; 1543; 3079; 6151; 12289;
   24593; 49157; 98317; 196613; 393241; 786433; 1572869; 3145739; 6291469;
   12582917; 25165843; 50331653; 100663319; 201326611; 402653189;
   805306457; 1610612741; 3221225473]
  ++ (if PIRANHA_64BIT_MODE
      then [6442450939; 12884901893; 25769803799; 51539607551;
            103079215111; 206158430209; 412316860441; 824633720831]
      else []).

(** [boost::integer_traits<size_type>::const_max]. *)
Definition size_type_max : N :=
  if PIRANHA_64BIT_MODE then 2 ^ 64 - 1 else 2 ^ 32 - 1.

(** [std::lower_bound] on a sorted range, as an index: the number of
    leading entries smaller than [v]. *)
Fixpoint lower_bound (l : list N) (v : N) : nat :=
  match l with
  | [] => 0%nat
  | x :: l' => if x <? v then S (lower_bound l' v) else 0%nat
  end.

Definition bucket_count (t : hash_set) : N := N.of_nat (length (m_container t)).
Definition size (t : hash_set) : N := m_n_elements t.
Definition empty (t : hash_set) : bool := negb (bool_decide (size t ≠ 0)).

(** [get_size_index]: [std::equal_range(...).first] as an index. *)
Definition get_size_index (t : hash_set) : nat :=
  lower_bound table_sizes (bucket_count t).

(** [get_size_from_hint]. *)
Definition get_size_from_hint (hint : N) : exn + N :=
  match table_sizes !! lower_bound table_sizes hint with
  | None => inl bad_alloc
  | Some s => inr s
  end.

(** The constructor from a number of buckets. *)
Definition hash_set_ctor (n_buckets : N) : exn + hash_set :=
  match get_size_from_hint n_buckets with
  | inl e => inl e
  | inr n => inr {| m_container := replicate (N.to_nat n) empty_list;
                    m_n_elements := 0 |}
  end.

(** *** Iteration *)

Definition end_ (t : hash_set) : iterator :=
  {| m_idx := bucket_count t; m_it := nullptr |}.

(** Index of the first non-empty bucket at or after [idx], or
    [bucket_count()]: the scanning loop of [begin], [erase] and
    [iterator_impl::increment]. *)
Fixpoint first_nonempty (idx : N) (bs : list bucket_list) : N :=
  match bs with
  | [] => idx
  | b :: bs' => if list_empty b then first_nonempty (idx + 1) bs' else idx
  end.

Definition iterator_at (t : hash_set) (idx : N) : iterator :=
  {| m_idx := idx;
     m_it := if bool_decide (idx = bucket_count t) then nullptr else list_begin idx |}.

Definition begin_ (t : hash_set) : iterator :=
  iterator_at t (first_nonempty 0 (m_container t)).

(** The elements a full iteration [begin() .. end()] visits, in order. *)
Definition elements (t : hash_set) : list T :=
  m_container t ≫= list_elements.

(** All heap nodes the table owns. *)
Definition heap_nodes (t : hash_set) : list addr :=
  m_container t ≫= list_heap_nodes.

(** *** Low-level interface *)

(** [_bucket]: release builds divide by zero on a table without buckets. *)
Definition _bucket (k : T) : M N := λ s,
  if bool_decide (bucket_count s.1 = 0) then Undefined
  else match m_hasher k with
       | inl e => Throws e s
       | inr hv => Returns (hv mod bucket_count s.1) s
       end.

(** The loop of [_find] over one bucket: the first node whose payload
    compares equal to [k]. *)
Fixpoint find_in_rest (k : T) (rest : list (addr * T)) : option node_ptr :=
  match rest with
  | [] => None
  | (a, x) :: rest' =>
      if m_key_equal x k then Some (heap_node a) else find_in_rest k rest'
  end.

Definition find_in_list (idx : N) (k : T) (b : bucket_list) : option node_ptr :=
  match b with
  | empty_list => None
  | nodes x rest =>
      if m_key_equal x k then Some (m_node_of idx) else find_in_rest k rest
  end.

Definition _find (k : T) (bucket_idx : N) : M iterator := λ s,
  match m_container s.1 !! N.to_nat bucket_idx with
  | None => Undefined
  | Some b =>
      match find_in_list bucket_idx k b with
      | Some p => Returns {| m_idx := bucket_idx; m_it := p |} s
      | None => Returns (end_ s.1) s
      end
  end.

(** [_unique_insert(U &&k, bucket_idx)]. [construction] is what the
    construction of the payload from [k] throws, if anything: nothing when
    [k] is an rvalue, moved into the node, and [T_copy_throws k] when [k] is
    an lvalue, copied into it. When the copy throws the list is as before
    ([m_node.m_next] is not yet set, or the [unique_ptr] releases the new
    node). *)
Definition _unique_insert (construction : option exn) (k : T) (bucket_idx : N)
  : M iterator := λ s,
  match m_container s.1 !! N.to_nat bucket_idx with
  | None => Undefined
  | Some b =>
      match construction with
      | Some e => Throws e s
      | None =>
          let '(b', ptr, h') := list_insert bucket_idx k b s.2 in
          Returns {| m_idx := bucket_idx; m_it := ptr |}
                  ({| m_container := <[N.to_nat bucket_idx := b']> (m_container s.1);
                      m_n_elements := m_n_elements s.1 |}, h')
      end
  end.

Definition _update_size (new_size : N) : M unit :=
  modify_this (λ t, {| m_container := m_container t; m_n_elements := new_size |}).

(** [clear]: the bucket array is replaced by an empty one, which destroys
    every list and so deletes every heap node. *)
Definition cleared : hash_set := {| m_container := []; m_n_elements := 0 |}.

Definition clear_state (s : hash_set * heap) : hash_set * heap :=
  (cleared, s.2 ∖ list_to_set (heap_nodes s.1)).

Definition clear : M unit := λ s, Returns () (clear_state s).

(** The body of the [try] block of [rehash], run on [new_table]: every
    element of the old table, in iteration order, is move-inserted. *)
Fixpoint rehash_loop (xs : list T) : M unit :=
  match xs with
  | [] => mret ()
  | x :: xs' =>
      new_idx ← _bucket x;
      _ ← _unique_insert None x new_idx;
      rehash_loop xs'
  end.

(** [rehash]. The second component of the result of [rehash_run] is the
    local [new_table] as it is when the function is left. *)
Definition rehash_run (new_size : N) (s : hash_set * heap)
  : out (hash_set * heap) unit * option hash_set :=
  match hash_set_ctor new_size with
  | inl e => (Throws e s, None)
  | inr new_table =>
      match rehash_loop (elements s.1) (new_table, s.2) with
      | Undefined => (Undefined, None)
      | Throws e (nt, h) =>
          (* clear(); new_table.clear(); throw; *)
          let s1 := clear_state (s.1, h) in
          let s2 := clear_state (nt, s1.2) in
          (Throws e (s1.1, s2.2), Some s2.1)
      | Returns _ (nt, h) =>
          (* new_table.m_n_elements = m_n_elements; clear();
             *this = std::move(new_table); *)
          let nt' := {| m_container := m_container nt;
                        m_n_elements := m_n_elements s.1 |} in
          let s1 := clear_state (s.1, h) in
          (Returns () (nt', s1.2), Some cleared)
      end
  end.

Definition rehash (new_size : N) : M unit := λ s, (rehash_run new_size s).1.

Definition _increase_size : M unit := λ s,
  let cur_size_index := get_size_index s.1 in
  if bool_decide (cur_size_index = (n_available_sizes - 1)%nat)
  then Throws bad_alloc s
  else match table_sizes !! S cur_size_index with
       | None => Undefined
       | Some n => rehash n s
       end.

(** *** insert

    [insert] is given an lvalue: the key is copied into its node. *)

Definition get_max_load_factor : Q := 1%Q.

(** [static_cast<double>(m_n_elements + 1) / bucket_count() >
    get_max_load_factor()]. The quotient is taken in exact rationals: bucket
    counts are below 2^40 and the comparison with 1.0 of the rounded
    quotient has the same outcome as that of the exact one. *)
Definition load_factor_exceeded (t : hash_set) : bool :=
  if Qlt_le_dec get_max_load_factor
       (inject_Z (Z.of_N (m_n_elements t + 1)) / inject_Z (Z.of_N (bucket_count t)))
  then true else false.

Definition insert (k : T) : M (iterator * bool) :=
  t0 ← get_this;
  _ ← (if bool_decide (bucket_count t0 = 0) then _increase_size else mret ());
  bucket_idx ← _bucket k;
  it ← _find k bucket_idx;
  t1 ← get_this;
  if bool_decide (it ≠ end_ t1) then mret (it, false)
  else if bool_decide (m_n_elements t1 = size_type_max) then throw overflow_error
  else
    bucket_idx ← (if load_factor_exceeded t1
                  then _ ← _increase_size; _bucket k
                  else mret bucket_idx);
    it_retval ← _unique_insert (T_copy_throws k) k bucket_idx;
    _ ← modify_this (λ t, {| m_container := m_container t;
                             m_n_elements := m_n_elements t + 1 |});
    mret (it_retval, true).

(** *** erase *)

Definition set_bucket (idx : N) (b : bucket_list) (t : hash_set) : hash_set :=
  {| m_container := <[N.to_nat idx := b]> (m_container t);
     m_n_elements := m_n_elements t |}.

(** The loop of [_erase] for a node that is not the embedded one. [prev]
    is [prev_b_it]; the result is the remaining chain, the address handed
    to [::delete] (if the node was met) and the returned local iterator:
    [b_it_f] when the node linked after [prev] is the terminator once the
    loop is left, and [tmp], the position before the erased node,
    otherwise. *)
Fixpoint erase_in_rest (p prev : node_ptr) (rest : list (addr * T))
  : list (addr * T) * option addr * node_ptr :=
  match rest with
  | [] => ([], None, terminator)
  | (a, x) :: rest' =>
      if bool_decide (p = heap_node a)
      then (rest', Some a, match rest' with [] => terminator | _ => prev end)
      else let '(r, d, ret) := erase_in_rest p (heap_node a) rest' in
           ((a, x) :: r, d, ret)
  end.

Definition delete_node (d : option addr) (h : heap) : heap :=
  match d with Some a => h ∖ {[a]} | None => h end.

(** [_erase]. A null [it.m_it] is dereferenced by [&*it]; an empty bucket
    has no payload to destroy and no node to step to. *)
Definition _erase (it : iterator) : M node_ptr := λ s,
  let idx := m_idx it in
  match m_container s.1 !! N.to_nat idx, m_it it with
  | None, _ | _, nullptr | Some empty_list, _ => Undefined
  | Some (nodes x rest), p =>
      if bool_decide (p = m_node_of idx) then
        match rest with
        | [] =>
            (* the only element: m_node.m_next = nullptr; return end() *)
            Returns (list_end idx empty_list) (set_bucket idx empty_list s.1, s.2)
        | (a, y) :: rest' =>
            (* the second payload moves into m_node, its node is deleted *)
            Returns (list_begin idx)
                    (set_bucket idx (nodes y rest') s.1, s.2 ∖ {[a]})
        end
      else
        let '(rest', d, ret) := erase_in_rest p (m_node_of idx) rest in
        Returns ret (set_bucket idx (nodes x rest') s.1, delete_node d s.2)
  end.

(** [--m_n_elements] on an unsigned [size_type]. *)
Definition decrement (n : N) : N := if bool_decide (n = 0) then size_type_max else n - 1.

Definition erase (it : iterator) : M iterator :=
  b_it ← _erase it;
  t ← get_this;
  match m_container t !! N.to_nat (m_idx it) with
  | None => undefined
  | Some b =>
      let retval :=
        if bool_decide (b_it = list_end (m_idx it) b)
        then iterator_at t (first_nonempty (m_idx it + 1)
                              (drop (N.to_nat (m_idx it + 1)) (m_container t)))
        else {| m_idx := m_idx it; m_it := b_it |} in
      _ ← modify_this (λ t, {| m_container := m_container t;
                               m_n_elements := decrement (m_n_elements t) |});
      mret retval
  end.

(** *** Iterators: dereference and increment *)

Fixpoint payload_in_rest (a : addr) (rest : list (addr * T)) : option T :=
  match rest with
  | [] => None
  | (a', x) :: rest' => if bool_decide (a = a') then Some x else payload_in_rest a rest'
  end.

Definition rest_begin (rest : list (addr * T)) : node_ptr :=
  match rest with [] => terminator | (a, _) :: _ => heap_node a end.

Fixpoint next_in_rest (a : addr) (rest : list (addr * T)) : option node_ptr :=
  match rest with
  | [] => None
  | (a', _) :: rest' =>
      if bool_decide (a = a') then Some (rest_begin rest') else next_in_rest a rest'
  end.

(** [*it]: the payload of the node [it.m_it] points to, looked up in the
    bucket [it.m_idx]; [None] where the C++ expression has undefined
    behaviour (no such node, or no payload in it). *)
Definition dereference (t : hash_set) (it : iterator) : option T :=
  match m_container t !! N.to_nat (m_idx it), m_it it with
  | Some (nodes x rest), m_node_of i =>
      if bool_decide (i = m_idx it) then Some x else None
  | Some (nodes x rest), heap_node a => payload_in_rest a rest
  | _, _ => None
  end.

(** [m_ptr->m_next]. *)
Definition node_next (t : hash_set) (it : iterator) : option node_ptr :=
  match m_container t !! N.to_nat (m_idx it), m_it it with
  | Some (nodes x rest), m_node_of i =>
      if bool_decide (i = m_idx it) then Some (rest_begin rest) else None
  | Some (nodes x rest), heap_node a => next_in_rest a rest
  | Some empty_list, m_node_of i =>
      if bool_decide (i = m_idx it) then Some nullptr else None
  | _, _ => None
  end.

(** [iterator_impl::increment]. *)
Definition increment (t : hash_set) (it : iterator) : option iterator :=
  match m_container t !! N.to_nat (m_idx it), node_next t it with
  | Some b, Some p =>
      if bool_decide (p = list_end (m_idx it) b)
      then Some (iterator_at t (first_nonempty (m_idx it + 1)
                                  (drop (N.to_nat (m_idx it + 1)) (m_container t))))
      else Some {| m_idx := m_idx it; m_it := p |}
  | _, _ => None
  end.

(** [for (it = begin(); it != end(); ++it)] collecting [*it]; [fuel]
    bounds the number of steps. *)
Fixpoint traverse (fuel : nat) (t : hash_set) (it : iterator) : option (list T) :=
  if bool_decide (it = end_ t) then Some []
  else match fuel with
       | O => None
       | S fuel' =>
           x ← dereference t it;
           it' ← increment t it;
           xs ← traverse fuel' t it';
           Some (x :: xs)
       end.

(** [find]. *)
Definition find (k : T) : M iterator :=
  t ← get_this;
  if bool_decide (bucket_count t = 0) then mret (end_ t)
  else bucket_idx ← _bucket k; _find k bucket_idx.

(** [bucket]. *)
Definition bucket (k : T) : M N :=
  t ← get_this;
  if bool_decide (bucket_count t = 0) then throw zero_division_error
  else _bucket k.

(** The loop of the constructors from a range and from an initializer
    list: [insert] on every element in turn, results ignored. *)
Fixpoint insert_all (ks : list T) : M unit :=
  match ks with
  | [] => mret ()
  | k :: ks' => _ ← insert k; insert_all ks'
  end.

(** *** Notions used to state the properties *)

(** Every stored key sits in the bucket its hash selects. *)
Definition placed (t : hash_set) : Prop :=
  ∀ i b x, m_container t !! i = Some b → x ∈ list_elements b →
    ∃ hv, m_hasher x = inr hv ∧ hv mod bucket_count t = N.of_nat i.

(** The hasher does not throw on the stored keys. *)
Definition hashable (xs : list T) : Prop :=
  ∀ x, x ∈ xs → ∃ hv, m_hasher x = inr hv.

(** No two stored elements compare equal. *)
Fixpoint unique (xs : list T) : Prop :=
  match xs with
  | [] => True
  | x :: xs' =>
      (∀ y, y ∈ xs' → m_key_equal x y = false ∧ m_key_equal y x = false) ∧ unique xs'
  end.

(** The invariants of the table: what [sanity_check] tests (placement,
    element count, legitimate bucket count) and the absence of
    duplicates. *)
Record table_inv (t : hash_set) : Prop := {
  inv_placed : placed t;
  inv_count : m_n_elements t = N.of_nat (length (elements t));
  inv_class : bucket_count t ∈ table_sizes;
  inv_unique : unique (elements t);
}.

(** Strictly ascending lists. *)
Definition ascending (l : list N) : Prop :=
  ∀ i j a b, l !! i = Some a → l !! j = Some b → (i < j)%nat → a < b.

(** The largest size class. *)
Definition largest_size : N :=
  if PIRANHA_64BIT_MODE then 824633720831 else 3221225473.

(** [s] is the smallest size class that is at least [v]. *)
Definition smallest_size_class (s v : N) : Prop :=
  s ∈ table_sizes ∧ v ≤ s ∧ ∀ s', s' ∈ table_sizes → v ≤ s' → s ≤ s'.

(** The size class following a legitimate bucket count. *)
Definition next_size_class (bc : N) : option N :=
  table_sizes !! S (lower_bound table_sizes bc).

(** The last three statements of [insert]. *)
Definition finish_insert (k : T) (bucket_idx : N) : M (iterator * bool) :=
  it_retval ← _unique_insert (T_copy_throws k) k bucket_idx;
  _ ← modify_this (λ t, {| m_container := m_container t;
                           m_n_elements := m_n_elements t + 1 |});
  mret (it_retval, true).

(** The table that [insert] makes of a table without buckets before it
    goes on. *)
Definition one_bucket (t : hash_set) : hash_set :=
  {| m_container := [empty_list]; m_n_elements := m_n_elements t |}.

(** What an [insert] that placed the new key [k] leaves behind: the flag
    of the returned pair is set, the table has [n] buckets, the returned
    iterator is in the bucket the hash of [k] selects among [n] and
    dereferences to [k], and [k] has been added to the elements. *)
Definition inserted (k : T) (t : hash_set) (r : iterator * bool) (t' : hash_set) (n : N) : Prop :=
  r.2 = true ∧ bucket_count t' = n ∧
  (∃ hv, m_hasher k = inr hv ∧ m_idx r.1 = hv mod n) ∧
  dereference t' r.1 = Some k ∧
  elements t' ≡ₚ k :: elements t ∧
  size t' = size t + 1.

(** The keys of a sequence of [insert] calls with the repetitions (by the
    equality predicate) of earlier keys left out. *)
Definition distinct_step (acc : list T) (k : T) : list T :=
  if existsb (λ x, m_key_equal x k) acc then acc else acc ++ [k].

Definition distinct_keys (ks : list T) : list T := foldl distinct_step [] ks.

(** The table and the free store agree: every heap node the table owns is
    allocated, and no node is linked twice. *)
Definition heap_wf (s : hash_set * heap) : Prop :=
  NoDup (heap_nodes s.1) ∧ ∀ a, a ∈ heap_nodes s.1 → a ∈ s.2.

(** The elements of the buckets from index [i] on, in iteration order. *)
Definition elements_from (i : nat) (t : hash_set) : list T :=
  drop i (m_container t) ≫= list_elements.

(** The iterator that follows a node of the bucket [idx] after which the
    chain [post] is linked: its first node, or the first non-empty bucket
    after [idx] when the chain is over. *)
Definition position (t : hash_set) (idx : N) (post : list (addr * T)) : iterator :=
  match post with
  | [] => iterator_at t (first_nonempty (idx + 1)
                           (drop (N.to_nat (idx + 1)) (m_container t)))
  | (a, _) :: _ => {| m_idx := idx; m_it := heap_node a |}
  end.

(** A sequence of [insert] calls of a client that catches and drops
    whatever a call throws and goes on with the next key: the final table
    and free store, and the keys whose call returned, in order. [None] when
    a call has undefined behaviour. *)
Fixpoint insert_each (ks : list T) (s : hash_set * heap)
  : option (hash_set * heap * list T) :=
  match ks with
  | [] => Some (s, [])
  | k :: ks' =>
      match insert k s with
      | Returns _ s1 =>
          match insert_each ks' s1 with
          | Some (s', ok) => Some (s', k :: ok)
          | None => None
          end
      | Throws _ s1 => insert_each ks' s1
      | Undefined => None
      end
  end.

(** *** [sanity_check]

    The consistency check run by the destructor in debug builds. The
    counters are taken in [N]: a table holds fewer payloads than
    [size_type] has values. *)

(** The inner loop of the first pass, over the payloads of the bucket [i]:
    [None] stands for [return false], otherwise the running count. *)
Fixpoint check_bucket (i : N) (xs : list T) (count : N) : M (option N) :=
  match xs with
  | [] => mret (Some count)
  | x :: xs' =>
      idx ← _bucket x;
      if bool_decide (idx ≠ i) then mret None
      else check_bucket i xs' (count + 1)
  end.

(** The first pass, from the bucket [i] on. *)
Fixpoint check_buckets (i : N) (bs : list bucket_list) (count : N) : M (option N) :=
  match bs with
  | [] => mret (Some count)
  | b :: bs' =>
      r ← check_bucket i (list_elements b) count;
      match r with
      | None => mret None
      | Some count' => check_buckets (i + 1) bs' count'
      end
  end.

(** [for (auto it = begin(); it != end(); ++it, ++count) {}]: the number of
    increments; [fuel] bounds it. *)
Fixpoint count_steps (fuel : nat) (t : hash_set) (it : iterator) : option N :=
  if bool_decide (it = end_ t) then Some 0
  else match fuel with
       | O => None
       | S fuel' =>
           it' ← increment t it;
           n ← count_steps fuel' t it';
           Some (n + 1)
       end.

(** [sanity_check]. Reading [table_sizes] past its end is undefined; the
    last loop makes one step per payload, which bounds it. *)
Definition sanity_check : M bool :=
  t ← get_this;
  r ← check_buckets 0 (m_container t) 0;
  match r with
  | None => mret false
  | Some count =>
      if bool_decide (count ≠ m_n_elements t) then mret false
      else match table_sizes !! get_size_index t with
           | None => undefined
           | Some s =>
               if bool_decide (bucket_count t ≠ s) then mret false
               else match count_steps (length (elements t)) t (begin_ t) with
                    | None => undefined
                    | Some count2 =>
                        if bool_decide (count2 ≠ m_n_elements t) then mret false
                        else mret true
                    end
           end
  end.

(** The free store holds the heap nodes of the table and nothing else:
    no node has leaked. *)
Definition heap_exact (s : hash_set * heap) : Prop :=
  heap_wf s ∧ ∀ a, a ∈ s.2 → a ∈ heap_nodes s.1.

(** [P] holds of the state in which a call leaves the table and the free
    store, whether it returns or throws. *)
Definition after {A} (o : out (hash_set * heap) A) (P : hash_set * heap → Prop) : Prop :=
  match o with
  | Returns _ s' | Throws _ s' => P s'
  | Undefined => True
  end.

(** *** Copies

    The copy constructor of a payload yields the same value or throws
    ([T_copy_throws]). *)

(** The loop of [list(const list &other)] once the embedded node has its
    payload: for each further payload of [other] a node is allocated, the
    payload is copied into it, and the node is linked at the end of the
    chain [done] built so far. When the copy throws, the [unique_ptr]
    deletes the new node, and the handler calls [destroy()], which deletes
    the nodes of [done]. *)
Fixpoint copy_rest (src done : list (addr * T)) (h : heap) : out heap (list (addr * T)) :=
  match src with
  | [] => Returns done h
  | (_, y) :: src' =>
      let a := fresh h in
      match T_copy_throws y with
      | Some e => Throws e ((({[a]} ∪ h) ∖ {[a]}) ∖ list_to_set done.*1)
      | None => copy_rest src' (done ++ [(a, y)]) ({[a]} ∪ h)
      end
  end.

(** [list(const list &other)]. *)
Definition list_copy (other : bucket_list) (h : heap) : out heap bucket_list :=
  match other with
  | empty_list => Returns empty_list h
  | nodes x rest =>
      match T_copy_throws x with
      | Some e => Throws e h
      | None =>
          match copy_rest rest [] h with
          | Returns r h' => Returns (nodes x r) h'
          | Throws e h' => Throws e h'
          | Undefined => Undefined
          end
      end
  end.

(** The copy of the bucket array ([std::vector<list>]'s copy constructor):
    the lists are copied in order; when one of the copies throws, the lists
    copied so far are destroyed. *)
Fixpoint copy_buckets (src done : list bucket_list) (h : heap) : out heap (list bucket_list) :=
  match src with
  | [] => Returns done h
  | b :: src' =>
      match list_copy b h with
      | Returns b' h' => copy_buckets src' (done ++ [b']) h'
      | Throws e h' => Throws e (h' ∖ list_to_set (done ≫= list_heap_nodes))
      | Undefined => Undefined
      end
  end.

(** [hash_set(const hash_set &)], defaulted: the new table and the free
    store, or what was thrown and the free store. *)
Definition hash_set_copy (other : hash_set) (h : heap) : out heap hash_set :=
  match copy_buckets (m_container other) [] h with
  | Returns c h' => Returns {| m_container := c; m_n_elements := m_n_elements other |} h'
  | Throws e h' => Throws e h'
  | Undefined => Undefined
  end.

(** [operator=(hash_set &&other)] for [other] an object distinct from
    [*this]: the bucket array of [*this] is destroyed and replaced by that
    of [other], which is left cleared; the result is [other] afterwards. *)
Definition move_assign (other : hash_set) : M hash_set := λ s,
  Returns cleared (other, s.2 ∖ list_to_set (heap_nodes s.1)).

(** [operator=(const hash_set &other)] for [other] an object distinct from
    [*this]: [hash_set tmp(other); *this = std::move(tmp);]. *)
Definition copy_assign (other : hash_set) : M unit := λ s,
  match hash_set_copy other s.2 with
  | Returns tmp h' =>
      match move_assign tmp (s.1, h') with
      | Returns _ s' => Returns () s'
      | Throws e s' => Throws e s'
      | Undefined => Undefined
      end
  | Throws e h' => Throws e (s.1, h')
  | Undefined => Undefined
  end.

(** What copying the payloads [xs] in order throws, if anything: the
    exception of the first payload whose copy throws. *)
Fixpoint first_throw (xs : list T) : option exn :=
  match xs with
  | [] => None
  | x :: xs' =>
      match T_copy_throws x with
      | Some e => Some e
      | None => first_throw xs'
      end
  end.

(** *** The constructors from a range and from an initializer list

    [hash_set(begin, end, n_buckets)]: the bucket array is built with
    [get_size_from_hint(n_buckets)] buckets and the elements of the range
    are inserted in turn. An exception leaves the constructor; the bucket
    array built so far is then destroyed. The result is the new table and
    the free store, or what was thrown and the free store. *)
Definition hash_set_from_range (ks : list T) (n_buckets : N) (h : heap) : out heap hash_set :=
  match hash_set_ctor n_buckets with
  | inl e => Throws e h
  | inr t0 =>
      match insert_all ks (t0, h) with
      | Returns _ s' => Returns s'.1 s'.2
      | Throws e s' => Throws e (clear_state s').2
      | Undefined => Undefined
      end
  end.

(** [hash_set(std::initializer_list<U> list)]: the hint is [list.size()]. *)
Definition hash_set_from_initializer_list (ks : list T) (h : heap) : out heap hash_set :=
  hash_set_from_range ks (N.of_nat (length ks)) h.

End hash_set.

Global Arguments table_sizes : simpl never.
Global Arguments n_available_sizes : simpl never.
Global Arguments size_type_max : simpl never.

(** *** Tables of numbers used in the examples *)

(** Keys hashed by themselves. *)
Definition id_hasher (x : N) : exn + N := inr x.

(** A hasher that throws on the key 13. *)
Definition picky_hasher (x : N) : exn + N :=
  if x =? 13 then inl (unspecified 0) else inr x.

(** Copy constructors: one that never throws, one that throws on 7. *)
Definition no_throw (x : N) : option exn := None.
Definition picky_copy (x : N) : option exn :=
  if x =? 7 then Some (unspecified 1) else None.

(** The keys 1, 3 and 5 under [id_hasher] in three buckets. *)
Definition table_135 : @hash_set N :=
  {| m_container := [nodes 3 []; nodes 1 []; nodes 5 []]; m_n_elements := 3 |}.

(** One bucket holding the key 5. *)
Definition table_5 : @hash_set N :=
  {| m_container := [nodes 5 []]; m_n_elements := 1 |}.

(** One bucket holding the key 13, on which [picky_hasher] throws: built
    with [_unique_insert] and [_update_size], which do not hash. *)
Definition table_13 : @hash_set N :=
  {| m_container := [nodes 13 []]; m_n_elements := 1 |}.

(** Two buckets; the first holds 2 in its embedded node and 4 in the heap
    node at address 0, the second holds 1. *)
Definition table_241 : @hash_set N :=
  {| m_container := [nodes 2 [(0%nat, 4)]; nodes 1 []]; m_n_elements := 3 |}.

(** [n] buckets, the bucket [i] holding the key [i]: with [n] the largest
    size class, a table that is full at the largest size class. *)
Definition full_table (n : nat) : @hash_set N :=
  {| m_container := (λ i, nodes (N.of_nat i) []) <$> seq 0 n;
     m_n_elements := N.of_nat n |}.

End HashSet.

(** ** The hybrid integer [mp_integer]

    [src/mp_integer.hpp] is not among the sources; [tests/mp_integer_02.cpp]
    exercises it against GMP. The reference library is modelled by [Z]:
    [mpz_tdiv_q] is [Z.quot], [mpz_tdiv_r] is [Z.rem], [mpz_pow_ui] is
    [Z.pow]. *)

Module Mpz.
Definition mpz_add : Z → Z → Z := Z.add.
Definition mpz_sub : Z → Z → Z := Z.sub.
Definition mpz_mul : Z → Z → Z := Z.mul.
Definition mpz_tdiv_q : Z → Z → Z := Z.quot.
Definition mpz_tdiv_r : Z → Z → Z := Z.rem.
Definition mpz_pow_ui (b : Z) (e : N) : Z := (b ^ Z.of_N e)%Z.
End Mpz.

Module MpInteger.
Local Open Scope Z_scope.

Section mp_integer.
(** The template parameter, the width of a native word (used when
    [NBits] is 0) and the fixed number of limbs of the static storage. *)
Variable NBits : N.
Variable native_bits : N.
Variable n_limbs : nat.
(** [std::numeric_limits<unsigned long>::max()]. *)
Variable ulong_max : Z.

Definition limb_bits : N := if bool_decide (NBits = 0%N) then native_bits else NBits.
Definition limb_base : Z := 2 ^ Z.of_N limb_bits.

(** Modelled from the spec: the static storage of the absent
    [mp_integer.hpp] -- "a fixed array of limbs (unsigned machine words)
    plus a signed size encoding both magnitude-in-limbs and sign (zero
    size: value zero, negative size: negative value)". Limbs are stored
    least significant first. *)
Record static_int : Type := { s_size : Z; s_limbs : list N }.

(** Modelled from the spec: the tagged union of the absent
    [mp_integer.hpp] -- static storage, or "an opaque handle to an
    external arbitrary-precision integer", here the integer it holds. *)
Inductive mp_integer : Type :=
| Static (st : static_int)
| Dynamic (z : Z).

Fixpoint magnitude (ls : list N) : Z :=
  match ls with
  | [] => 0
  | l :: ls' => Z.of_N l + limb_base * magnitude ls'
  end.

Fixpoint limbs_of (n : nat) (m : Z) : list N :=
  match n with
  | O => []
  | S n' => Z.to_N (m mod limb_base) :: limbs_of n' (m / limb_base)
  end.

(** Number of limbs up to the most significant non-zero one. *)
Fixpoint used_limbs (ls : list N) : nat :=
  match ls with
  | [] => O
  | l :: ls' =>
      match used_limbs ls' with
      | O => if (l =? 0)%N then O else 1%nat
      | S u => S (S u)
      end
  end.

Definition static_value (st : static_int) : Z :=
  Z.sgn (s_size st) * magnitude (take (Z.abs_nat (s_size st)) (s_limbs st)).

Definition static_capacity : Z := limb_base ^ Z.of_nat n_limbs.

Definition fits_static (z : Z) : bool := Z.abs z <? static_capacity.

(** Modelled from the spec: construction of the static storage of the
    absent [mp_integer.hpp] from an integer that fits -- sign and
    magnitude are stored separately. *)
Definition static_of_Z (z : Z) : static_int :=
  let ls := limbs_of n_limbs (Z.abs z) in
  {| s_size := Z.sgn z * Z.of_nat (used_limbs ls); s_limbs := ls |}.

(** Modelled from the spec: the static operations of the absent
    [mp_integer.hpp] -- "compute in a wider intermediate and signal
    overflow rather than wrapping, when the true mathematical result
    exceeds the fixed limb capacity". [None] is the overflow signal. *)
Definition static_op (f : Z → Z → Z) (a b : static_int) : option static_int :=
  let r := f (static_value a) (static_value b) in
  if fits_static r then Some (static_of_Z r) else None.

Definition static_add := static_op Z.add.
Definition static_sub := static_op Z.sub.
Definition static_mul := static_op Z.mul.

Definition value (x : mp_integer) : Z :=
  match x with
  | Static st => static_value st
  | Dynamic z => z
  end.

Definition is_static (x : mp_integer) : bool :=
  match x with Static _ => true | Dynamic _ => false end.

(** Modelled from the spec: [promote] of the absent [mp_integer.hpp] --
    "the current static value is copied into a freshly constructed
    dynamic representation"; "promote() on an already-dynamic value is a
    no-op". *)
Definition promote (x : mp_integer) : mp_integer :=
  match x with
  | Static st => Dynamic (static_value st)
  | Dynamic z => Dynamic z
  end.

(** The random pre-promotion of the operands in tests/mp_integer_02.cpp:
    [if (promote_dist(rng) == 1 && a.is_static()) a.promote();]. *)
Definition maybe_promote (p : bool) (x : mp_integer) : mp_integer :=
  if p then promote x else x.

(** Modelled from the spec: the constructor of the absent
    [mp_integer.hpp] from a native integer -- static storage when the
    value fits, dynamic otherwise. *)
Definition of_native (z : Z) : mp_integer :=
  if fits_static z then Static (static_of_Z z) else Dynamic z.

(** Modelled from the spec: the binary operators [+ - *] of the absent
    [mp_integer.hpp] -- "all arithmetic operations first attempt the
    static path and transparently promote to dynamic storage on
    overflow", the operation being "retried using dynamic arithmetic";
    there is no way back from dynamic to static. *)
Definition hybrid_op (sop : static_int → static_int → option static_int)
    (dop : Z → Z → Z) (x y : mp_integer) : mp_integer :=
  match x, y with
  | Static a, Static b =>
      match sop a b with
      | Some r => Static r
      | None => Dynamic (dop (value (promote x)) (value (promote y)))
      end
  | _, _ => Dynamic (dop (value x) (value y))
  end.

Definition add := hybrid_op static_add Mpz.mpz_add.
Definition sub := hybrid_op static_sub Mpz.mpz_sub.
Definition mul := hybrid_op static_mul Mpz.mpz_mul.

Definition sign (x : mp_integer) : Z := Z.sgn (value x).

(** Modelled from the spec: negation and absolute value of the absent
    [mp_integer.hpp] -- "negation is a pure size-sign flip". *)
Definition neg (x : mp_integer) : mp_integer :=
  match x with
  | Static st => Static {| s_size := - s_size st; s_limbs := s_limbs st |}
  | Dynamic z => Dynamic (- z)
  end.

Definition abs (x : mp_integer) : mp_integer :=
  match x with
  | Static st => Static {| s_size := Z.abs (s_size st); s_limbs := s_limbs st |}
  | Dynamic z => Dynamic (Z.abs z)
  end.

(** Modelled from the spec: [/] and [%] of the absent [mp_integer.hpp] --
    "division/modulo by zero fails with a zero-division kind"; "truncating
    toward zero (matches native integer division), not floor division;
    a % b has the sign of a". Like the other operations they "first
    attempt the static path". *)
Definition div_op (f : Z → Z → Z) (x y : mp_integer) : exn + mp_integer :=
  if value y =? 0 then inl zero_division_error
  else inr (hybrid_op (static_op f) f x y).

Definition div := div_op Mpz.mpz_tdiv_q.
Definition rem := div_op Mpz.mpz_tdiv_r.

(** The overloads taking a native integer as the divisor. *)
Definition div_native (x : mp_integer) (n : Z) : exn + mp_integer := div x (of_native n).
Definition rem_native (x : mp_integer) (n : Z) : exn + mp_integer := rem x (of_native n).

(** Comparison is by value, whatever the storage. *)
Definition eqb (x y : mp_integer) : bool := value x =? value y.

(** Modelled from the spec: [pow] of the absent [mp_integer.hpp] -- the
    "non-negative-exponent case computes repeated squaring on the
    magnitude; negative exponent on a value whose magnitude is not the
    unit returns zero, except base +-1 whose power is always +-1/1, and
    base zero with negative exponent fails with a zero-division kind".
    The ceiling on the exponent is the one tests/mp_integer_02.cpp
    exercises ([pow(ULONG_MAX + 1)] throws [std::invalid_argument]). *)
Fixpoint pow_sq (m : mp_integer) (e : positive) : mp_integer :=
  match e with
  | xH => m
  | xO e' => let r := pow_sq m e' in mul r r
  | xI e' => let r := pow_sq m e' in mul m (mul r r)
  end.

Definition pow_nonneg (b : mp_integer) (e : N) : mp_integer :=
  match e with
  | N0 => of_native 1
  | Npos p =>
      let r := pow_sq (abs b) p in
      if (sign b <? 0) && Z.odd (Z.pos p) then neg r else r
  end.

Definition pow (b e : mp_integer) : exn + mp_integer :=
  let ev := value e in
  if 0 <=? ev then
    if ulong_max <? ev then inl invalid_argument
    else inr (pow_nonneg b (Z.to_N ev))
  else if value b =? 0 then inl zero_division_error
  else if Z.abs (value b) =? 1 then
    inr (of_native (if (value b =? 1) || Z.even ev then 1 else -1))
  else inr (of_native 0).

End mp_integer.
End MpInteger.

(** * Properties of the hash set *)

Module HashSetFacts.
Import HashSet.

Section facts.
Context {T : Type}.
Variable PIRANHA_64BIT_MODE : bool.
Variable m_hasher : T → exn + N.
Variable m_key_equal : T → T → bool.
Variable T_copy_throws : T → option exn.

Abbreviation hash_set := (@hash_set T).
Abbreviation bucket_list := (@bucket_list T).
Abbreviation _bucket := (_bucket m_hasher).
Abbreviation rehash_loop := (rehash_loop m_hasher).
Abbreviation rehash_run := (rehash_run PIRANHA_64BIT_MODE m_hasher).
Abbreviation rehash := (rehash PIRANHA_64BIT_MODE m_hasher).
Abbreviation _increase_size := (_increase_size PIRANHA_64BIT_MODE m_hasher).
Abbreviation insert := (insert PIRANHA_64BIT_MODE m_hasher m_key_equal T_copy_throws).
Abbreviation insert_all := (insert_all PIRANHA_64BIT_MODE m_hasher m_key_equal T_copy_throws).
Abbreviation finish_insert := (finish_insert T_copy_throws).
Abbreviation _find := (_find m_key_equal).
Abbreviation find_in_list := (find_in_list m_key_equal).
Abbreviation find_in_rest := (find_in_rest m_key_equal).
Abbreviation table_sizes := (table_sizes PIRANHA_64BIT_MODE).
Abbreviation n_available_sizes := (n_available_sizes PIRANHA_64BIT_MODE).
Abbreviation size_type_max := (size_type_max PIRANHA_64BIT_MODE).
Abbreviation get_size_index := (get_size_index PIRANHA_64BIT_MODE).
Abbreviation get_size_from_hint := (get_size_from_hint PIRANHA_64BIT_MODE).
Abbreviation hash_set_ctor := (@hash_set_ctor T PIRANHA_64BIT_MODE).
Abbreviation placed := (placed m_hasher).
Abbreviation hashable := (hashable m_hasher).
Abbreviation unique := (unique m_key_equal).
Abbreviation table_inv := (table_inv PIRANHA_64BIT_MODE m_hasher m_key_equal).
Abbreviation largest_size := (largest_size PIRANHA_64BIT_MODE).
Abbreviation smallest_size_class := (smallest_size_class PIRANHA_64BIT_MODE).
Abbreviation next_size_class := (next_size_class PIRANHA_64BIT_MODE).
Abbreviation distinct_step := (distinct_step m_key_equal).
Abbreviation inserted := (inserted m_hasher).
Abbreviation distinct_keys := (distinct_keys m_key_equal).
Abbreviation insert_each := (insert_each PIRANHA_64BIT_MODE m_hasher m_key_equal T_copy_throws).

(** ** Lists of buckets *)

Lemma bucket_count_zero (t : hash_set) : bucket_count t = 0 → m_container t = [].
Proof.
  unfold bucket_count. intros H. apply nil_length_inv. lia.
Qed.

Lemma lookup_bucket_lt (t : hash_set) (idx : N) :
  idx < bucket_count t → is_Some (m_container t !! N.to_nat idx).
Proof.
  unfold bucket_count. intros H. apply lookup_lt_is_Some. lia.
Qed.

Lemma elem_of_elements (t : hash_set) (x : T) :
  x ∈ elements t ↔ ∃ i b, m_container t !! i = Some b ∧ x ∈ list_elements b.
Proof.
  unfold elements. rewrite list_elem_of_bind. split.
  - intros (b & Hx & Hb). apply list_elem_of_lookup in Hb as [i Hi]. eauto.
  - intros (i & b & Hi & Hx). exists b. split; [done|].
    apply list_elem_of_lookup. eauto.
Qed.

Lemma bind_insert {A B} (f : A → list B) (l : list A) (i : nat) (a a' : A) (y : B) :
  l !! i = Some a → f a' ≡ₚ y :: f a → (<[i:=a']> l) ≫= f ≡ₚ y :: (l ≫= f).
Proof.
  intros Hi Hf.
  assert (i < length l)%nat as Hlt by (eapply lookup_lt_Some; eauto).
  assert (l ≫= f = (take i l ≫= f) ++ f a ++ (drop (S i) l ≫= f)) as ->.
  { rewrite <- (take_drop_middle l i a Hi) at 1. by rewrite bind_app, bind_cons. }
  rewrite insert_take_drop by done.
  rewrite !bind_app, !bind_cons, Hf. simpl.
  symmetry. apply Permutation_middle.
Qed.

Lemma bind_insert_same {A B} (f : A → list B) (l : list A) (i : nat) (a a' : A) :
  l !! i = Some a → f a' = f a → (<[i:=a']> l) ≫= f = l ≫= f.
Proof.
  intros Hi Hf.
  assert (i < length l)%nat as Hlt by (eapply lookup_lt_Some; eauto).
  assert (l ≫= f = (take i l ≫= f) ++ f a ++ (drop (S i) l ≫= f)) as ->.
  { rewrite <- (take_drop_middle l i a Hi) at 1. by rewrite bind_app, bind_cons. }
  rewrite insert_take_drop by done.
  by rewrite !bind_app, !bind_cons, Hf.
Qed.

Lemma list_insert_elements idx (k : T) (b : bucket_list) (h : heap) :
  list_elements (list_insert idx k b h).1.1 ≡ₚ k :: list_elements b.
Proof.
  destruct b as [|x rest]; simpl; [done|]. apply perm_swap.
Qed.

Lemma replicate_empty_elements (n : nat) :
  replicate n (@empty_list T) ≫= list_elements = [].
Proof. induction n as [|n IH]; [done|]. by rewrite replicate_S, bind_cons, IH. Qed.

Lemma replicate_empty_heap_nodes (n : nat) :
  replicate n (@empty_list T) ≫= list_heap_nodes = [].
Proof. induction n as [|n IH]; [done|]. by rewrite replicate_S, bind_cons, IH. Qed.

(** ** The low-level operations *)

Lemma _bucket_returns (k : T) (t : hash_set) (h : heap) (hv : N) :
  bucket_count t ≠ 0 → m_hasher k = inr hv →
  _bucket k (t, h) = Returns (hv mod bucket_count t) (t, h).
Proof.
  intros Hbc Hk. unfold HashSet._bucket. simpl.
  rewrite bool_decide_eq_false_2 by done. by rewrite Hk.
Qed.

Lemma _bucket_inv (k : T) (s s' : hash_set * heap) (idx : N) :
  _bucket k s = Returns idx s' →
  s' = s ∧ bucket_count s.1 ≠ 0 ∧ idx < bucket_count s.1 ∧
  ∃ hv, m_hasher k = inr hv ∧ idx = hv mod bucket_count s.1.
Proof.
  unfold HashSet._bucket. case_bool_decide as Hbc; [done|].
  destruct (m_hasher k) as [e|hv]; [done|]. intros [= <- <-].
  repeat split; [done| by apply N.mod_lt |]. eauto.
Qed.

Lemma _bucket_throws (k : T) (s s' : hash_set * heap) (e : exn) :
  _bucket k s = Throws e s' → s' = s ∧ m_hasher k = inl e.
Proof.
  unfold HashSet._bucket. case_bool_decide; [done|].
  destruct (m_hasher k); [|done]. by intros [= <- <-].
Qed.

Lemma _unique_insert_inv (c : option exn) (k : T) (idx : N) (s s' : hash_set * heap)
    (it : iterator) :
  _unique_insert c k idx s = Returns it s' →
  ∃ b, c = None ∧ m_container s.1 !! N.to_nat idx = Some b ∧
       s'.1 = set_bucket idx (list_insert idx k b s.2).1.1 s.1 ∧
       s'.2 = (list_insert idx k b s.2).2 ∧
       it = {| m_idx := idx; m_it := (list_insert idx k b s.2).1.2 |}.
Proof.
  unfold _unique_insert.
  destruct (m_container s.1 !! N.to_nat idx) as [b|] eqn:Hb; [|done].
  destruct c as [e|]; [done|].
  destruct (list_insert idx k b s.2) as [[b' p] h'] eqn:Hli.
  intros [= <- <-]. exists b. by rewrite Hli.
Qed.

Lemma _unique_insert_throws (c : option exn) (k : T) (idx : N) (s s' : hash_set * heap)
    (e : exn) :
  _unique_insert c k idx s = Throws e s' → s' = s ∧ c = Some e.
Proof.
  unfold _unique_insert.
  destruct (m_container s.1 !! N.to_nat idx) as [b|]; [|done].
  destruct c as [e'|]; [by intros [= <- <-]|].
  by destruct (list_insert idx k b s.2) as [[b' p] h'].
Qed.

Lemma _unique_insert_returns (k : T) (idx : N) (t : hash_set) (h : heap) :
  idx < bucket_count t →
  ∃ it s', _unique_insert None k idx (t, h) = Returns it s'.
Proof.
  intros Hlt. destruct (lookup_bucket_lt t idx Hlt) as [b Hb].
  unfold _unique_insert. simpl. rewrite Hb.
  destruct (list_insert idx k b h) as [[b' p] h']. eauto.
Qed.

Lemma set_bucket_count idx (b : bucket_list) (t : hash_set) :
  bucket_count (set_bucket idx b t) = bucket_count t.
Proof. unfold bucket_count, set_bucket. simpl. by rewrite length_insert. Qed.

Lemma set_bucket_elements idx (b b' : bucket_list) (t : hash_set) (k : T) :
  m_container t !! N.to_nat idx = Some b →
  list_elements b' ≡ₚ k :: list_elements b →
  elements (set_bucket idx b' t) ≡ₚ k :: elements t.
Proof. intros Hb Hp. unfold elements, set_bucket. simpl. by eapply bind_insert. Qed.

Lemma set_bucket_placed idx (b' : bucket_list) (t : hash_set) :
  placed t →
  (∀ x, x ∈ list_elements b' →
        ∃ hv, m_hasher x = inr hv ∧ hv mod bucket_count t = idx) →
  placed (set_bucket idx b' t).
Proof.
  intros Hpl Hb' i c x Hi Hx. rewrite set_bucket_count.
  unfold set_bucket in Hi. simpl in Hi.
  destruct (decide (i = N.to_nat idx)) as [->|Hne].
  - apply list_lookup_insert_Some in Hi as [(_ & <- & _)|[? _]]; [|done].
    destruct (Hb' x Hx) as (hv & Hh & Hm). exists hv. split; [done|]. lia.
  - rewrite list_lookup_insert_ne in Hi by done. eauto.
Qed.

(** ** The move-insert loop of [rehash] *)

Lemma rehash_loop_cons (x : T) (xs : list T) (s : hash_set * heap) :
  rehash_loop (x :: xs) s =
  match _bucket x s with
  | Returns new_idx s1 =>
      match _unique_insert None x new_idx s1 with
      | Returns _ s2 => rehash_loop xs s2
      | Throws e s2 => Throws e s2
      | Undefined => Undefined
      end
  | Throws e s1 => Throws e s1
  | Undefined => Undefined
  end.
Proof.
  simpl. unfold mbind, M_bind. destruct (_bucket x s) as [idx s1| |]; [|done..].
  by destruct (_unique_insert None x idx s1).
Qed.

Lemma move_insert_step (x : T) (idx : N) (s s1 s2 : hash_set * heap) (it : iterator) :
  _bucket x s = Returns idx s1 → _unique_insert None x idx s1 = Returns it s2 →
  bucket_count s2.1 = bucket_count s.1 ∧
  m_n_elements s2.1 = m_n_elements s.1 ∧
  elements s2.1 ≡ₚ x :: elements s.1 ∧
  (placed s.1 → placed s2.1).
Proof.
  intros Hb Hu. apply _bucket_inv in Hb as (-> & Hbc & Hlt & hv & Hh & ->).
  apply _unique_insert_inv in Hu as (b & _ & Hlk & -> & _ & _).
  split; [apply set_bucket_count|]. split; [done|].
  split; [exact (set_bucket_elements _ _ _ _ _ Hlk (list_insert_elements _ _ _ _))|].
  intros Hpl. apply set_bucket_placed; [done|]. intros y Hy.
  rewrite list_insert_elements in Hy. apply elem_of_cons in Hy as [->|Hy]; [eauto|].
  destruct (Hpl _ _ _ Hlk Hy) as (hv' & Hh' & Hm). exists hv'. split; [done|]. lia.
Qed.

Lemma rehash_loop_inv (xs : list T) (s s' : hash_set * heap) (u : unit) :
  rehash_loop xs s = Returns u s' →
  bucket_count s'.1 = bucket_count s.1 ∧
  m_n_elements s'.1 = m_n_elements s.1 ∧
  elements s'.1 ≡ₚ xs ++ elements s.1 ∧
  (placed s.1 → placed s'.1).
Proof.
  revert s. induction xs as [|x xs IH]; intros s.
  - intros Hr. injection Hr as _ <-. repeat split; auto.
  - rewrite rehash_loop_cons.
    destruct (_bucket x s) as [idx s1| |] eqn:Hb; [|done..].
    destruct (_unique_insert None x idx s1) as [it s2| |] eqn:Hu; [|done..].
    intros Hloop. destruct (IH _ Hloop) as (Hc & Hn & Hp & Hpl).
    destruct (move_insert_step _ _ _ _ _ _ Hb Hu) as (Hc1 & Hn1 & Hp1 & Hpl1).
    split; [by rewrite Hc|]. split; [by rewrite Hn|]. split; [|by intros ?; apply Hpl, Hpl1].
    rewrite Hp, Hp1. simpl. symmetry. apply Permutation_middle.
Qed.

Lemma rehash_loop_returns (xs : list T) (s : hash_set * heap) :
  xs = [] ∨ bucket_count s.1 ≠ 0 → hashable xs →
  ∃ s', rehash_loop xs s = Returns () s'.
Proof.
  revert s. induction xs as [|x xs IH]; intros s Hbc Hh; [by eexists|].
  destruct Hbc as [|Hbc]; [done|].
  destruct (Hh x) as [hv Hx]; [left|].
  rewrite rehash_loop_cons. destruct s as [t h].
  rewrite (_bucket_returns x t h hv Hbc Hx).
  destruct (_unique_insert_returns x (hv mod bucket_count t) t h) as (it & s2 & Hu).
  { by apply N.mod_lt. }
  rewrite Hu. apply IH.
  - right. apply _unique_insert_inv in Hu as (b & _ & _ & -> & _). by rewrite set_bucket_count.
  - intros y Hy. apply Hh. by right.
Qed.

(** An exception leaves the loop only when the hasher throws it. *)
Lemma rehash_loop_throws (xs : list T) (s s' : hash_set * heap) (e : exn) :
  rehash_loop xs s = Throws e s' → ∃ x, x ∈ xs ∧ m_hasher x = inl e.
Proof.
  revert s. induction xs as [|x xs IH]; intros s; [done|].
  rewrite rehash_loop_cons.
  destruct (_bucket x s) as [idx s1|e1 s1|] eqn:Hb; [| |done].
  - destruct (_unique_insert None x idx s1) as [it s2|e2 s2|] eqn:Hu; [| |done].
    + intros Hl. destruct (IH _ Hl) as (y & Hy & He). exists y. split; [by right|done].
    + by apply _unique_insert_throws in Hu as [_ ?].
  - intros [= -> ->]. apply _bucket_throws in Hb as [_ Hb]. exists x. split; [left|done].
Qed.

(** ** Size classes *)

Lemma lower_bound_ge (l : list N) (v s : N) :
  l !! lower_bound l v = Some s → v ≤ s.
Proof.
  induction l as [|x l IH]; simpl; [done|].
  destruct (x <? v) eqn:Hx; simpl; [done|].
  intros [= <-]. by apply N.ltb_ge.
Qed.

Lemma lower_bound_prefix (l : list N) (v s : N) (i : nat) :
  l !! i = Some s → (i < lower_bound l v)%nat → s < v.
Proof.
  revert i. induction l as [|x l IH]; intros i; simpl; [done|].
  destruct (x <? v) eqn:Hx; [|lia].
  destruct i as [|i]; simpl.
  - intros [= <-] _. by apply N.ltb_lt.
  - intros Hi Hlt. apply (IH i); [done|lia].
Qed.

Lemma lower_bound_le_length (l : list N) (v : N) : (lower_bound l v ≤ length l)%nat.
Proof. induction l as [|x l IH]; simpl; [done|]. destruct (x <? v); lia. Qed.

Lemma ascending_cons (x : N) (l : list N) :
  ascending (x :: l) → ascending l ∧ ∀ y, y ∈ l → x < y.
Proof.
  intros Ha. split.
  - intros i j a b Hi Hj Hlt. apply (Ha (S i) (S j)); [done..|lia].
  - intros y Hy. apply list_elem_of_lookup in Hy as [i Hi].
    apply (Ha 0%nat (S i)); [done..|lia].
Qed.

Lemma lower_bound_elem (l : list N) (v : N) :
  ascending l → v ∈ l → l !! lower_bound l v = Some v.
Proof.
  induction l as [|x l IH]; intros Ha Hv; [by apply elem_of_nil in Hv|].
  apply ascending_cons in Ha as [Ha Hx]. simpl.
  apply elem_of_cons in Hv as [->|Hv].
  - by rewrite N.ltb_irrefl.
  - specialize (Hx v Hv). apply N.ltb_lt in Hx. rewrite Hx. simpl. by apply IH.
Qed.

Lemma ascending_cons_intro (x : N) (l : list N) :
  Forall (N.lt x) l → ascending l → ascending (x :: l).
Proof.
  intros Hx Ha i j a b Hi Hj Hlt. destruct j as [|j]; [lia|]. simpl in Hj.
  destruct i as [|i]; simpl in Hi.
  - injection Hi as <-. rewrite Forall_forall in Hx. apply Hx.
    apply list_elem_of_lookup. eauto.
  - apply (Ha i j); [done..|lia].
Qed.

Lemma table_sizes_ascending : ascending table_sizes.
Proof.
  unfold HashSet.table_sizes.
  destruct PIRANHA_64BIT_MODE; simpl;
    repeat (apply ascending_cons_intro;
            [repeat (constructor; [reflexivity|]); constructor|]);
    by intros [|?] ? ? ?.
Qed.

Lemma table_sizes_length : length table_sizes = n_available_sizes.
Proof. unfold HashSet.table_sizes, HashSet.n_available_sizes. by destruct PIRANHA_64BIT_MODE. Qed.

Lemma table_sizes_last : table_sizes !! (n_available_sizes - 1)%nat = Some largest_size.
Proof.
  unfold HashSet.table_sizes, HashSet.n_available_sizes, largest_size.
  by destruct PIRANHA_64BIT_MODE.
Qed.

Lemma table_sizes_le_largest (s : N) : s ∈ table_sizes → s ≤ largest_size.
Proof.
  intros Hs. apply list_elem_of_lookup in Hs as [i Hi].
  pose proof (lookup_lt_Some _ _ _ Hi) as Hlt. rewrite table_sizes_length in Hlt.
  destruct (decide (i = (n_available_sizes - 1)%nat)) as [->|Hne].
  - rewrite table_sizes_last in Hi. injection Hi as <-. lia.
  - apply N.lt_le_incl.
    apply (table_sizes_ascending i (n_available_sizes - 1)%nat);
      [done|apply table_sizes_last|lia].
Qed.

Lemma table_sizes_first : table_sizes !! 0%nat = Some 0 ∧ table_sizes !! 1%nat = Some 1.
Proof. unfold HashSet.table_sizes. by destruct PIRANHA_64BIT_MODE. Qed.

Lemma get_size_from_hint_inr (hint s : N) :
  get_size_from_hint hint = inr s → smallest_size_class s hint.
Proof.
  unfold HashSet.get_size_from_hint.
  destruct (table_sizes !! lower_bound table_sizes hint) as [s0|] eqn:Hlk; [|done].
  intros [= <-]. split; [apply list_elem_of_lookup; eauto|].
  split; [by eapply lower_bound_ge|].
  intros s' Hs' Hle. apply list_elem_of_lookup in Hs' as [i Hi].
  destruct (decide (i < lower_bound table_sizes hint)%nat) as [Hlt|Hge].
  - pose proof (lower_bound_prefix _ _ _ _ Hi Hlt). lia.
  - destruct (decide (i = lower_bound table_sizes hint)) as [->|Hne]; [naive_solver lia|].
    apply N.lt_le_incl. apply (table_sizes_ascending (lower_bound table_sizes hint) i); [done..|lia].
Qed.

Lemma get_size_from_hint_total (hint : N) :
  hint ≤ largest_size → ∃ s, get_size_from_hint hint = inr s.
Proof.
  intros Hle. unfold HashSet.get_size_from_hint.
  destruct (table_sizes !! lower_bound table_sizes hint) as [s0|] eqn:Hlk; [eauto|].
  apply lookup_ge_None in Hlk.
  pose proof (lower_bound_prefix table_sizes hint largest_size _ table_sizes_last) as Hp.
  rewrite table_sizes_length in Hlk.
  assert (0 < n_available_sizes)%nat by (unfold HashSet.n_available_sizes; destruct PIRANHA_64BIT_MODE; lia).
  lia.
Qed.

Lemma get_size_from_hint_inl (hint : N) (e : exn) :
  get_size_from_hint hint = inl e → e = bad_alloc ∧ largest_size < hint.
Proof.
  intros He. destruct (decide (hint ≤ largest_size)) as [Hle|Hgt].
  - destruct (get_size_from_hint_total hint Hle) as [s Hs]. congruence.
  - split; [|lia]. unfold HashSet.get_size_from_hint in He.
    destruct (table_sizes !! lower_bound table_sizes hint); congruence.
Qed.

(** [get_size_index] on a legitimate bucket count. *)
Lemma get_size_index_lookup (t : hash_set) :
  bucket_count t ∈ table_sizes →
  table_sizes !! get_size_index t = Some (bucket_count t).
Proof. apply lower_bound_elem, table_sizes_ascending. Qed.

(** ** [rehash] *)

Lemma hash_set_ctor_inr (n : N) (nt : hash_set) :
  hash_set_ctor n = inr nt →
  smallest_size_class (bucket_count nt) n ∧ m_n_elements nt = 0 ∧
  elements nt = [] ∧ heap_nodes nt = [] ∧ placed nt.
Proof.
  unfold HashSet.hash_set_ctor.
  destruct (get_size_from_hint n) as [e|sz] eqn:Hsz; [done|]. intros [= <-].
  apply get_size_from_hint_inr in Hsz.
  unfold bucket_count, elements, heap_nodes. simpl.
  rewrite length_replicate, N2Nat.id, replicate_empty_elements, replicate_empty_heap_nodes.
  repeat split; try done; try apply Hsz.
  intros i b x Hi Hx. simpl in Hi. apply lookup_replicate in Hi as [-> _].
  by apply elem_of_nil in Hx.
Qed.

Lemma hash_set_ctor_inl (n : N) (e : exn) :
  hash_set_ctor n = inl e → e = bad_alloc ∧ largest_size < n.
Proof.
  unfold HashSet.hash_set_ctor.
  destruct (get_size_from_hint n) as [e'|sz] eqn:Hsz; [|done]. intros [= <-].
  by apply get_size_from_hint_inl.
Qed.

Lemma rehash_returns_inv (n : N) (s s' : hash_set * heap) (u : unit) :
  rehash n s = Returns u s' →
  smallest_size_class (bucket_count s'.1) n ∧
  m_n_elements s'.1 = m_n_elements s.1 ∧
  elements s'.1 ≡ₚ elements s.1 ∧
  placed s'.1.
Proof.
  unfold HashSet.rehash, HashSet.rehash_run.
  destruct (hash_set_ctor n) as [e|nt] eqn:Hc; [done|].
  apply hash_set_ctor_inr in Hc as (Hsz & Hn & Hel & _ & Hpl).
  destruct (rehash_loop (elements s.1) (nt, s.2)) as [u' [nt' h']|e [nt' h']|] eqn:Hl;
    [|done..].
  simpl. intros [= <- <-]. simpl.
  apply rehash_loop_inv in Hl as (Hbc & _ & Hp & Hpl'). simpl in *.
  split; [unfold bucket_count in *; simpl; by rewrite Hbc|].
  split; [done|]. split; [by rewrite Hp, Hel, app_nil_r|].
  intros i b x Hi Hx. simpl in Hi.
  destruct (Hpl' Hpl i b x Hi Hx) as (hv & Hh & Hm). by exists hv.
Qed.

Lemma rehash_returns (n : N) (t : hash_set) (h : heap) :
  n ≤ largest_size → n ≠ 0 ∨ elements t = [] → hashable (elements t) →
  ∃ s', rehash n (t, h) = Returns () s'.
Proof.
  intros Hn Hz Hh. unfold HashSet.rehash, HashSet.rehash_run.
  destruct (get_size_from_hint_total n Hn) as [sz Hsz].
  unfold HashSet.hash_set_ctor. rewrite Hsz. simpl.
  destruct (rehash_loop_returns (elements t)
              ({| m_container := replicate (N.to_nat sz) empty_list; m_n_elements := 0 |}, h))
    as [[nt' h'] Hl]; [|done|].
  - destruct Hz as [Hz|Hz]; [right|by left].
    apply get_size_from_hint_inr in Hsz as (_ & Hle & _).
    unfold bucket_count. simpl. rewrite length_replicate. lia.
  - rewrite Hl. simpl. eauto.
Qed.

(** When [rehash] throws, either the constructor of [new_table] threw
    [bad_alloc] and nothing was touched, or the exception came out of the
    move-insert loop and the table has been cleared. *)
Lemma rehash_throws_inv (n : N) (s s' : hash_set * heap) (e : exn) :
  rehash n s = Throws e s' →
  (s' = s ∧ e = bad_alloc ∧ largest_size < n) ∨
  (s'.1 = cleared ∧ ∃ x, x ∈ elements s.1 ∧ m_hasher x = inl e).
Proof.
  unfold HashSet.rehash, HashSet.rehash_run.
  destruct (hash_set_ctor n) as [e'|nt] eqn:Hc.
  - simpl. intros [= <- <-]. left. apply hash_set_ctor_inl in Hc. tauto.
  - destruct (rehash_loop (elements s.1) (nt, s.2)) as [u' [nt' h']|e' [nt' h']|] eqn:Hl;
      [done| |done].
    simpl. intros [= <- <-]. right. split; [done|]. by eapply rehash_loop_throws.
Qed.

(** ** [_increase_size] *)

Lemma difference_nil (h : heap) : h ∖ list_to_set (@nil addr) = h.
Proof. simpl. apply difference_empty_L. Qed.

Lemma increase_size_zero (t : hash_set) (h : heap) :
  bucket_count t = 0 →
  _increase_size (t, h) =
  Returns () ({| m_container := [empty_list]; m_n_elements := m_n_elements t |}, h).
Proof.
  intros Hz. apply bucket_count_zero in Hz. destruct t as [c n]. simpl in Hz. subst c.
  unfold HashSet._increase_size, HashSet.get_size_index, HashSet.rehash, HashSet.rehash_run,
    HashSet.hash_set_ctor, HashSet.get_size_from_hint, HashSet.table_sizes,
    HashSet.n_available_sizes, clear_state, heap_nodes.
  destruct PIRANHA_64BIT_MODE; simpl; by rewrite difference_empty_L.
Qed.

Lemma increase_size_returns_inv (s s' : hash_set * heap) (u : unit) :
  _increase_size s = Returns u s' →
  ∃ n, table_sizes !! S (get_size_index s.1) = Some n ∧ rehash n s = Returns u s'.
Proof.
  unfold HashSet._increase_size. case_bool_decide; [done|].
  destruct (table_sizes !! S (get_size_index s.1)) as [n|]; [|done]. eauto.
Qed.

Lemma increase_size_throws_inv (s s' : hash_set * heap) (e : exn) :
  _increase_size s = Throws e s' →
  (s' = s ∧ e = bad_alloc) ∨
  (s'.1 = cleared ∧ ∃ x, x ∈ elements s.1 ∧ m_hasher x = inl e).
Proof.
  unfold HashSet._increase_size. case_bool_decide.
  - intros [= <- <-]. by left.
  - destruct (table_sizes !! S (get_size_index s.1)) as [n|]; [|done].
    intros Hr. apply rehash_throws_inv in Hr as [(? & ? & _)|?]; [by left|by right].
Qed.

Lemma next_size_class_gt (bc n : N) :
  bc ∈ table_sizes → next_size_class bc = Some n → bc < n.
Proof.
  intros Hbc Hn. unfold next_size_class in Hn.
  eapply (table_sizes_ascending (lower_bound table_sizes bc)); [|done|lia].
  by apply lower_bound_elem; [apply table_sizes_ascending|].
Qed.

Lemma next_size_class_largest (bc : N) :
  bc ∈ table_sizes →
  next_size_class bc = None ↔ lower_bound table_sizes bc = (n_available_sizes - 1)%nat.
Proof.
  intros Hbc. unfold next_size_class. rewrite lookup_ge_None, table_sizes_length.
  pose proof (lower_bound_elem _ _ table_sizes_ascending Hbc) as Hlk.
  apply lookup_lt_Some in Hlk. rewrite table_sizes_length in Hlk. lia.
Qed.

Lemma next_size_class_None (bc : N) :
  bc ∈ table_sizes → next_size_class bc = None ↔ bc = largest_size.
Proof.
  intros Hbc. rewrite next_size_class_largest by done.
  pose proof (lower_bound_elem _ _ table_sizes_ascending Hbc) as Hlk.
  split.
  - intros Heq. rewrite Heq, table_sizes_last in Hlk. congruence.
  - intros ->. destruct (decide (lower_bound table_sizes largest_size = (n_available_sizes - 1)%nat))
      as [|Hne]; [done|].
    pose proof (lookup_lt_Some _ _ _ Hlk) as Hlt. rewrite table_sizes_length in Hlt.
    pose proof (table_sizes_ascending _ (n_available_sizes - 1)%nat _ _ Hlk table_sizes_last). lia.
Qed.

Lemma increase_size_returns (t : hash_set) (h : heap) (n : N) :
  bucket_count t ∈ table_sizes → next_size_class (bucket_count t) = Some n →
  hashable (elements t) →
  ∃ s', _increase_size (t, h) = Returns () s' ∧ bucket_count s'.1 = n.
Proof.
  intros Hbc Hn Hh. unfold HashSet._increase_size. cbn [fst snd].
  assert (get_size_index t ≠ (n_available_sizes - 1)%nat) as Hne.
  { intros Heq. apply next_size_class_largest in Heq; [congruence|done]. }
  rewrite bool_decide_eq_false_2 by done.
  unfold next_size_class in Hn. unfold HashSet.get_size_index. rewrite Hn.
  pose proof (next_size_class_gt _ _ Hbc Hn) as Hgt.
  assert (n ∈ table_sizes) as Hin by (apply list_elem_of_lookup; eauto).
  destruct (rehash_returns n t h) as [s' Hs']; [by apply table_sizes_le_largest|left; lia|done|].
  exists s'. split; [done|].
  apply rehash_returns_inv in Hs' as ((_ & Hle & Hmin) & _).
  apply N.le_antisymm; [by apply Hmin|done].
Qed.

Lemma increase_size_largest (t : hash_set) (h : heap) :
  bucket_count t = largest_size → _increase_size (t, h) = Throws bad_alloc (t, h).
Proof.
  intros Hbc. unfold HashSet._increase_size. cbn [fst snd].
  rewrite bool_decide_eq_true_2; [done|].
  apply next_size_class_largest; [|apply next_size_class_None]; try done;
    rewrite Hbc; apply list_elem_of_lookup; eexists; apply table_sizes_last.
Qed.

(** ** [insert] *)

(** [insert] on a table that has buckets, one test at a time. *)
Lemma insert_unfold (k : T) (t : hash_set) (h : heap) :
  bucket_count t ≠ 0 →
  insert k (t, h) =
  match m_hasher k with
  | inl e => Throws e (t, h)
  | inr hv =>
      let idx := hv mod bucket_count t in
      match m_container t !! N.to_nat idx with
      | None => Undefined
      | Some b =>
          match find_in_list idx k b with
          | Some p => Returns ({| m_idx := idx; m_it := p |}, false) (t, h)
          | None =>
              if bool_decide (m_n_elements t = size_type_max)
              then Throws overflow_error (t, h)
              else if load_factor_exceeded t
                   then match _increase_size (t, h) with
                        | Returns _ s2 =>
                            match _bucket k s2 with
                            | Returns idx2 s3 => finish_insert k idx2 s3
                            | Throws e s3 => Throws e s3
                            | Undefined => Undefined
                            end
                        | Throws e s2 => Throws e s2
                        | Undefined => Undefined
                        end
                   else finish_insert k idx (t, h)
          end
      end
  end.
Proof.
  intros Hbc. unfold HashSet.insert, finish_insert, mbind, M_bind, mret, M_ret, get_this,
    modify_this, throw, HashSet._bucket, HashSet._find. cbn [fst snd].
  rewrite !bool_decide_eq_false_2 by done.
  destruct (m_hasher k) as [e|hv]; [done|]. cbn [fst snd].
  destruct (m_container t !! N.to_nat (hv mod bucket_count t)) as [b|]; [|done].
  destruct (find_in_list (hv mod bucket_count t) k b) as [p|]; cbn [fst snd].
  - rewrite bool_decide_eq_true_2; [done|].
    unfold end_. intros [= Heq _]. pose proof (N.mod_lt hv _ Hbc). lia.
  - rewrite (bool_decide_eq_false_2 (end_ t ≠ end_ t)) by (intros Hne; by apply Hne).
    case_bool_decide; [done|].
    destruct (load_factor_exceeded t); [|done].
    destruct (_increase_size (t, h)) as [u s2| |]; [|done..].
    unfold HashSet._bucket. case_bool_decide; [done|].
    by destruct (m_hasher k).
Qed.

Lemma insert_zero_buckets (k : T) (t : hash_set) (h : heap) :
  bucket_count t = 0 →
  insert k (t, h) =
  insert k ({| m_container := [empty_list]; m_n_elements := m_n_elements t |}, h).
Proof.
  intros Hz. unfold HashSet.insert at 1. unfold mbind at 1. unfold M_bind at 1.
  unfold get_this at 1. cbn [fst snd]. unfold mbind at 1. unfold M_bind at 1.
  rewrite bool_decide_eq_true_2 by done. rewrite (increase_size_zero t h Hz).
  unfold HashSet.insert, mbind, M_bind, get_this. cbn [fst snd].
  rewrite bool_decide_eq_false_2 by (by unfold bucket_count). done.
Qed.

Lemma dereference_list_insert idx (k : T) (b : bucket_list) (t : hash_set) (h : heap) :
  m_container t !! N.to_nat idx = Some b →
  dereference (set_bucket idx (list_insert idx k b h).1.1 t)
              {| m_idx := idx; m_it := (list_insert idx k b h).1.2 |} = Some k.
Proof.
  intros Hb. unfold dereference, set_bucket. cbn [m_idx m_it m_container].
  rewrite list_lookup_insert_eq by (by eapply lookup_lt_Some).
  destruct b as [|x rest]; simpl; by rewrite bool_decide_eq_true_2.
Qed.

Lemma finish_insert_returns (k : T) (idx : N) (t : hash_set) (h : heap) :
  idx < bucket_count t → T_copy_throws k = None →
  ∃ it t' h', finish_insert k idx (t, h) = Returns (it, true) (t', h') ∧
    m_idx it = idx ∧ dereference t' it = Some k ∧
    bucket_count t' = bucket_count t ∧
    m_n_elements t' = m_n_elements t + 1 ∧
    elements t' ≡ₚ k :: elements t ∧
    (placed t → (∃ hv, m_hasher k = inr hv ∧ idx = hv mod bucket_count t) → placed t').
Proof.
  intros Hlt Hcopy. destruct (lookup_bucket_lt t idx Hlt) as [b Hb].
  unfold HashSet.finish_insert, mbind, M_bind, mret, M_ret, modify_this, _unique_insert.
  cbn [fst snd]. rewrite Hb, Hcopy.
  pose proof (dereference_list_insert idx k b t h Hb) as Hd.
  pose proof (list_insert_elements idx k b h) as Hel.
  destruct (list_insert idx k b h) as [[b' p] h'] eqn:Hli. cbn [fst snd] in *.
  eexists _, _, _. split; [reflexivity|]. cbn [m_idx].
  split; [done|]. split; [exact Hd|].
  split; [unfold bucket_count; cbn [m_container]; by rewrite length_insert|].
  split; [done|].
  split; [exact (set_bucket_elements idx b b' t k Hb Hel)|].
  intros Hpl (hv & Hh & ->) i c x Hi Hx.
  apply (set_bucket_placed (hv mod bucket_count t) b' t Hpl) with (b := c); [|exact Hi|exact Hx].
  intros y Hy. rewrite Hel in Hy. apply elem_of_cons in Hy as [->|Hy]; [eauto|].
  destruct (Hpl _ _ _ Hb Hy) as (hv' & Hh' & Hm). exists hv'. split; [done|]. lia.
Qed.

(** The load-factor test is the comparison of [size() + 1] with
    [bucket_count()]. *)
Lemma load_factor_exceeded_iff (t : hash_set) :
  bucket_count t ≠ 0 →
  load_factor_exceeded t = true ↔ bucket_count t < m_n_elements t + 1.
Proof.
  intros Hbc. unfold load_factor_exceeded, get_max_load_factor.
  assert (∀ a b : Z, (0 < b)%Z → (1 < inject_Z a / inject_Z b)%Q ↔ (b < a)%Z) as Hq.
  { intros a b Hb. destruct b as [|p|p]; [lia| |lia].
    unfold Qlt, Qdiv, Qmult, Qinv, inject_Z. simpl. lia. }
  specialize (Hq (Z.of_N (m_n_elements t + 1)) (Z.of_N (bucket_count t))).
  destruct (Qlt_le_dec 1 _) as [Hlt|Hle].
  - apply Hq in Hlt; [|lia]. split; [lia|done].
  - split; [done|]. intros Hlt. exfalso. apply Qle_not_lt in Hle. apply Hle.
    apply Hq; lia.
Qed.

(** [finish_insert] throws only what the copy of the key throws, and then
    leaves everything as it is. *)
Lemma finish_insert_throws (k : T) (idx : N) (s s' : hash_set * heap) (e : exn) :
  finish_insert k idx s = Throws e s' → s' = s ∧ T_copy_throws k = Some e.
Proof.
  unfold HashSet.finish_insert, mbind, M_bind, mret, M_ret, modify_this.
  destruct (_unique_insert (T_copy_throws k) k idx s) as [it s1|e1 s1|] eqn:Hu; [done| |done].
  intros [= <- <-]. by apply _unique_insert_throws in Hu.
Qed.

Lemma finish_insert_returns_copy (k : T) (idx : N) (s s' : hash_set * heap)
    (r : iterator * bool) :
  finish_insert k idx s = Returns r s' → T_copy_throws k = None.
Proof.
  unfold HashSet.finish_insert, mbind, M_bind, mret, M_ret, modify_this.
  destruct (_unique_insert (T_copy_throws k) k idx s) as [it s1|e1 s1|] eqn:Hu; [|done..].
  intros _. by apply _unique_insert_inv in Hu as (b & ? & _).
Qed.

Lemma insert_throws_nonzero (k : T) (t : hash_set) (h : heap) (e : exn) (s' : hash_set * heap) :
  bucket_count t ≠ 0 → insert k (t, h) = Throws e s' →
  s' = (t, h) ∨
  (s'.1 = cleared ∧ ∃ x, x ∈ elements t ∧ m_hasher x = inl e) ∨
  (load_factor_exceeded t = true ∧ T_copy_throws k = Some e ∧
   _increase_size (t, h) = Returns () s').
Proof.
  intros Hbc. rewrite (insert_unfold k t h Hbc).
  destruct (m_hasher k) as [e'|hv] eqn:Hk; [intros [= <- <-]; by left|]. cbn zeta.
  destruct (m_container t !! N.to_nat (hv mod bucket_count t)) as [b|]; [|done].
  destruct (find_in_list (hv mod bucket_count t) k b) as [p|]; [done|].
  case_bool_decide; [intros [= <- <-]; by left|].
  destruct (load_factor_exceeded t).
  - destruct (_increase_size (t, h)) as [[] s2|e2 s2|] eqn:Hinc; [| |done].
    + destruct (_bucket k s2) as [idx2 s3|e3 s3|] eqn:Hb2; [| |done].
      * apply _bucket_inv in Hb2 as (-> & _).
        intros Hf. apply finish_insert_throws in Hf as [-> Hc]. right; right. done.
      * apply _bucket_throws in Hb2 as [_ Hb2]. congruence.
    + intros [= <- <-]. apply increase_size_throws_inv in Hinc as [[-> _]|Hc];
        [by left|right; by left].
  - intros Hf. apply finish_insert_throws in Hf as [-> _]. by left.
Qed.

Lemma insert_throws_inv (k : T) (t : hash_set) (h : heap) (e : exn) (s' : hash_set * heap) :
  (bucket_count t = 0 → m_n_elements t = 0) →
  insert k (t, h) = Throws e s' →
  s' = (t, h) ∨
  s'.1 = cleared ∨
  (bucket_count t = 0 ∧ s' = (one_bucket t, h)) ∨
  (bucket_count t ≠ 0 ∧ load_factor_exceeded t = true ∧ T_copy_throws k = Some e ∧
   _increase_size (t, h) = Returns () s').
Proof.
  intros Hz0. destruct (decide (bucket_count t = 0)) as [Hz|Hnz].
  - rewrite (insert_zero_buckets k t h Hz). intros Hi.
    apply insert_throws_nonzero in Hi as [->|[[Hc _]|(Hlf & _)]].
    + right; right; left. done.
    + right; left. done.
    + apply load_factor_exceeded_iff in Hlf; [|by unfold bucket_count].
      rewrite (Hz0 Hz) in Hlf. unfold bucket_count in Hlf. simpl in Hlf. lia.
    + by unfold bucket_count.
  - intros Hi. apply insert_throws_nonzero in Hi as [->|[[Hc _]|(Hlf & Hc & Hinc)]].
    + by left.
    + right; left. done.
    + right; right; right. done.
    + done.
Qed.

Lemma table_inv_no_elements (t : hash_set) :
  elements t = [] → m_n_elements t = 0 → bucket_count t ∈ table_sizes → table_inv t.
Proof.
  intros Hel Hn Hbc. split; [|by rewrite Hel, Hn|done|by rewrite Hel].
  intros i b x Hi Hx.
  assert (x ∈ elements t) as Hin by (apply elem_of_elements; eauto).
  rewrite Hel in Hin. by apply elem_of_nil in Hin.
Qed.

Lemma table_sizes_0 : 0 ∈ table_sizes.
Proof. apply list_elem_of_lookup. exists 0%nat. apply table_sizes_first. Qed.

Lemma table_sizes_1 : 1 ∈ table_sizes.
Proof. apply list_elem_of_lookup. exists 1%nat. apply table_sizes_first. Qed.

(** ** The growth of the table in [insert] *)

Lemma placed_hashable (t : hash_set) : placed t → hashable (elements t).
Proof.
  intros Hpl x Hx. apply elem_of_elements in Hx as (i & b & Hi & Hx).
  destruct (Hpl i b x Hi Hx) as (hv & Hh & _). eauto.
Qed.

Lemma _find_end_inv (k : T) (idx : N) (t : hash_set) (h : heap) :
  idx < bucket_count t → _find k idx (t, h) = Returns (end_ t) (t, h) →
  ∃ b, m_container t !! N.to_nat idx = Some b ∧ find_in_list idx k b = None.
Proof.
  intros Hlt. unfold HashSet._find. cbn [fst].
  destruct (m_container t !! N.to_nat idx) as [b|]; [|done].
  destruct (find_in_list idx k b) as [p|] eqn:Hf; [|intros _; by exists b].
  unfold end_. intros [= Heq _]. lia.
Qed.

Lemma finish_insert_inserted (k : T) (hv : N) (t0 t : hash_set) (h : heap) :
  bucket_count t ≠ 0 → m_hasher k = inr hv → T_copy_throws k = None →
  elements t ≡ₚ elements t0 → size t = size t0 →
  ∃ r t' h', finish_insert k (hv mod bucket_count t) (t, h) = Returns r (t', h') ∧
             inserted k t0 r t' (bucket_count t).
Proof.
  intros Hbc Hk Hcopy Hel Hsz.
  destruct (finish_insert_returns k (hv mod bucket_count t) t h) as
    (it & t' & h' & Hf & Hidx & Hd & Hbc' & Hn & Hp & _); [by apply N.mod_lt|done|].
  exists (it, true), t', h'. split; [done|].
  unfold HashSet.inserted. cbn [fst snd]. unfold size in *.
  repeat split; [done|eauto|done|by rewrite Hp, Hel|congruence].
Qed.

(** ** Buckets set by [_erase] *)

Lemma set_bucket_lookup idx (b : bucket_list) (t : hash_set) :
  idx < bucket_count t → m_container (set_bucket idx b t) !! N.to_nat idx = Some b.
Proof.
  intros Hlt. unfold set_bucket. cbn [m_container].
  apply list_lookup_insert_eq. unfold bucket_count in Hlt. lia.
Qed.

Lemma set_bucket_lookup_ne idx (b : bucket_list) (t : hash_set) (j : nat) :
  j ≠ N.to_nat idx → m_container (set_bucket idx b t) !! j = m_container t !! j.
Proof. intros Hne. unfold set_bucket. cbn [m_container]. by apply list_lookup_insert_ne. Qed.

Lemma lookup_bucket_Some (t : hash_set) (idx : N) (b : bucket_list) :
  m_container t !! N.to_nat idx = Some b → idx < bucket_count t.
Proof. intros Hb. apply lookup_lt_Some in Hb. unfold bucket_count. lia. Qed.

(** ** The search of a bucket *)

Lemma payload_in_rest_elem (a : addr) (rest : list (addr * T)) (y : T) :
  payload_in_rest a rest = Some y → a ∈ rest.*1 ∧ y ∈ rest.*2.
Proof.
  induction rest as [|[a' x'] rest IH]; simpl; [done|].
  case_bool_decide as Ha.
  - intros [= ->]. subst a'. split; left.
  - intros Hp. destruct (IH Hp). split; by right.
Qed.

Lemma find_in_rest_Some (k : T) (rest : list (addr * T)) (p : node_ptr) :
  NoDup rest.*1 → find_in_rest k rest = Some p →
  ∃ a y, p = heap_node a ∧ payload_in_rest a rest = Some y ∧ m_key_equal y k = true.
Proof.
  induction rest as [|[a' x'] rest IH]; simpl; [done|].
  intros Hnd. apply NoDup_cons in Hnd as [Hnotin Hnd].
  destruct (m_key_equal x' k) eqn:Heq.
  - intros [= <-]. exists a', x'. by rewrite bool_decide_eq_true_2.
  - intros Hf. destruct (IH Hnd Hf) as (a & y & -> & Hp & Hy).
    exists a, y. split; [done|]. split; [|done].
    rewrite bool_decide_eq_false_2; [done|].
    intros ->. by apply payload_in_rest_elem in Hp as [? _].
Qed.

Lemma find_in_rest_None (k : T) (rest : list (addr * T)) :
  find_in_rest k rest = None ↔ ∀ y, y ∈ rest.*2 → m_key_equal y k = false.
Proof.
  induction rest as [|[a' x'] rest IH]; simpl.
  - split; [|done]. intros _ y Hy. by apply elem_of_nil in Hy.
  - destruct (m_key_equal x' k) eqn:Heq.
    + split; [done|]. intros Hall. rewrite Hall in Heq; [done|left].
    + rewrite IH. split.
      * intros Hall y Hy. apply elem_of_cons in Hy as [->|Hy]; [done|by apply Hall].
      * intros Hall y Hy. apply Hall. by right.
Qed.

Lemma find_in_list_None idx (k : T) (b : bucket_list) :
  find_in_list idx k b = None ↔ ∀ y, y ∈ list_elements b → m_key_equal y k = false.
Proof.
  destruct b as [|x rest]; simpl.
  - split; [|done]. intros _ y Hy. by apply elem_of_nil in Hy.
  - destruct (m_key_equal x k) eqn:Heq.
    + split; [done|]. intros Hall. rewrite Hall in Heq; [done|left].
    + rewrite find_in_rest_None. split.
      * intros Hall y Hy. apply elem_of_cons in Hy as [->|Hy]; [done|by apply Hall].
      * intros Hall y Hy. apply Hall. by right.
Qed.

Lemma find_in_list_Some idx (k : T) (b : bucket_list) (p : node_ptr) (t : hash_set) :
  NoDup (list_heap_nodes b) → m_container t !! N.to_nat idx = Some b →
  find_in_list idx k b = Some p →
  ∃ y, dereference t {| m_idx := idx; m_it := p |} = Some y ∧
       y ∈ list_elements b ∧ m_key_equal y k = true.
Proof.
  intros Hnd Hb. unfold dereference. cbn [m_idx m_it]. rewrite Hb.
  destruct b as [|x rest]; simpl; [done|].
  destruct (m_key_equal x k) eqn:Heq.
  - intros [= <-]. exists x. rewrite bool_decide_eq_true_2 by done.
    split; [done|]. split; [left|done].
  - intros Hf. destruct (find_in_rest_Some k rest p Hnd Hf) as (a & y & -> & Hp & Hy).
    exists y. split; [done|]. split; [|done].
    right. by apply payload_in_rest_elem in Hp as [_ ?].
Qed.

(** ** Sequences of [insert] calls *)

Lemma existsb_elem_of (f : T → bool) (l : list T) :
  existsb f l = true ↔ ∃ x, x ∈ l ∧ f x = true.
Proof.
  rewrite existsb_exists. split; intros (x & Hx & Hf); exists x;
    (split; [by apply list_elem_of_In|done]).
Qed.

Lemma existsb_false_elem_of (f : T → bool) (l : list T) :
  existsb f l = false ↔ ∀ x, x ∈ l → f x = false.
Proof.
  destruct (existsb f l) eqn:He.
  - apply existsb_elem_of in He as (x & Hx & Hf). split; [done|].
    intros Hall. rewrite Hall in Hf; done.
  - split; [|done]. intros _ x Hx. destruct (f x) eqn:Hf; [|done].
    assert (existsb f l = true) by (apply existsb_elem_of; eauto). congruence.
Qed.

Lemma existsb_perm (f : T → bool) (l l' : list T) :
  l ≡ₚ l' → existsb f l = existsb f l'.
Proof.
  intros Hp. destruct (existsb f l') eqn:He.
  - apply existsb_elem_of in He as (x & Hx & Hf). apply existsb_elem_of.
    exists x. by rewrite Hp.
  - apply existsb_false_elem_of. intros x Hx. rewrite Hp in Hx.
    by eapply existsb_false_elem_of in He.
Qed.

Lemma distinct_step_perm (acc acc' : list T) (k : T) :
  acc ≡ₚ acc' → distinct_step acc k ≡ₚ distinct_step acc' k.
Proof.
  intros Hp. unfold HashSet.distinct_step. rewrite (existsb_perm _ _ _ Hp).
  destruct (existsb _ acc'); [done|]. by rewrite Hp.
Qed.

Lemma foldl_distinct_step_perm (ks acc acc' : list T) :
  acc ≡ₚ acc' → foldl distinct_step acc ks ≡ₚ foldl distinct_step acc' ks.
Proof.
  revert acc acc'. induction ks as [|k ks IH]; intros acc acc' Hp; [done|].
  simpl. apply IH. by apply distinct_step_perm.
Qed.

Lemma unique_perm (xs ys : list T) : xs ≡ₚ ys → unique xs → unique ys.
Proof.
  induction 1 as [|x xs ys Hp IH|x y xs|xs ys zs _ IH1 _ IH2]; simpl.
  - done.
  - intros [Hx Hu]. split; [|by apply IH]. intros y Hy. apply Hx. by rewrite Hp.
  - intros [Hy [Hx Hu]]. split; [|split; [|done]].
    + intros z Hz. apply elem_of_cons in Hz as [->|Hz]; [|by apply Hx].
      destruct (Hy x) as [? ?]; [left|done].
    + intros z Hz. apply Hy. by right.
  - auto.
Qed.

Lemma unique_snoc (xs : list T) (k : T) :
  unique xs → (∀ x, x ∈ xs → m_key_equal x k = false ∧ m_key_equal k x = false) →
  unique (xs ++ [k]).
Proof.
  intros Hu Hk. apply (unique_perm (k :: xs)).
  - by rewrite Permutation_app_comm.
  - simpl. split; [|done]. intros y Hy. destruct (Hk y Hy). done.
Qed.

Section functors.
(** The requirements on the functors: the equality predicate is symmetric
    and keys that compare equal hash alike. *)
Hypothesis key_equal_sym : ∀ x y, m_key_equal x y = m_key_equal y x.
Hypothesis hash_compat : ∀ x y, m_key_equal x y = true → m_hasher x = m_hasher y.

Lemma unique_foldl_distinct_step (ks acc : list T) :
  unique acc → unique (foldl distinct_step acc ks).
Proof.
  revert acc. induction ks as [|k ks IH]; intros acc Hu; [done|].
  simpl. apply IH. unfold HashSet.distinct_step.
  destruct (existsb _ acc) eqn:He; [done|].
  apply unique_snoc; [done|]. intros x Hx.
  assert (m_key_equal x k = false) as Hxk.
  { by apply (proj1 (existsb_false_elem_of _ _) He). }
  split; [done|]. by rewrite key_equal_sym.
Qed.

(** A key absent from its destination bucket is absent from the table. *)
Lemma absent_from_table (k : T) (hv : N) (t : hash_set) (b : bucket_list) :
  placed t → m_hasher k = inr hv →
  m_container t !! N.to_nat (hv mod bucket_count t) = Some b →
  find_in_list (hv mod bucket_count t) k b = None →
  existsb (λ x, m_key_equal x k) (elements t) = false.
Proof.
  intros Hpl Hk Hb Hnone. apply existsb_false_elem_of. intros x Hx.
  destruct (m_key_equal x k) eqn:Heq; [|done].
  apply elem_of_elements in Hx as (i & c & Hi & Hx).
  destruct (Hpl i c x Hi Hx) as (hv' & Hh & Hm).
  rewrite (hash_compat x k Heq), Hk in Hh. injection Hh as <-.
  assert (i = N.to_nat (hv mod bucket_count t)) as -> by lia.
  rewrite Hb in Hi. injection Hi as <-.
  rewrite (proj1 (find_in_list_None _ k b) Hnone x Hx) in Heq. done.
Qed.

Lemma present_in_table idx (k : T) (t : hash_set) (b : bucket_list) (p : node_ptr) :
  m_container t !! N.to_nat idx = Some b → find_in_list idx k b = Some p →
  existsb (λ x, m_key_equal x k) (elements t) = true.
Proof.
  intros Hb Hf. destruct (existsb _ (elements t)) eqn:He; [done|].
  assert (find_in_list idx k b = None) as Hn; [|congruence].
  apply find_in_list_None. intros y Hy.
  apply (proj1 (existsb_false_elem_of _ _) He). apply elem_of_elements. eauto.
Qed.

(** What a returning [insert] does to the elements, the count and the
    placement. *)
Lemma insert_returns_inv (k : T) (t t' : hash_set) (h h' : heap) (r : iterator * bool) :
  placed t → insert k (t, h) = Returns r (t', h') →
  placed t' ∧
  (r.2 = false ∧ t' = t ∧ h' = h ∧
   existsb (λ x, m_key_equal x k) (elements t) = true
   ∨
   r.2 = true ∧ existsb (λ x, m_key_equal x k) (elements t) = false ∧
   elements t' ≡ₚ k :: elements t ∧ m_n_elements t' = m_n_elements t + 1).
Proof.
  assert (∀ t, bucket_count t ≠ 0 → placed t → insert k (t, h) = Returns r (t', h') →
    placed t' ∧
    (r.2 = false ∧ t' = t ∧ h' = h ∧
     existsb (λ x, m_key_equal x k) (elements t) = true
     ∨
     r.2 = true ∧ existsb (λ x, m_key_equal x k) (elements t) = false ∧
     elements t' ≡ₚ k :: elements t ∧ m_n_elements t' = m_n_elements t + 1)) as Hnz.
  { clear t. intros t Hbc Hpl. rewrite (insert_unfold k t h Hbc).
    destruct (m_hasher k) as [e|hv] eqn:Hk; [done|]. cbn zeta.
    destruct (m_container t !! N.to_nat (hv mod bucket_count t)) as [b|] eqn:Hb; [|done].
    destruct (find_in_list (hv mod bucket_count t) k b) as [p|] eqn:Hf.
    - intros [= <- <- <-]. split; [done|]. left. cbn [snd].
      repeat split; try done. by eapply present_in_table.
    - pose proof (absent_from_table k hv t b Hpl Hk Hb Hf) as Habs.
      case_bool_decide; [done|].
      destruct (load_factor_exceeded t).
      + destruct (_increase_size (t, h)) as [u [t2 h2]| |] eqn:Hinc; [|done..].
        apply increase_size_returns_inv in Hinc as (n & _ & Hr).
        apply rehash_returns_inv in Hr as (_ & Hn2 & Hel2 & Hpl2). cbn [fst] in *.
        destruct (_bucket k (t2, h2)) as [idx2 s3| |] eqn:Hb2; [|done..].
        apply _bucket_inv in Hb2 as (-> & Hbc2 & Hlt2 & hv2 & Hk2 & ->). cbn [fst] in *.
        intros Hret. pose proof (finish_insert_returns_copy _ _ _ _ _ Hret) as Hcopy.
        revert Hret.
        destruct (finish_insert_returns k (hv2 mod bucket_count t2) t2 h2 Hlt2 Hcopy)
          as (it & t3 & h3 & Hfin & _ & _ & _ & Hn3 & Hel3 & Hpl3).
        rewrite Hfin. intros [= <- <- <-]. split; [apply Hpl3; eauto|].
        right. cbn [snd]. split; [done|]. split; [done|].
        split; [by rewrite Hel3, Hel2|congruence].
      + intros Hret. pose proof (finish_insert_returns_copy _ _ _ _ _ Hret) as Hcopy.
        revert Hret.
        destruct (finish_insert_returns k (hv mod bucket_count t) t h)
          as (it & t3 & h3 & Hfin & _ & _ & _ & Hn3 & Hel3 & Hpl3); [by apply N.mod_lt|done|].
        rewrite Hfin. intros [= <- <- <-]. split; [apply Hpl3; eauto|].
        right. cbn [snd]. done. }
  intros Hpl. destruct (decide (bucket_count t = 0)) as [Hz|Hbc]; [|by apply Hnz].
  rewrite (insert_zero_buckets k t h Hz). intros Hi.
  assert (elements t = []) as Hel.
  { unfold elements. by rewrite (bucket_count_zero t Hz). }
  apply Hnz in Hi; [|by unfold bucket_count|].
  - destruct Hi as [Hpl' [(_ & _ & _ & He)|He]]; [done|]. split; [done|]. right.
    by rewrite Hel.
  - intros i b x Hi' Hx. destruct i as [|i]; [|done]. injection Hi' as <-.
    by apply elem_of_nil in Hx.
Qed.

Lemma insert_all_cons (k : T) (ks : list T) (s : hash_set * heap) :
  insert_all (k :: ks) s =
  match insert k s with
  | Returns _ s1 => insert_all ks s1
  | Throws e s1 => Throws e s1
  | Undefined => Undefined
  end.
Proof. reflexivity. Qed.

Lemma insert_all_inv (ks acc : list T) (t t' : hash_set) (h h' : heap) :
  placed t → elements t ≡ₚ acc → m_n_elements t = N.of_nat (length acc) →
  insert_all ks (t, h) = Returns () (t', h') →
  placed t' ∧ elements t' ≡ₚ foldl distinct_step acc ks ∧
  m_n_elements t' = N.of_nat (length (foldl distinct_step acc ks)).
Proof.
  revert acc t h. induction ks as [|k ks IH]; intros acc t h Hpl Hel Hn.
  - intros [= <- <-]. done.
  - rewrite insert_all_cons.
    destruct (insert k (t, h)) as [r [t1 h1]| |] eqn:Hi; [|done..].
    apply insert_returns_inv in Hi as [Hpl1 [(_ & -> & -> & He)|(_ & He & Hel1 & Hn1)]]; [| |done].
    + intros Hall. simpl. unfold HashSet.distinct_step at 2 4.
      rewrite <- (existsb_perm _ _ _ Hel), He. by eapply IH.
    + intros Hall. simpl. unfold HashSet.distinct_step at 2 4.
      rewrite <- (existsb_perm _ _ _ Hel), He.
      eapply IH; [done| |..|exact Hall].
      * rewrite Hel1, Hel. by rewrite Permutation_app_comm.
      * rewrite Hn1, Hn, length_app. simpl. lia.
Qed.

End functors.

(** ** The invariants across the growth step *)

Lemma table_inv_perm (t t' : hash_set) :
  table_inv t → placed t' → elements t' ≡ₚ elements t →
  m_n_elements t' = m_n_elements t → bucket_count t' ∈ table_sizes → table_inv t'.
Proof.
  intros [Hpl Hn Hc Hu] Hpl' Hel Hn' Hc'. split; [done| |done|].
  - by rewrite Hn', Hn, Hel.
  - apply (unique_perm (elements t)); [done|done].
Qed.

Lemma increase_size_table_inv (t t' : hash_set) (h h' : heap) :
  _increase_size (t, h) = Returns () (t', h') →
  elements t' ≡ₚ elements t ∧ size t' = size t ∧ (table_inv t → table_inv t').
Proof.
  intros Hinc. apply increase_size_returns_inv in Hinc as (n & _ & Hr).
  apply rehash_returns_inv in Hr as ((Hin & _) & Hn & Hel & Hpl). cbn [fst] in *.
  split; [done|]. split; [done|]. intros Hinv. by apply (table_inv_perm t).
Qed.

(** ** The free store *)

Lemma elem_of_heap_nodes (t : hash_set) (a : addr) :
  a ∈ heap_nodes t ↔ ∃ i b, m_container t !! i = Some b ∧ a ∈ list_heap_nodes b.
Proof.
  unfold heap_nodes. rewrite list_elem_of_bind. split.
  - intros (b & Ha & Hb). apply list_elem_of_lookup in Hb as [i Hi]. eauto.
  - intros (i & b & Hi & Ha). exists b. split; [done|].
    apply list_elem_of_lookup. eauto.
Qed.

Lemma NoDup_bind_lookup {A B} (f : A → list B) (l : list A) (i : nat) (a : A) :
  l !! i = Some a → NoDup (l ≫= f) → NoDup (f a).
Proof.
  intros Hi. rewrite <- (take_drop_middle l i a Hi), bind_app, bind_cons.
  intros Hnd. apply NoDup_app in Hnd as (_ & _ & Hnd).
  by apply NoDup_app in Hnd as (Hnd & _).
Qed.

Lemma heap_wf_bucket (t : hash_set) (h : heap) (i : nat) (b : bucket_list) :
  heap_wf (t, h) → m_container t !! i = Some b → NoDup (list_heap_nodes b).
Proof. intros [Hnd _] Hi. by eapply NoDup_bind_lookup. Qed.

Lemma heap_wf_no_nodes (t : hash_set) (h : heap) : heap_nodes t = [] → heap_wf (t, h).
Proof.
  intros Hn. split; cbn [fst snd]; rewrite Hn; [apply NoDup_nil_2|].
  intros a Ha. by apply elem_of_nil in Ha.
Qed.

(** [_unique_insert] links no node or a newly allocated one. *)
Lemma _unique_insert_heap (c : option exn) (k : T) (idx : N) (s s' : hash_set * heap)
    (it : iterator) :
  _unique_insert c k idx s = Returns it s' →
  (heap_nodes s'.1 = heap_nodes s.1 ∧ s'.2 = s.2) ∨
  (heap_nodes s'.1 ≡ₚ fresh s.2 :: heap_nodes s.1 ∧ s'.2 = {[fresh s.2]} ∪ s.2).
Proof.
  intros Hu. apply _unique_insert_inv in Hu as (b & _ & Hb & -> & -> & _).
  unfold heap_nodes, set_bucket. destruct b as [|x rest]; cbn [list_insert fst snd m_container].
  - left. split; [|done]. by eapply bind_insert_same.
  - right. split; [|done]. by eapply bind_insert.
Qed.

(** The nodes of the table stay allocated, linked once and outside the
    set [old] of addresses that were allocated beforehand. *)
Lemma _unique_insert_owns (old : gset addr) (c : option exn) (k : T) (idx : N)
    (s s' : hash_set * heap) (it : iterator) :
  _unique_insert c k idx s = Returns it s' →
  old ⊆ s.2 → heap_wf s → (∀ a, a ∈ heap_nodes s.1 → a ∉ old) →
  old ⊆ s'.2 ∧ heap_wf s' ∧ (∀ a, a ∈ heap_nodes s'.1 → a ∉ old).
Proof.
  intros Hu Hold [Hnd Hal] Hout.
  apply _unique_insert_heap in Hu as [[Hn Hh]|[Hn Hh]].
  - unfold heap_wf. rewrite Hn, Hh. done.
  - pose proof (is_fresh s.2) as Hfr. unfold heap_wf. rewrite Hh.
    split; [by apply union_subseteq_r'|]. split; [split|].
    + rewrite Hn. apply NoDup_cons. split; [|done]. intros Hin. by apply Hfr, Hal.
    + intros a Ha. rewrite Hn in Ha. apply elem_of_union.
      apply elem_of_cons in Ha as [->|Ha]; [left; by apply elem_of_singleton|right; by apply Hal].
    + intros a Ha. rewrite Hn in Ha.
      apply elem_of_cons in Ha as [->|Ha]; [|by apply Hout].
      intros Hin. by apply Hfr, Hold.
Qed.

Lemma rehash_loop_owns (old : gset addr) (xs : list T) (s s' : hash_set * heap) (u : unit) :
  rehash_loop xs s = Returns u s' →
  old ⊆ s.2 → heap_wf s → (∀ a, a ∈ heap_nodes s.1 → a ∉ old) →
  old ⊆ s'.2 ∧ heap_wf s' ∧ (∀ a, a ∈ heap_nodes s'.1 → a ∉ old).
Proof.
  revert s. induction xs as [|x xs IH]; intros s.
  - intros Hr. injection Hr as _ <-. done.
  - rewrite rehash_loop_cons.
    destruct (_bucket x s) as [idx s1| |] eqn:Hb; [|done..].
    apply _bucket_inv in Hb as (-> & _).
    destruct (_unique_insert None x idx s) as [it s2| |] eqn:Hu; [|done..].
    intros Hl Hold Hwf Hout.
    destruct (_unique_insert_owns old _ _ _ _ _ _ Hu Hold Hwf Hout) as (? & ? & ?).
    by apply (IH s2).
Qed.

Lemma rehash_heap_wf (n : N) (s s' : hash_set * heap) (u : unit) :
  rehash n s = Returns u s' → heap_wf s → heap_wf s'.
Proof.
  unfold HashSet.rehash, HashSet.rehash_run.
  destruct (hash_set_ctor n) as [e|nt] eqn:Hc; [done|].
  apply hash_set_ctor_inr in Hc as (_ & _ & _ & Hnt & _).
  destruct (rehash_loop (elements s.1) (nt, s.2)) as [u' [nt' h']|e [nt' h']|] eqn:Hl;
    [|done..].
  cbn [fst snd clear_state]. intros [= <- <-] [Hnd Hal].
  apply (rehash_loop_owns (list_to_set (heap_nodes s.1))) in Hl as (_ & [Hnd' Hal'] & Hout).
  - split; [done|]. cbn [fst snd] in *. intros a Ha.
    apply elem_of_difference. split; [by apply Hal'|by apply Hout].
  - cbn [snd]. intros a Ha. apply elem_of_list_to_set in Ha. by apply Hal.
  - by apply heap_wf_no_nodes.
  - cbn [fst]. rewrite Hnt. intros a Ha. by apply elem_of_nil in Ha.
Qed.

Lemma cleared_heap_wf (h : heap) : heap_wf (@cleared T, h).
Proof. by apply heap_wf_no_nodes. Qed.

Lemma increase_size_heap_wf (s s' : hash_set * heap) (u : unit) :
  _increase_size s = Returns u s' → heap_wf s → heap_wf s'.
Proof.
  intros Hinc Hwf. apply increase_size_returns_inv in Hinc as (n & _ & Hr).
  by apply (rehash_heap_wf _ _ _ _ Hr).
Qed.

Lemma finish_insert_heap_wf (k : T) (idx : N) (s s' : hash_set * heap) (r : iterator * bool) :
  finish_insert k idx s = Returns r s' → heap_wf s → heap_wf s'.
Proof.
  unfold HashSet.finish_insert, mbind, M_bind, mret, M_ret, modify_this.
  destruct (_unique_insert (T_copy_throws k) k idx s) as [it s1|e1 s1|] eqn:Hu; [|done..].
  intros [= <- <-] Hwf.
  destruct (_unique_insert_owns ∅ _ _ _ _ _ _ Hu) as (_ & Hwf1 & _); [set_solver|done|set_solver|].
  exact Hwf1.
Qed.

(** [insert] keeps the table and the free store in agreement, whether it
    returns or throws. *)
Lemma insert_heap_wf (k : T) (t : hash_set) (h : heap) (s' : hash_set * heap) :
  heap_wf (t, h) →
  (∃ r, insert k (t, h) = Returns r s') ∨ (∃ e, insert k (t, h) = Throws e s') →
  heap_wf s'.
Proof.
  assert (∀ t, bucket_count t ≠ 0 → heap_wf (t, h) →
    (∃ r, insert k (t, h) = Returns r s') ∨ (∃ e, insert k (t, h) = Throws e s') →
    heap_wf s') as Hnz.
  { clear t. intros t Hbc Hwf. rewrite (insert_unfold k t h Hbc).
    destruct (m_hasher k) as [e|hv] eqn:Hk; [intros [[r [=]]|[e' [= _ <-]]]; done|]. cbn zeta.
    destruct (m_container t !! N.to_nat (hv mod bucket_count t)) as [b|] eqn:Hb;
      [|intros [[r [=]]|[e' [=]]]].
    destruct (find_in_list (hv mod bucket_count t) k b) as [p|] eqn:Hf;
      [intros [[r [= _ <-]]|[e' [=]]]; done|].
    case_bool_decide; [intros [[r [=]]|[e' [= _ <-]]]; done|].
    assert (∀ idx s, heap_wf s →
      (∃ r, finish_insert k idx s = Returns r s') ∨ (∃ e, finish_insert k idx s = Throws e s') →
      heap_wf s') as Hfin.
    { intros idx s Hs [[r Hr]|[e He]]; [by eapply finish_insert_heap_wf|].
      by apply finish_insert_throws in He as [-> _]. }
    destruct (load_factor_exceeded t); [|by apply Hfin].
    destruct (_increase_size (t, h)) as [u s2|e2 s2|] eqn:Hinc.
    - apply increase_size_heap_wf in Hinc; [|done].
      destruct (_bucket k s2) as [idx2 s3|e3 s3|] eqn:Hb2.
      + apply _bucket_inv in Hb2 as (-> & _). by apply Hfin.
      + apply _bucket_throws in Hb2 as [-> _]. intros [[r [=]]|[e' [= _ <-]]]; done.
      + intros [[r [=]]|[e' [=]]].
    - intros [[r [=]]|[e' [= _ <-]]].
      apply increase_size_throws_inv in Hinc as [[-> _]|[Hc _]]; [done|].
      destruct s2 as [t2 h2]. cbn [fst] in Hc. subst t2. apply cleared_heap_wf.
    - intros [[r [=]]|[e' [=]]]. }
  intros Hwf. destruct (decide (bucket_count t = 0)) as [Hz|Hbc]; [|by apply Hnz].
  rewrite (insert_zero_buckets k t h Hz). apply Hnz; [by unfold bucket_count|].
  by apply heap_wf_no_nodes.
Qed.

(** ** Iteration *)

Lemma first_nonempty_spec (bs : list bucket_list) (idx : N) :
  (first_nonempty idx bs = idx + N.of_nat (length bs) ∧ bs ≫= list_elements = []) ∨
  (∃ (n : nat) (x : T) (rest : list (addr * T)),
     first_nonempty idx bs = idx + N.of_nat n ∧ bs !! n = Some (nodes x rest) ∧
     bs ≫= list_elements = x :: rest.*2 ++ (drop (S n) bs ≫= list_elements)).
Proof.
  revert idx. induction bs as [|b bs IH]; intros idx.
  - left. split; [cbn; lia|done].
  - destruct b as [|x rest].
    + cbn [first_nonempty list_empty]. rewrite bind_cons. cbn [list_elements app].
      destruct (IH (idx + 1)) as [[Hf Hel]|(n & x & rest & Hf & Hn & Hel)].
      * left. split; [rewrite Hf; cbn [length]; lia|done].
      * right. exists (S n), x, rest. split; [rewrite Hf; lia|]. split; [done|]. done.
    + right. exists 0%nat, x, rest. cbn [first_nonempty list_empty].
      split; [lia|]. split; [done|]. by rewrite bind_cons.
Qed.

Lemma payload_in_rest_app (a : addr) (y : T) (pre post : list (addr * T)) :
  a ∉ pre.*1 → payload_in_rest a (pre ++ (a, y) :: post) = Some y.
Proof.
  induction pre as [|[a' x'] pre IH]; cbn [payload_in_rest app fmap list_fmap fst].
  - intros _. by rewrite bool_decide_eq_true_2.
  - intros Hn. apply not_elem_of_cons in Hn as [Hne Hn].
    rewrite bool_decide_eq_false_2 by done. by apply IH.
Qed.

Lemma next_in_rest_app (a : addr) (y : T) (pre post : list (addr * T)) :
  a ∉ pre.*1 → next_in_rest a (pre ++ (a, y) :: post) = Some (rest_begin post).
Proof.
  induction pre as [|[a' x'] pre IH]; cbn [next_in_rest app fmap list_fmap fst].
  - intros _. by rewrite bool_decide_eq_true_2.
  - intros Hn. apply not_elem_of_cons in Hn as [Hne Hn].
    rewrite bool_decide_eq_false_2 by done. by apply IH.
Qed.

Lemma rest_begin_position (t : hash_set) (idx : N) (post : list (addr * T)) :
  (if bool_decide (rest_begin post = terminator)
   then Some (iterator_at t (first_nonempty (idx + 1)
                               (drop (N.to_nat (idx + 1)) (m_container t))))
   else Some {| m_idx := idx; m_it := rest_begin post |}) = Some (position t idx post).
Proof. by destruct post as [|[a y] post]. Qed.

(** One step from the embedded node of a bucket. *)
Lemma step_embedded (t : hash_set) (idx : N) (x : T) (rest : list (addr * T)) :
  m_container t !! N.to_nat idx = Some (nodes x rest) →
  dereference t {| m_idx := idx; m_it := m_node_of idx |} = Some x ∧
  increment t {| m_idx := idx; m_it := m_node_of idx |} = Some (position t idx rest).
Proof.
  intros Hb. unfold dereference, increment, node_next. cbn [m_idx m_it]. rewrite Hb.
  rewrite bool_decide_eq_true_2 by done. split; [done|].
  cbn [list_end list_empty]. apply rest_begin_position.
Qed.

(** One step from a heap node of a bucket. *)
Lemma step_heap_node (t : hash_set) (idx : N) (x y : T) (a : addr) (pre post : list (addr * T)) :
  m_container t !! N.to_nat idx = Some (nodes x (pre ++ (a, y) :: post)) →
  a ∉ pre.*1 →
  dereference t {| m_idx := idx; m_it := heap_node a |} = Some y ∧
  increment t {| m_idx := idx; m_it := heap_node a |} = Some (position t idx post).
Proof.
  intros Hb Hn. unfold dereference, increment, node_next. cbn [m_idx m_it]. rewrite Hb.
  rewrite payload_in_rest_app, next_in_rest_app by done. split; [done|].
  cbn [list_end list_empty]. apply rest_begin_position.
Qed.

Lemma traverse_step (fuel : nat) (t : hash_set) (it it' : iterator) (x : T) :
  m_it it ≠ nullptr → dereference t it = Some x → increment t it = Some it' →
  traverse (S fuel) t it = (xs ← traverse fuel t it'; Some (x :: xs)).
Proof.
  intros Hne Hd Hi. cbn [traverse].
  rewrite bool_decide_eq_false_2; [by rewrite Hd, Hi|].
  intros ->. by apply Hne.
Qed.

Lemma traverse_end (fuel : nat) (t : hash_set) : traverse fuel t (end_ t) = Some [].
Proof. destruct fuel; cbn [traverse]; by rewrite bool_decide_eq_true_2. Qed.

(** The rest of a bucket from a position in its chain, then the buckets
    after it. *)
Lemma traverse_position (t : hash_set) (idx : N) (x : T) (rest : list (addr * T)) :
  m_container t !! N.to_nat idx = Some (nodes x rest) → NoDup rest.*1 →
  (∀ fuel, (length (elements_from (S (N.to_nat idx)) t) ≤ fuel)%nat →
     traverse fuel t (position t idx []) = Some (elements_from (S (N.to_nat idx)) t)) →
  ∀ (post pre : list (addr * T)) (fuel : nat),
    rest = pre ++ post →
    (length post + length (elements_from (S (N.to_nat idx)) t) ≤ fuel)%nat →
    traverse fuel t (position t idx post) =
    Some (post.*2 ++ elements_from (S (N.to_nat idx)) t).
Proof.
  intros Hb Hnd Hnext. induction post as [|[a y] post IH]; intros pre fuel Hrest Hfuel.
  - by apply Hnext.
  - destruct fuel as [|fuel]; [cbn [length] in Hfuel; lia|].
    subst rest. rewrite fmap_app, fmap_cons in Hnd. cbn [fst] in Hnd.
    pose proof Hnd as Hnd'. apply NoDup_app in Hnd' as (_ & Hdis & _).
    assert (a ∉ pre.*1) as Hn.
    { intros Hin. apply (Hdis a Hin). left. }
    destruct (step_heap_node t idx x y a pre post Hb Hn) as [Hd Hi].
    cbn [position]. rewrite (traverse_step fuel t _ _ y) by done.
    rewrite (IH (pre ++ [(a, y)]) fuel); [done|by rewrite <- app_assoc|].
    cbn [length] in Hfuel. lia.
Qed.

Lemma elements_from_lookup (t : hash_set) (i n : nat) (x : T) (rest : list (addr * T)) :
  drop i (m_container t) !! n = Some (nodes x rest) →
  drop (S n) (drop i (m_container t)) ≫= list_elements = elements_from (S (i + n)) t.
Proof.
  intros _. unfold elements_from. rewrite drop_drop. do 2 f_equal. lia.
Qed.

(** From the first non-empty bucket at or after [i] to the end. *)
Lemma traverse_from (t : hash_set) (h : heap) :
  heap_wf (t, h) →
  ∀ (k i fuel : nat),
    (length (m_container t) = i + k)%nat →
    (length (elements_from i t) ≤ fuel)%nat →
    traverse fuel t (iterator_at t (first_nonempty (N.of_nat i) (drop i (m_container t)))) =
    Some (elements_from i t).
Proof.
  intros Hwf. induction k as [k IH] using lt_wf_ind. intros i fuel Hlen Hfuel.
  unfold elements_from in *.
  destruct (first_nonempty_spec (drop i (m_container t)) (N.of_nat i))
    as [[Hf Hel]|(n & x & rest & Hf & Hn & Hel)].
  - rewrite Hf, Hel, length_drop.
    replace (N.of_nat i + N.of_nat (length (m_container t) - i)) with (bucket_count t)
      by (unfold bucket_count; lia).
    unfold iterator_at. rewrite bool_decide_eq_true_2 by done. apply traverse_end.
  - rewrite Hf. pose proof Hn as Hb. rewrite lookup_drop in Hb.
    pose proof (lookup_lt_Some _ _ _ Hb) as Hlt.
    assert (N.to_nat (N.of_nat i + N.of_nat n) = (i + n)%nat) as Hidx by lia.
    unfold iterator_at. rewrite bool_decide_eq_false_2 by (unfold bucket_count; lia).
    rewrite Hel in Hfuel |- *. rewrite (elements_from_lookup t i n x rest Hn) in Hfuel |- *.
    destruct fuel as [|fuel]; [cbn [length] in Hfuel; lia|].
    rewrite <- Hidx in Hb.
    destruct (step_embedded t _ x rest Hb) as [Hd Hi].
    assert (m_it {| m_idx := N.of_nat i + N.of_nat n;
                    m_it := list_begin (N.of_nat i + N.of_nat n) |} ≠ nullptr) as Hne by done.
    rewrite (traverse_step fuel t _ _ x Hne Hd Hi).
    rewrite (traverse_position t _ x rest Hb (heap_wf_bucket _ _ _ _ Hwf Hb)) with (pre := []);
      [by rewrite Hidx| |done|].
    + intros fuel' Hfuel'. rewrite Hidx in Hfuel' |- *. cbn [position].
      replace (N.of_nat i + N.of_nat n + 1) with (N.of_nat (S (i + n))) by lia.
      rewrite Nat2N.id.
      apply (IH (length (m_container t) - S (i + n))%nat); [lia|lia|done].
    + rewrite Hidx. cbn [length] in Hfuel. rewrite length_app, length_fmap in Hfuel. lia.
Qed.

(** A full iteration, from [begin()] until the iterator equals [end()],
    visits the elements of the table in the order of [elements]. *)
Lemma traverse_elements (t : hash_set) (h : heap) (fuel : nat) :
  heap_wf (t, h) → (length (elements t) ≤ fuel)%nat →
  traverse fuel t (begin_ t) = Some (elements t).
Proof.
  intros Hwf Hfuel.
  exact (traverse_from t h Hwf (length (m_container t)) 0%nat fuel eq_refl Hfuel).
Qed.

(** ** [insert] on a table that satisfies its invariants *)

Lemma finish_insert_copy_throws (k : T) (idx : N) (t : hash_set) (h : heap) (e : exn) :
  idx < bucket_count t → T_copy_throws k = Some e →
  finish_insert k idx (t, h) = Throws e (t, h).
Proof.
  intros Hlt Hcopy. destruct (lookup_bucket_lt t idx Hlt) as [b Hb].
  unfold HashSet.finish_insert, mbind, M_bind, _unique_insert. cbn [fst snd].
  by rewrite Hb, Hcopy.
Qed.

Lemma finish_insert_total (k : T) (idx : N) (t : hash_set) (h : heap) :
  idx < bucket_count t →
  (∃ r s', finish_insert k idx (t, h) = Returns r s') ∨
  (∃ e s', finish_insert k idx (t, h) = Throws e s').
Proof.
  intros Hlt. destruct (T_copy_throws k) as [e|] eqn:Hcopy.
  - right. exists e, (t, h). by apply finish_insert_copy_throws.
  - left. destruct (finish_insert_returns k idx t h Hlt Hcopy) as (it & t' & h' & Hf & _).
    eauto.
Qed.

Lemma finish_insert_bucket_count (k : T) (idx : N) (s s' : hash_set * heap)
    (r : iterator * bool) :
  finish_insert k idx s = Returns r s' → bucket_count s'.1 = bucket_count s.1.
Proof.
  unfold HashSet.finish_insert, mbind, M_bind, mret, M_ret, modify_this.
  destruct (_unique_insert (T_copy_throws k) k idx s) as [it s1|e1 s1|] eqn:Hu; [|done..].
  intros [= _ <-]. apply _unique_insert_inv in Hu as (b & _ & _ & Hs1 & _).
  cbn [fst]. unfold bucket_count at 1. cbn [m_container]. fold (bucket_count s1.1).
  rewrite Hs1. apply set_bucket_count.
Qed.

(** The growth step on a table that satisfies its invariants: it returns,
    with more buckets than before, or the table is at the largest size
    class and [std::bad_alloc] is thrown. *)
Lemma increase_size_total (t : hash_set) (h : heap) :
  table_inv t →
  (∃ s', _increase_size (t, h) = Returns () s' ∧ bucket_count t < bucket_count s'.1) ∨
  _increase_size (t, h) = Throws bad_alloc (t, h).
Proof.
  intros [Hpl _ Hc _].
  destruct (next_size_class (bucket_count t)) as [n|] eqn:Hn.
  - left. destruct (increase_size_returns t h n Hc Hn (placed_hashable t Hpl)) as (s' & Hs' & Hbc).
    exists s'. split; [done|]. rewrite Hbc. by eapply next_size_class_gt.
  - right. apply increase_size_largest. by apply next_size_class_None.
Qed.

Lemma one_bucket_inv (t : hash_set) :
  table_inv t → bucket_count t = 0 → table_inv (one_bucket t).
Proof.
  intros [_ Hn _ _] Hz. apply table_inv_no_elements; [done| |apply table_sizes_1].
  cbn [one_bucket m_n_elements]. rewrite Hn. unfold elements.
  by rewrite (bucket_count_zero t Hz).
Qed.

(** On such a table [insert] has no undefined behaviour: it returns or
    throws. *)
Lemma insert_total (k : T) (t : hash_set) (h : heap) :
  table_inv t →
  (∃ r s', insert k (t, h) = Returns r s') ∨ (∃ e s', insert k (t, h) = Throws e s').
Proof.
  assert (∀ t, bucket_count t ≠ 0 → table_inv t →
    (∃ r s', insert k (t, h) = Returns r s') ∨ (∃ e s', insert k (t, h) = Throws e s')) as Hnz.
  { clear t. intros t Hbc Hinv. rewrite (insert_unfold k t h Hbc).
    destruct (m_hasher k) as [e|hv] eqn:Hk; [right; eauto|]. cbn zeta.
    pose proof (N.mod_lt hv _ Hbc) as Hlt.
    destruct (lookup_bucket_lt t _ Hlt) as [b Hb]. rewrite Hb.
    destruct (find_in_list (hv mod bucket_count t) k b) as [p|]; [left; eauto|].
    case_bool_decide; [right; eauto|].
    destruct (load_factor_exceeded t); [|by apply finish_insert_total].
    destruct (increase_size_total t h Hinv) as [([t2 h2] & Hinc & Hgt)|Hinc]; rewrite Hinc;
      [|right; eauto].
    cbn [fst] in Hgt. assert (bucket_count t2 ≠ 0) as Hnz2 by lia.
    rewrite (_bucket_returns k t2 h2 hv Hnz2 Hk).
    apply finish_insert_total. by apply N.mod_lt. }
  intros Hinv. destruct (decide (bucket_count t = 0)) as [Hz|Hbc]; [|by apply Hnz].
  rewrite (insert_zero_buckets k t h Hz). apply Hnz; [by unfold bucket_count|].
  by apply one_bucket_inv.
Qed.

(** The bucket count stays a size class. *)
Lemma insert_returns_class (k : T) (t : hash_set) (h : heap) (r : iterator * bool)
    (s' : hash_set * heap) :
  bucket_count t ∈ table_sizes → insert k (t, h) = Returns r s' →
  bucket_count s'.1 ∈ table_sizes.
Proof.
  assert (∀ t, bucket_count t ≠ 0 → bucket_count t ∈ table_sizes →
    insert k (t, h) = Returns r s' → bucket_count s'.1 ∈ table_sizes) as Hnz.
  { clear t. intros t Hbc Hc. rewrite (insert_unfold k t h Hbc).
    destruct (m_hasher k) as [e|hv]; [done|]. cbn zeta.
    destruct (m_container t !! N.to_nat (hv mod bucket_count t)) as [b|]; [|done].
    destruct (find_in_list (hv mod bucket_count t) k b) as [p|]; [by intros [= _ <-]|].
    case_bool_decide; [done|].
    destruct (load_factor_exceeded t).
    - destruct (_increase_size (t, h)) as [u s2| |] eqn:Hinc; [|done..].
      apply increase_size_returns_inv in Hinc as (n & _ & Hr).
      apply rehash_returns_inv in Hr as ((Hin & _) & _).
      destruct (_bucket k s2) as [idx2 s3| |] eqn:Hb2; [|done..].
      apply _bucket_inv in Hb2 as (-> & _).
      intros Hf. apply finish_insert_bucket_count in Hf. by rewrite Hf.
    - intros Hf. apply finish_insert_bucket_count in Hf. by rewrite Hf. }
  intros Hc. destruct (decide (bucket_count t = 0)) as [Hz|Hbc]; [|by apply Hnz].
  rewrite (insert_zero_buckets k t h Hz). apply Hnz; [by unfold bucket_count|].
  apply table_sizes_1.
Qed.

(** A throwing [insert] on such a table loses no element. *)
Lemma insert_throws_table_inv (k : T) (t t' : hash_set) (h h' : heap) (e : exn) :
  table_inv t → insert k (t, h) = Throws e (t', h') →
  table_inv t' ∧ elements t' ≡ₚ elements t ∧ m_n_elements t' = m_n_elements t.
Proof.
  assert (∀ t, bucket_count t ≠ 0 → table_inv t → insert k (t, h) = Throws e (t', h') →
    table_inv t' ∧ elements t' ≡ₚ elements t ∧ m_n_elements t' = m_n_elements t) as Hnz.
  { clear t. intros t Hbc Hinv Hi.
    apply insert_throws_nonzero in Hi as [[= -> ->]|[[_ (x & Hx & He)]|(_ & _ & Hinc)]];
      [done| |apply increase_size_table_inv in Hinc as (? & ? & ?); auto|done].
    destruct (placed_hashable t (inv_placed _ _ _ _ Hinv) x Hx) as [hv Hh]. congruence. }
  intros Hinv. destruct (decide (bucket_count t = 0)) as [Hz|Hbc]; [|by apply Hnz].
  rewrite (insert_zero_buckets k t h Hz). intros Hi.
  apply Hnz in Hi as (Hinv' & Hel & Hn); [|by unfold bucket_count|by apply one_bucket_inv].
  split; [done|]. split; [|done]. rewrite Hel. unfold elements.
  by rewrite (bucket_count_zero t Hz).
Qed.

(** ** Insertions that return *)

Lemma largest_size_lt_max : largest_size < size_type_max.
Proof. unfold HashSet.largest_size, HashSet.size_type_max. by destruct PIRANHA_64BIT_MODE. Qed.

(** An [insert] of a key that the hasher and the copy constructor accept,
    into a table that satisfies its invariants and holds fewer elements
    than the largest size class has buckets, returns: neither guard of
    [insert] fires and the rehash, if any, hashes stored keys only. *)
Lemma insert_accepted_returns (k : T) (hv : N) (t : hash_set) (h : heap) :
  table_inv t → m_hasher k = inr hv → T_copy_throws k = None →
  m_n_elements t < largest_size →
  ∃ r t' h', insert k (t, h) = Returns r (t', h').
Proof.
  intros Hinv Hk Hcopy Hroom.
  assert (∀ t, bucket_count t ≠ 0 → table_inv t → m_n_elements t < largest_size →
            ∃ r t' h', insert k (t, h) = Returns r (t', h')) as Hnz.
  { clear t Hinv Hroom. intros t Hbc Hinv Hroom.
    rewrite (insert_unfold k t h Hbc), Hk. cbn zeta.
    pose proof (N.mod_lt hv _ Hbc) as Hlt.
    destruct (lookup_bucket_lt t _ Hlt) as [b ->].
    destruct (find_in_list (hv mod bucket_count t) k b) as [p|]; [by eexists _, _, _|].
    pose proof largest_size_lt_max as Hmax.
    rewrite bool_decide_eq_false_2 by lia.
    destruct (load_factor_exceeded t) eqn:Hlf.
    - apply load_factor_exceeded_iff in Hlf; [|done].
      pose proof (inv_class _ _ _ _ Hinv) as Hcl.
      destruct (next_size_class (bucket_count t)) as [n|] eqn:Hnext.
      + destruct (increase_size_returns t h n Hcl Hnext
                    (placed_hashable t (inv_placed _ _ _ _ Hinv))) as ([t2 h2] & -> & Hbc2).
        cbn [fst] in Hbc2. pose proof (next_size_class_gt _ _ Hcl Hnext) as Hgt.
        assert (bucket_count t2 ≠ 0) as Hnz2 by lia.
        rewrite (_bucket_returns k t2 h2 hv Hnz2 Hk).
        destruct (finish_insert_returns k _ t2 h2 (N.mod_lt hv _ Hnz2) Hcopy)
          as (it & t' & h' & -> & _).
        by eexists _, _, _.
      + apply next_size_class_None in Hnext; [lia|done].
    - destruct (finish_insert_returns k _ t h Hlt Hcopy) as (it & t' & h' & -> & _).
      by eexists _, _, _. }
  destruct (decide (bucket_count t = 0)) as [Hz|Hbc]; [|by apply Hnz].
  rewrite (insert_zero_buckets k t h Hz).
  apply Hnz; [by unfold bucket_count|by apply one_bucket_inv|exact Hroom].
Qed.

Section sequences.
Hypothesis key_equal_sym : ∀ x y, m_key_equal x y = m_key_equal y x.
Hypothesis hash_compat : ∀ x y, m_key_equal x y = true → m_hasher x = m_hasher y.

Lemma insert_returns_table_inv (k : T) (t t' : hash_set) (h h' : heap) (r : iterator * bool) :
  table_inv t → insert k (t, h) = Returns r (t', h') → table_inv t'.
Proof.
  intros Hinv Hi. pose proof (insert_returns_class _ _ _ _ _ (inv_class _ _ _ _ Hinv) Hi) as Hc.
  destruct Hinv as [Hpl Hn _ Hu].
  apply (insert_returns_inv hash_compat) in Hi as [Hpl' [(_ & -> & _)|(_ & He & Hel & Hn')]];
    [done| |done].
  split; [done| |done|].
  - rewrite Hn', Hn, Hel. cbn [length]. lia.
  - apply (unique_perm (k :: elements t)); [done|]. split; [|done].
    intros y Hy. pose proof (proj1 (existsb_false_elem_of _ _) He y Hy) as Hyk.
    cbn beta in Hyk. split; [by rewrite key_equal_sym|done].
Qed.

Lemma insert_each_inv (ks acc : list T) (t : hash_set) (h : heap) :
  table_inv t → heap_wf (t, h) → elements t ≡ₚ acc →
  ∃ t' h' ok, insert_each ks (t, h) = Some (t', h', ok) ∧ sublist ok ks ∧
    table_inv t' ∧ heap_wf (t', h') ∧ elements t' ≡ₚ foldl distinct_step acc ok.
Proof.
  revert acc t h. induction ks as [|k ks IH]; intros acc t h Hinv Hwf Hel.
  - exists t, h, []. done.
  - cbn [HashSet.insert_each].
    destruct (insert_total k t h Hinv) as [(r & [t1 h1] & Hi)|(e & [t1 h1] & Hi)]; rewrite Hi.
    + assert (heap_wf (t1, h1)) as Hwf1 by (eapply insert_heap_wf; eauto).
      pose proof (insert_returns_table_inv _ _ _ _ _ _ Hinv Hi) as Hinv1.
      apply (insert_returns_inv hash_compat) in Hi as [_ Hcase]; [|apply Hinv].
      destruct (IH (distinct_step acc k) t1 h1 Hinv1 Hwf1) as (t' & h' & ok & He & Hsub & ?).
      { unfold HashSet.distinct_step. rewrite <- (existsb_perm _ _ _ Hel).
        destruct Hcase as [(_ & -> & _ & Hex)|(_ & Hex & Hel1 & _)]; rewrite Hex; [done|].
        by rewrite Hel1, Hel, Permutation_app_comm. }
      exists t', h', (k :: ok). rewrite He. split; [done|]. split; [by apply sublist_skip|done].
    + assert (heap_wf (t1, h1)) as Hwf1 by (eapply insert_heap_wf; eauto).
      apply (insert_throws_table_inv _ _ _ _ _ _ Hinv) in Hi as (Hinv1 & Hel1 & _).
      destruct (IH acc t1 h1 Hinv1 Hwf1) as (t' & h' & ok & He & Hsub & ?);
        [by rewrite Hel1|].
      exists t', h', ok. split; [done|]. split; [by apply sublist_cons|done].
Qed.

(** A sequence of [insert] calls whose keys the hasher and the copy
    constructor accept, and which is not longer than the room left below
    the largest size class, returns. *)
Lemma insert_all_returns (ks : list T) (t : hash_set) (h : heap) :
  table_inv t → hashable ks → (∀ k, k ∈ ks → T_copy_throws k = None) →
  m_n_elements t + N.of_nat (length ks) ≤ largest_size →
  ∃ t' h', insert_all ks (t, h) = Returns () (t', h').
Proof.
  revert t h. induction ks as [|k ks IH]; intros t h Hinv Hh Hc Hroom.
  - by exists t, h.
  - rewrite insert_all_cons. cbn [length] in Hroom.
    destruct (Hh k) as [hv Hk]; [left|].
    destruct (insert_accepted_returns k hv t h Hinv Hk) as (r & t1 & h1 & Hi);
      [apply Hc; left|lia|].
    rewrite Hi.
    pose proof (insert_returns_table_inv _ _ _ _ _ _ Hinv Hi) as Hinv1.
    apply (IH t1 h1 Hinv1).
    + intros x Hx. apply Hh. by right.
    + intros x Hx. apply Hc. by right.
    + apply (insert_returns_inv hash_compat) in Hi as [_ Hcase]; [|apply Hinv].
      destruct Hcase as [(_ & -> & _)|(_ & _ & _ & Hn)]; lia.
Qed.

(** In a sequence of [insert] calls, those that throw being caught, the
    call for a key that the hasher and the copy constructor accept returns,
    as long as the sequence is not longer than the room left below the
    largest size class. *)
Lemma insert_each_accepted (ks : list T) (t t' : hash_set) (h h' : heap) (ok : list T) :
  table_inv t → m_n_elements t + N.of_nat (length ks) ≤ largest_size →
  insert_each ks (t, h) = Some (t', h', ok) →
  ∀ k hv, k ∈ ks → m_hasher k = inr hv → T_copy_throws k = None → k ∈ ok.
Proof.
  revert t h ok. induction ks as [|k0 ks IH]; intros t h ok Hinv Hroom He k hv Hin Hk Hcopy.
  - by apply elem_of_nil in Hin.
  - cbn [HashSet.insert_each] in He. cbn [length] in Hroom.
    destruct (insert k0 (t, h)) as [r [t1 h1]|e [t1 h1]|] eqn:Hi; [| |done].
    + pose proof (insert_returns_table_inv _ _ _ _ _ _ Hinv Hi) as Hinv1.
      destruct (insert_each ks (t1, h1)) as [[s' ok']|] eqn:He1; [|done].
      injection He as -> <-.
      apply elem_of_cons in Hin as [->|Hin]; [left|]. right.
      apply (IH t1 h1 ok' Hinv1) with hv; [|done..].
      apply (insert_returns_inv hash_compat) in Hi as [_ Hcase]; [|apply Hinv].
      destruct Hcase as [(_ & -> & _)|(_ & _ & _ & Hn)]; lia.
    + pose proof (insert_throws_table_inv _ _ _ _ _ _ Hinv Hi) as (Hinv1 & _ & Hn).
      apply elem_of_cons in Hin as [->|Hin].
      * destruct (insert_accepted_returns k0 hv t h Hinv Hk Hcopy) as (r & t2 & h2 & Hi2);
          [lia|congruence].
      * apply (IH t1 h1 ok Hinv1) with hv; [lia|done..].
Qed.

End sequences.

Lemma insert_all_each (ks : list T) (s s' : hash_set * heap) :
  insert_all ks s = Returns () s' → insert_each ks s = Some (s', ks).
Proof.
  revert s. induction ks as [|k ks IH]; intros s.
  - by intros [= <-].
  - rewrite insert_all_cons. cbn [HashSet.insert_each].
    destruct (insert k s) as [r s1| |]; [|done..].
    intros Hall. by rewrite (IH _ Hall).
Qed.

Lemma cleared_inv : table_inv (@cleared T).
Proof. apply table_inv_no_elements; [done..|apply table_sizes_0]. Qed.

(** ** [erase] through a dereferenceable iterator *)

Lemma payload_in_rest_split (a : addr) (rest : list (addr * T)) (y : T) :
  payload_in_rest a rest = Some y →
  ∃ pre post, rest = pre ++ (a, y) :: post ∧ a ∉ pre.*1.
Proof.
  induction rest as [|[a' x'] rest IH]; cbn [payload_in_rest]; [done|].
  case_bool_decide as Ha.
  - intros [= ->]. subst a'. exists [], rest. split; [done|]. apply not_elem_of_nil.
  - intros Hp. destruct (IH Hp) as (pre & post & -> & Hn).
    exists ((a', x') :: pre), post. split; [done|].
    cbn [fmap list_fmap fst]. by apply not_elem_of_cons.
Qed.

Lemma erase_in_rest_app (a : addr) (y : T) (pre post : list (addr * T)) (prev : node_ptr) :
  a ∉ pre.*1 →
  ∃ ret, erase_in_rest (heap_node a) prev (pre ++ (a, y) :: post) = (pre ++ post, Some a, ret).
Proof.
  revert prev. induction pre as [|[a' x'] pre IH]; intros prev Hn;
    cbn [erase_in_rest app fmap list_fmap fst] in *.
  - rewrite bool_decide_eq_true_2 by done. eauto.
  - apply not_elem_of_cons in Hn as [Hne Hn].
    rewrite bool_decide_eq_false_2 by congruence.
    destruct (IH (heap_node a') Hn) as [ret ->]. eauto.
Qed.

(** What [_erase] does with the bucket of a dereferenceable iterator: the
    payload it points to leaves the bucket, and at most one heap node is
    unlinked and deleted. *)
Lemma _erase_valid (t : hash_set) (h : heap) (it : iterator) (x0 : T) :
  dereference t it = Some x0 →
  ∃ b b' p h',
    m_container t !! N.to_nat (m_idx it) = Some b ∧
    _erase it (t, h) = Returns p (set_bucket (m_idx it) b' t, h') ∧
    list_elements b ≡ₚ x0 :: list_elements b' ∧
    ((list_heap_nodes b' = list_heap_nodes b ∧ h' = h) ∨
     (∃ a, list_heap_nodes b ≡ₚ a :: list_heap_nodes b' ∧ h' = h ∖ {[a]})).
Proof.
  unfold dereference, _erase. cbn [fst snd].
  destruct (m_container t !! N.to_nat (m_idx it)) as [[|x rest]|] eqn:Hb; [done| |done].
  destruct (m_it it) as [| |i|a] eqn:Hp; [done|done| |].
  - case_bool_decide as Hi; [|done]. subst i. intros [= <-].
    rewrite bool_decide_eq_true_2 by done.
    destruct rest as [|[a y] rest'].
    + exists (nodes x []), empty_list. eexists _, _. split; [done|]. split; [done|].
      split; [done|]. by left.
    + exists (nodes x ((a, y) :: rest')), (nodes y rest'). eexists _, _.
      split; [done|]. split; [done|]. split; [done|]. right. by exists a.
  - intros Hpay. rewrite bool_decide_eq_false_2 by done.
    destruct (payload_in_rest_split a rest x0 Hpay) as (pre & post & -> & Hn).
    destruct (erase_in_rest_app a x0 pre post (m_node_of (m_idx it)) Hn) as [ret ->].
    exists (nodes x (pre ++ (a, x0) :: post)), (nodes x (pre ++ post)). eexists _, _.
    split; [done|]. split; [done|]. cbn [list_elements list_heap_nodes delete_node].
    rewrite !fmap_app, !fmap_cons. cbn [fst snd].
    split; [by rewrite <- Permutation_middle, perm_swap|].
    right. exists a. split; [|done]. by rewrite <- Permutation_middle.
Qed.

Lemma bind_remove {A B} (f : A → list B) (l : list A) (i : nat) (a a' : A) (y : B) :
  l !! i = Some a → f a ≡ₚ y :: f a' → l ≫= f ≡ₚ y :: ((<[i:=a']> l) ≫= f).
Proof.
  intros Hi Hf. pose proof (lookup_lt_Some _ _ _ Hi) as Hlt.
  rewrite <- (list_insert_id l i a Hi) at 1.
  rewrite <- (list_insert_insert_eq l i a a').
  apply (bind_insert f (<[i:=a']> l) i a' a y); [|done]. by apply list_lookup_insert_eq.
Qed.

Lemma unique_cons_inv (x : T) (xs : list T) : unique (x :: xs) → unique xs.
Proof. by intros [_ ?]. Qed.

(** [erase] through an iterator that can be dereferenced, on a table that
    satisfies its invariants and agrees with the free store: the element
    the iterator points to leaves the table, nothing else does, [size()]
    decreases by one, the bucket count stays, and the invariants and the
    agreement with the free store are kept. *)
Lemma erase_valid (t : hash_set) (h : heap) (it : iterator) (x0 : T) :
  table_inv t → heap_wf (t, h) → dereference t it = Some x0 →
  ∃ it' t' h', erase PIRANHA_64BIT_MODE it (t, h) = Returns it' (t', h') ∧
    elements t ≡ₚ x0 :: elements t' ∧
    size t = size t' + 1 ∧
    bucket_count t' = bucket_count t ∧
    table_inv t' ∧ heap_wf (t', h').
Proof.
  intros [Hpl Hn Hc Hu] [Hnd Hal] Hd.
  destruct (_erase_valid t h it x0 Hd) as (b & b' & p & h' & Hb & He & Hel & Hnodes).
  pose proof (lookup_bucket_Some _ _ _ Hb) as Hlt.
  assert (elements t ≡ₚ x0 :: elements (set_bucket (m_idx it) b' t)) as Hels.
  { unfold elements, set_bucket. cbn [m_container]. by eapply bind_remove. }
  assert (m_n_elements t ≠ 0) as Hnz.
  { rewrite Hn, Hels. cbn [length]. lia. }
  unfold HashSet.erase, mbind, M_bind, mret, M_ret, get_this, modify_this.
  rewrite He. cbn [fst snd]. rewrite set_bucket_lookup by done.
  eexists _, _, _. split; [reflexivity|].
  unfold size, decrement. cbn [fst snd set_bucket m_container m_n_elements].
  rewrite bool_decide_eq_false_2 by done.
  set (t' := {| m_container := <[N.to_nat (m_idx it):=b']> (m_container t);
                m_n_elements := m_n_elements t - 1 |}).
  assert (elements t' = elements (set_bucket (m_idx it) b' t)) as Het by done.
  assert (bucket_count t' = bucket_count t) as Hbc.
  { unfold bucket_count, t'. cbn [m_container]. by rewrite length_insert. }
  rewrite Het. split; [done|]. split; [cbn [m_n_elements]; lia|]. split; [done|].
  split; [split|split].
  - intros i c x Hi Hx. rewrite Hbc. unfold t' in Hi. cbn [m_container] in Hi.
    destruct (decide (i = N.to_nat (m_idx it))) as [->|Hne].
    + rewrite list_lookup_insert_eq in Hi by (by eapply lookup_lt_Some).
      injection Hi as <-. apply (Hpl _ b x Hb). rewrite Hel. by right.
    + rewrite list_lookup_insert_ne in Hi by done. by apply (Hpl i c x).
  - rewrite Het. unfold t'. cbn [m_n_elements]. rewrite Hn, Hels. cbn [length]. lia.
  - by rewrite Hbc.
  - rewrite Het. apply (unique_cons_inv x0). by apply (unique_perm _ _ Hels).
  - cbn [fst]. unfold heap_nodes, t' in *. cbn [fst snd m_container] in *.
    destruct Hnodes as [[Hsame _]|(a & Hrem & _)].
    + by rewrite (bind_insert_same _ _ _ b b' Hb Hsame).
    + rewrite (bind_remove _ _ _ b b' a Hb Hrem) in Hnd.
      by apply NoDup_cons in Hnd as [_ ?].
  - unfold heap_nodes, t' in *. cbn [fst snd m_container] in *.
    intros a' Ha'. destruct Hnodes as [[Hsame ->]|(a & Hrem & ->)].
    + apply Hal. by rewrite <- (bind_insert_same _ _ _ b b' Hb Hsame).
    + pose proof (bind_remove _ _ _ b b' a Hb Hrem) as Hperm.
      rewrite Hperm in Hnd. apply NoDup_cons in Hnd as [Hnotin _].
      apply elem_of_difference. split.
      * apply Hal. rewrite Hperm. by right.
      * intros Heq. apply elem_of_singleton in Heq. by subst a'.
Qed.

(** ** The claims *)

(** C2 (amended). For every [insert(k)] of a key not already present, whose
    copy does not throw, into a table that satisfies its invariants, has at
    least one bucket and fewer than the maximum of [size_type] elements: the
    load-factor test
    [(size() + 1) / bucket_count() > 1.0] is made on the table as it is
    before the element is placed and holds exactly when [bucket_count() <
    size() + 1]; when it fails the element is placed without any rehash;
    when it holds and a next size class exists the table is rehashed to it
    and the element goes to the bucket recomputed from the new bucket count;
    when it holds at the largest size class [insert] throws
    [std::bad_alloc] and leaves the table as it was. An [insert] into a table
    without buckets first grows it to the first non-zero size class, 1, and
    goes on as an [insert] into that table. *)
Theorem insert_growth_trigger :
  (∀ (t : hash_set) (h : heap) (k : T) (hv : N),
     table_inv t → bucket_count t ≠ 0 → m_hasher k = inr hv →
     _find k (hv mod bucket_count t) (t, h) = Returns (end_ t) (t, h) →
     m_n_elements t ≠ size_type_max → T_copy_throws k = None →
     (load_factor_exceeded t = true ↔ bucket_count t < size t + 1) ∧
     (load_factor_exceeded t = false →
        ∃ r t' h', insert k (t, h) = Returns r (t', h') ∧
                   inserted k t r t' (bucket_count t)) ∧
     (load_factor_exceeded t = true →
        ∀ n, next_size_class (bucket_count t) = Some n →
          bucket_count t < n ∧
          ∃ r t' h', insert k (t, h) = Returns r (t', h') ∧ inserted k t r t' n) ∧
     (load_factor_exceeded t = true → next_size_class (bucket_count t) = None →
        bucket_count t = largest_size ∧ insert k (t, h) = Throws bad_alloc (t, h))) ∧
  (∀ (t : hash_set) (h : heap) (k : T),
     bucket_count t = 0 →
     ∃ t1, _increase_size (t, h) = Returns () (t1, h) ∧
           bucket_count t1 = 1 ∧ size t1 = size t ∧ elements t1 = [] ∧
           insert k (t, h) = insert k (t1, h)).
Proof.
  split.
  - intros t h k hv Hinv Hbc Hk Hfind Hmax Hcopy.
    destruct (_find_end_inv k _ t h (N.mod_lt hv _ Hbc) Hfind) as (b & Hb & Hnone).
    pose proof (insert_unfold k t h Hbc) as Hi. rewrite Hk in Hi. cbn zeta in Hi.
    rewrite Hb, Hnone, (bool_decide_eq_false_2 _ Hmax) in Hi.
    split; [by apply load_factor_exceeded_iff|].
    split; [|split].
    + intros Hlf. rewrite Hlf in Hi. rewrite Hi.
      by apply finish_insert_inserted.
    + intros Hlf n Hn. rewrite Hlf in Hi.
      pose proof (next_size_class_gt _ _ (inv_class _ _ _ _ Hinv) Hn) as Hgt.
      split; [done|].
      destruct (increase_size_returns t h n (inv_class _ _ _ _ Hinv) Hn
                  (placed_hashable t (inv_placed _ _ _ _ Hinv))) as ([t2 h2] & Hinc & Hbc2).
      cbn [fst] in Hbc2. rewrite Hinc in Hi.
      apply increase_size_returns_inv in Hinc as (n' & _ & Hr).
      apply rehash_returns_inv in Hr as (_ & Hn2 & Hel2 & _). cbn [fst] in *.
      assert (bucket_count t2 ≠ 0) as Hnz by lia.
      rewrite (_bucket_returns k t2 h2 hv Hnz Hk) in Hi. rewrite Hi, <- Hbc2.
      by apply finish_insert_inserted.
    + intros Hlf Hn. rewrite Hlf in Hi.
      apply next_size_class_None in Hn; [|by apply (inv_class _ _ _ _ Hinv)].
      split; [done|]. by rewrite Hi, increase_size_largest.
  - intros t h k Hz. eexists. split; [by apply increase_size_zero|].
    split; [done|]. split; [done|]. split; [done|]. by apply insert_zero_buckets.
Qed.

(** C3 (amended). For every table on whose elements the hasher does not
    throw and every [new_size] that is not larger than the largest size
    class and is not zero unless the table holds no element,
    [rehash(new_size)] returns; afterwards the table holds the same
    elements as before (the same multiset, hence the same set), [size()] is
    unchanged and [bucket_count()] is the smallest size class that is at
    least [new_size]; and when the table and the free store agree before
    the call they agree after it, and a full iteration, from [begin()] until
    [end()] is met, visits exactly these elements before the call and after
    it. When [new_size] is larger than the largest size class, [rehash]
    throws [std::bad_alloc] and leaves the table as it was. *)
Theorem rehash_preserves_membership (t : hash_set) (h : heap) (new_size : N) :
  (new_size ≤ largest_size → new_size ≠ 0 ∨ elements t = [] → hashable (elements t) →
   ∃ t' h', rehash new_size (t, h) = Returns () (t', h') ∧
     elements t' ≡ₚ elements t ∧
     (∀ x, x ∈ elements t' ↔ x ∈ elements t) ∧
     smallest_size_class (bucket_count t') new_size ∧
     size t' = size t ∧
     (heap_wf (t, h) →
      heap_wf (t', h') ∧
      ∃ xs xs', traverse (length (elements t)) t (begin_ t) = Some xs ∧
                traverse (length (elements t)) t' (begin_ t') = Some xs' ∧
                xs = elements t ∧ xs' = elements t' ∧ ∀ x, x ∈ xs' ↔ x ∈ xs)) ∧
  (largest_size < new_size → rehash new_size (t, h) = Throws bad_alloc (t, h)).
Proof.
  split.
  - intros Hle Hz Hh. destruct (rehash_returns new_size t h Hle Hz Hh) as [[t' h'] Hr].
    exists t', h'. split; [done|].
    pose proof (rehash_heap_wf _ _ _ _ Hr) as Hwf'.
    apply rehash_returns_inv in Hr as (Hsz & Hn & Hp & _). cbn [fst] in *.
    split; [done|]. split; [intros x; by rewrite Hp|]. split; [done|]. split; [done|].
    intros Hwf. specialize (Hwf' Hwf). split; [done|].
    exists (elements t), (elements t').
    split; [by eapply traverse_elements|].
    split; [eapply traverse_elements; [done|by rewrite Hp]|].
    split; [done|]. split; [done|]. intros x. by rewrite Hp.
  - intros Hgt. unfold HashSet.rehash, HashSet.rehash_run.
    destruct (hash_set_ctor new_size) as [e|nt] eqn:Hc.
    + apply hash_set_ctor_inl in Hc as [-> _]. done.
    + apply hash_set_ctor_inr in Hc as ((Hin & Hle & _) & _).
      apply table_sizes_le_largest in Hin. lia.
Qed.

(** What an exception leaves behind. One that leaves the move-insert loop
    of [rehash] finds both the table and the half-built [new_table] cleared
    when it propagates. An [insert] that throws leaves the table in one of
    three states: exactly as it was; or, when it is the copy of the key that
    throws after the growth step has succeeded, rehashed to the next size
    class, with the same elements and the same [size()]; or without any
    element (cleared by the failed rehash, or grown from no bucket to one
    empty bucket). A table that satisfied its invariants before the failing
    [insert] satisfies them after it and holds the same elements (the hasher
    cannot throw on a key it has placed, so the rehash goes through): it is
    never left partially populated. *)
Lemma failing_insert_outcomes :
  (∀ (new_size : N) (t new_table : hash_set) (h : heap) (e : exn) (s1 : hash_set * heap),
     hash_set_ctor new_size = inr new_table →
     rehash_loop (elements t) (new_table, h) = Throws e s1 →
     ∃ h', rehash_run new_size (t, h) = (Throws e (cleared, h'), Some cleared)) ∧
  (∀ (k : T) (t t' : hash_set) (h h' : heap) (e : exn),
     (bucket_count t = 0 → m_n_elements t = 0) →
     insert k (t, h) = Throws e (t', h') →
     (t' = t ∨
      (T_copy_throws k = Some e ∧ _increase_size (t, h) = Returns () (t', h') ∧
       elements t' ≡ₚ elements t ∧ size t' = size t) ∨
      (elements t' = [] ∧ size t' = 0)) ∧
     (table_inv t → table_inv t' ∧ elements t' ≡ₚ elements t ∧ size t' = size t)).
Proof.
  split.
  - intros new_size t nt h e [nt1 h1] Hc Hl. unfold HashSet.rehash_run.
    rewrite Hc. cbn [fst snd]. rewrite Hl. cbn [fst snd]. eauto.
  - intros k t t' h h' e Hz Hi. split; [|intros Hinv; by eapply insert_throws_table_inv].
    apply (insert_throws_inv _ _ _ _ _ Hz) in Hi
      as [[= -> ->]|[Hc|[[Hbc [= -> ->]]|(_ & _ & Hcopy & Hinc)]]].
    + by left.
    + cbn [fst] in Hc. subst t'. right; by right.
    + right; right; split; [done|by apply Hz].
    + destruct (increase_size_table_inv _ _ _ _ Hinc) as (Hel & Hsz & _).
      right; left; done.
Qed.

(** C5. An [insert(k)] that finds, in the destination bucket, an element
    equal to [k] returns an iterator to an element of that bucket that
    compares equal to [k], paired with [false], and leaves the table (and
    the free store) exactly as it was: same [size()], same
    [bucket_count()], same elements. Consequently, when the equality
    predicate is symmetric and equal keys hash alike: a sequence of [insert]
    calls on a default-constructed table, on whose keys neither the hasher
    nor the copy constructor throws and which is not longer than the
    largest size class, returns, call by call, and leaves in the table
    exactly the keys of the sequence without the repetitions, no two
    elements compare equal and [size()] is the number of distinct keys; the
    same holds of any sequence that returns; and whatever the keys, a
    sequence of [insert] calls on a default-constructed table, those that
    throw being caught and dropped, has no undefined behaviour and leaves a
    table that satisfies its invariants and holds exactly one element per
    distinct key among the keys whose call returned, with [size()] that
    number, the calls that returned including, in a sequence not longer
    than the largest size class, every call for a key that the hasher and
    the copy constructor accept. *)
Theorem insert_existing_key :
  (∀ (t : hash_set) (h : heap) (k x : T) (hv : N) (b : bucket_list),
     bucket_count t ≠ 0 → heap_wf (t, h) → m_hasher k = inr hv →
     m_container t !! N.to_nat (hv mod bucket_count t) = Some b →
     x ∈ list_elements b → m_key_equal x k = true →
     ∃ it y, insert k (t, h) = Returns (it, false) (t, h) ∧
             m_idx it = hv mod bucket_count t ∧
             dereference t it = Some y ∧ y ∈ list_elements b ∧
             m_key_equal y k = true) ∧
  ((∀ x y, m_key_equal x y = m_key_equal y x) →
   (∀ x y, m_key_equal x y = true → m_hasher x = m_hasher y) →
   (∀ (ks : list T) (h0 : heap),
      hashable ks → (∀ k, k ∈ ks → T_copy_throws k = None) →
      N.of_nat (length ks) ≤ largest_size →
      ∃ t h, insert_all ks (cleared, h0) = Returns () (t, h) ∧
        insert_each ks (cleared, h0) = Some (t, h, ks) ∧
        elements t ≡ₚ distinct_keys ks ∧
        unique (elements t) ∧
        size t = N.of_nat (length (distinct_keys ks))) ∧
   (∀ (ks : list T) (t : hash_set) (h0 h : heap),
      insert_all ks (cleared, h0) = Returns () (t, h) →
      elements t ≡ₚ distinct_keys ks ∧
      unique (elements t) ∧
      size t = N.of_nat (length (distinct_keys ks))) ∧
   (∀ (ks : list T) (h0 : heap),
      ∃ t h ok, insert_each ks (cleared, h0) = Some (t, h, ok) ∧ sublist ok ks ∧
        (N.of_nat (length ks) ≤ largest_size →
         ∀ k hv, k ∈ ks → m_hasher k = inr hv → T_copy_throws k = None → k ∈ ok) ∧
        table_inv t ∧ heap_wf (t, h) ∧
        elements t ≡ₚ distinct_keys ok ∧
        unique (elements t) ∧
        size t = N.of_nat (length (distinct_keys ok)))).
Proof.
  split.
  - intros t h k x hv b Hbc Hwf Hk Hb Hx Heq.
    destruct (find_in_list (hv mod bucket_count t) k b) as [p|] eqn:Hf.
    + destruct (find_in_list_Some _ k b p t (heap_wf_bucket _ _ _ _ Hwf Hb) Hb Hf)
        as (y & Hd & Hy & Hyk).
      exists {| m_idx := hv mod bucket_count t; m_it := p |}, y.
      rewrite (insert_unfold k t h Hbc), Hk. cbn zeta. by rewrite Hb, Hf.
    + rewrite (proj1 (find_in_list_None _ k b) Hf x Hx) in Heq. done.
  - intros Hsym Hcompat.
    assert (∀ (ks : list T) (t : hash_set) (h0 h : heap),
              insert_all ks (cleared, h0) = Returns () (t, h) →
              elements t ≡ₚ distinct_keys ks ∧ unique (elements t) ∧
              size t = N.of_nat (length (distinct_keys ks))) as Hret.
    { intros ks t h0 h Hall.
      apply (insert_all_inv Hcompat ks []) in Hall as (_ & Hel & Hn); [| |done..].
      * split; [done|]. split; [|done].
        apply (unique_perm (distinct_keys ks)); [done|].
        by apply unique_foldl_distinct_step.
      * intros i b x Hi. done. }
    split; [|split; [exact Hret|]].
    + intros ks h0 Hh Hc Hlen.
      destruct (insert_all_returns Hsym Hcompat ks cleared h0 cleared_inv Hh Hc)
        as (t & h & Hall); [cbn [m_n_elements cleared]; lia|].
      exists t, h. split; [done|]. split; [by apply insert_all_each|].
      by apply (Hret ks t h0 h).
    + intros ks h0.
      destruct (insert_each_inv Hsym Hcompat ks [] cleared h0 cleared_inv (cleared_heap_wf h0))
        as (t & h & ok & He & Hsub & Hinv & Hwf & Hel); [done|].
      exists t, h, ok. do 2 (split; [done|]). split.
      { intros Hlen. apply (insert_each_accepted Hsym Hcompat ks cleared t h0 h ok);
          [apply cleared_inv|cbn [m_n_elements cleared]; lia|done]. }
      do 3 (split; [done|]). split; [apply Hinv|].
      unfold size. by rewrite (inv_count _ _ _ _ Hinv), Hel.
Qed.

(** C8. Erasing the element held by the embedded node of a bucket. When it
    is the only element, the bucket is left empty, the bucket array keeps
    its length (the slot is still there, at the same index) and the free
    store is untouched: nothing is deallocated. When a second element
    follows, in the heap node at address [a], the bucket is left with the
    second element in the embedded node followed by whatever followed the
    second (nothing, for a bucket of two: the former second element is then
    the sole element and the bucket owns no heap node), and [a] has been
    deallocated. In both cases the other buckets and [size()] are left
    alone by [_erase], and [erase] decrements [size()]. *)
Theorem erase_head_of_bucket (t : hash_set) (h : heap) (idx : N) (x : T) :
  let it := {| m_idx := idx; m_it := m_node_of idx |} in
  (m_container t !! N.to_nat idx = Some (nodes x []) →
   ∃ t' p, _erase it (t, h) = Returns p (t', h) ∧
     m_container t' !! N.to_nat idx = Some empty_list ∧
     bucket_count t' = bucket_count t ∧
     (∀ j, j ≠ N.to_nat idx → m_container t' !! j = m_container t !! j) ∧
     size t' = size t ∧
     ∃ it', erase PIRANHA_64BIT_MODE it (t, h) =
            Returns it' ({| m_container := m_container t';
                            m_n_elements := decrement PIRANHA_64BIT_MODE (m_n_elements t) |}, h)) ∧
  (∀ (a : addr) (y : T) (rest : list (addr * T)),
   m_container t !! N.to_nat idx = Some (nodes x ((a, y) :: rest)) →
   ∃ t' p, _erase it (t, h) = Returns p (t', h ∖ {[a]}) ∧
     m_container t' !! N.to_nat idx = Some (nodes y rest) ∧
     (rest = [] → list_elements (nodes y rest) = [y] ∧ list_heap_nodes (nodes y rest) = []) ∧
     (a ∉ h ∖ {[a]}) ∧
     bucket_count t' = bucket_count t ∧
     (∀ j, j ≠ N.to_nat idx → m_container t' !! j = m_container t !! j) ∧
     size t' = size t ∧
     ∃ it', erase PIRANHA_64BIT_MODE it (t, h) =
            Returns it' ({| m_container := m_container t';
                            m_n_elements := decrement PIRANHA_64BIT_MODE (m_n_elements t) |},
                         h ∖ {[a]})).
Proof.
  intros it. split.
  - intros Hb. pose proof (lookup_bucket_Some _ _ _ Hb) as Hlt.
    exists (set_bucket idx empty_list t), (list_end idx (@empty_list T)).
    assert (_erase it (t, h) =
            Returns (list_end idx (@empty_list T)) (set_bucket idx empty_list t, h)) as He.
    { unfold _erase, it. cbn [fst snd m_idx m_it]. rewrite Hb.
      by rewrite bool_decide_eq_true_2. }
    split; [done|]. split; [by apply set_bucket_lookup|].
    split; [apply set_bucket_count|]. split; [intros j Hj; by apply set_bucket_lookup_ne|].
    split; [done|].
    unfold HashSet.erase, mbind, M_bind, mret, M_ret, get_this, modify_this.
    rewrite He. cbn [fst snd]. unfold it at 1. cbn [m_idx].
    rewrite set_bucket_lookup by done. eauto.
  - intros a y rest Hb. pose proof (lookup_bucket_Some _ _ _ Hb) as Hlt.
    exists (set_bucket idx (nodes y rest) t), (list_begin idx).
    assert (_erase it (t, h) =
            Returns (list_begin idx) (set_bucket idx (nodes y rest) t, h ∖ {[a]})) as He.
    { unfold _erase, it. cbn [fst snd m_idx m_it]. rewrite Hb.
      by rewrite bool_decide_eq_true_2. }
    split; [done|]. split; [by apply set_bucket_lookup|].
    split; [intros Hr; rewrite Hr; done|].
    split; [apply not_elem_of_difference; right; by apply elem_of_singleton|].
    split; [apply set_bucket_count|]. split; [intros j Hj; by apply set_bucket_lookup_ne|].
    split; [done|].
    unfold HashSet.erase, mbind, M_bind, mret, M_ret, get_this, modify_this.
    rewrite He. cbn [fst snd]. unfold it at 1. cbn [m_idx].
    rewrite set_bucket_lookup by done. eauto.
Qed.

(** * Further properties of the hash set *)

Abbreviation find := (find m_hasher m_key_equal).
Abbreviation bucket := (bucket m_hasher).
Abbreviation erase := (erase PIRANHA_64BIT_MODE).

(** ** [find] *)

Lemma find_unfold (k : T) (t : hash_set) (h : heap) :
  find k (t, h) =
  if bool_decide (bucket_count t = 0) then Returns (end_ t) (t, h)
  else match m_hasher k with
       | inl e => Throws e (t, h)
       | inr hv =>
           match m_container t !! N.to_nat (hv mod bucket_count t) with
           | None => Undefined
           | Some b =>
               match find_in_list (hv mod bucket_count t) k b with
               | Some p => Returns {| m_idx := hv mod bucket_count t; m_it := p |} (t, h)
               | None => Returns (end_ t) (t, h)
               end
           end
       end.
Proof.
  unfold HashSet.find, mbind, M_bind, get_this, mret, M_ret, HashSet._bucket, HashSet._find.
  cbn [fst snd]. case_bool_decide; [done|].
  rewrite bool_decide_eq_false_2 by done.
  destruct (m_hasher k) as [e|hv]; [done|]. cbn [fst snd].
  destruct (m_container t !! N.to_nat (hv mod bucket_count t)) as [b|]; [|done].
  by destruct (find_in_list (hv mod bucket_count t) k b).
Qed.

Lemma find_in_list_not_end idx (k : T) (b : bucket_list) (p : node_ptr) (t : hash_set) :
  idx < bucket_count t → {| m_idx := idx; m_it := p |} ≠ end_ t.
Proof. unfold end_. intros Hlt [= Heq _]. lia. Qed.

Lemma no_buckets_no_elements (t : hash_set) : bucket_count t = 0 → elements t = [].
Proof. intros Hz. unfold elements. by rewrite (bucket_count_zero t Hz). Qed.

Lemma elements_bucket_count (t : hash_set) (x : T) : x ∈ elements t → bucket_count t ≠ 0.
Proof.
  intros Hx Hz. rewrite (no_buckets_no_elements t Hz) in Hx. by apply elem_of_nil in Hx.
Qed.

(** [find] on a key the hasher accepts: the table is left alone, and the
    result is [end()] exactly when no element of the destination bucket
    compares equal to the key. *)
Lemma find_returns (k : T) (hv : N) (t : hash_set) (h : heap) :
  m_hasher k = inr hv → bucket_count t ≠ 0 →
  ∃ b, m_container t !! N.to_nat (hv mod bucket_count t) = Some b ∧
    find k (t, h) =
    Returns (match find_in_list (hv mod bucket_count t) k b with
             | Some p => {| m_idx := hv mod bucket_count t; m_it := p |}
             | None => end_ t
             end) (t, h).
Proof.
  intros Hk Hbc. destruct (lookup_bucket_lt t _ (N.mod_lt hv _ Hbc)) as [b Hb].
  exists b. split; [done|]. rewrite find_unfold, bool_decide_eq_false_2, Hk, Hb by done.
  by destruct (find_in_list (hv mod bucket_count t) k b).
Qed.

Lemma find_membership (k : T) (hv : N) (t : hash_set) (h : heap) :
  m_hasher k = inr hv → placed t →
  (∀ x y, m_key_equal x y = true → m_hasher x = m_hasher y) →
  ∃ it, find k (t, h) = Returns it (t, h) ∧
    (it = end_ t ↔ ∀ x, x ∈ elements t → m_key_equal x k = false).
Proof.
  intros Hk Hpl Hcompat. destruct (decide (bucket_count t = 0)) as [Hz|Hbc].
  - exists (end_ t). rewrite find_unfold, bool_decide_eq_true_2 by done.
    split; [done|]. split; [|done]. intros _ x Hx.
    rewrite (no_buckets_no_elements t Hz) in Hx. by apply elem_of_nil in Hx.
  - destruct (find_returns k hv t h Hk Hbc) as (b & Hb & ->).
    eexists. split; [done|].
    destruct (find_in_list (hv mod bucket_count t) k b) as [p|] eqn:Hf.
    + split.
      * intros Heq. exfalso. revert Heq. apply (find_in_list_not_end _ k b).
        by apply N.mod_lt.
      * intros Hall. pose proof (present_in_table _ k t b p Hb Hf) as He.
        apply existsb_elem_of in He as (x & Hx & Hxk). rewrite (Hall x Hx) in Hxk. done.
    + split; [|done]. intros _.
      apply existsb_false_elem_of. by apply (absent_from_table Hcompat k hv t b).
Qed.

(** X1. [find(k)] never changes the table. On a table without buckets it
    returns [end()] without calling the hasher. On a table with buckets it
    throws what the hasher throws on [k]; when the hasher accepts [k], every
    stored key sits in the bucket its hash selects, equal keys hash alike
    and the table agrees with the free store, [find(k)] returns [end()]
    exactly when no element of the table compares equal to [k], and
    otherwise an iterator into the bucket that the hash of [k] selects,
    which dereferences to an element of the table that compares equal to
    [k]. *)
Theorem find_spec (t : hash_set) (h : heap) (k : T) :
  (bucket_count t = 0 → find k (t, h) = Returns (end_ t) (t, h)) ∧
  (∀ e, bucket_count t ≠ 0 → m_hasher k = inl e → find k (t, h) = Throws e (t, h)) ∧
  (∀ hv, m_hasher k = inr hv → placed t → heap_wf (t, h) →
     (∀ x y, m_key_equal x y = true → m_hasher x = m_hasher y) →
     ∃ it, find k (t, h) = Returns it (t, h) ∧
       (it = end_ t ↔ ∀ x, x ∈ elements t → m_key_equal x k = false) ∧
       (it ≠ end_ t →
        m_idx it = hv mod bucket_count t ∧
        ∃ y, dereference t it = Some y ∧ y ∈ elements t ∧ m_key_equal y k = true)).
Proof.
  split; [|split].
  - intros Hz. by rewrite find_unfold, bool_decide_eq_true_2.
  - intros e Hbc Hk. by rewrite find_unfold, bool_decide_eq_false_2, Hk.
  - intros hv Hk Hpl Hwf Hcompat.
    destruct (find_membership k hv t h Hk Hpl Hcompat) as (it & Hf & Hend).
    exists it. split; [done|]. split; [done|]. intros Hne.
    destruct (decide (bucket_count t = 0)) as [Hz|Hbc].
    { rewrite find_unfold, bool_decide_eq_true_2 in Hf by done. congruence. }
    destruct (find_returns k hv t h Hk Hbc) as (b & Hb & Hf').
    rewrite Hf' in Hf. injection Hf as <-.
    destruct (find_in_list (hv mod bucket_count t) k b) as [p|] eqn:Hfl; [|done].
    split; [done|].
    destruct (find_in_list_Some _ k b p t (heap_wf_bucket _ _ _ _ Hwf Hb) Hb Hfl)
      as (y & Hd & Hy & Hyk).
    exists y. split; [done|]. split; [|done]. apply elem_of_elements. eauto.
Qed.

(** ** [insert], then [find] *)

Lemma finish_insert_inv (k : T) (idx : N) (s s' : hash_set * heap) (r : iterator * bool) :
  finish_insert k idx s = Returns r s' →
  ∃ b, m_container s.1 !! N.to_nat idx = Some b ∧
    r = ({| m_idx := idx; m_it := (list_insert idx k b s.2).1.2 |}, true) ∧
    m_container s'.1 = <[N.to_nat idx := (list_insert idx k b s.2).1.1]> (m_container s.1) ∧
    m_n_elements s'.1 = m_n_elements s.1 + 1 ∧
    s'.2 = (list_insert idx k b s.2).2.
Proof.
  unfold HashSet.finish_insert, mbind, M_bind, mret, M_ret, modify_this.
  destruct (_unique_insert (T_copy_throws k) k idx s) as [it s1|e1 s1|] eqn:Hu; [|done..].
  intros [= <- <-]. apply _unique_insert_inv in Hu as (b & _ & Hb & Hs1 & Hh1 & ->).
  exists b. cbn [fst snd]. rewrite Hs1, Hh1. done.
Qed.

(** The bucket that receives a new key: the key alone in the embedded
    node, or in a new heap node right after the embedded one. *)
Lemma list_insert_cases idx (k : T) (b : bucket_list) (h : heap) :
  (b = empty_list ∧ (list_insert idx k b h).1.1 = nodes k [] ∧
   (list_insert idx k b h).1.2 = m_node_of idx) ∨
  (∃ x rest, b = nodes x rest ∧
     (list_insert idx k b h).1.1 = nodes x ((fresh h, k) :: rest) ∧
     (list_insert idx k b h).1.2 = heap_node (fresh h)).
Proof. destruct b as [|x rest]; [by left|right; by exists x, rest]. Qed.

(** An [insert] that reports an existing element. *)
Lemma insert_existing_inv (k : T) (t : hash_set) (h : heap) (r : iterator * bool)
    (s' : hash_set * heap) :
  insert k (t, h) = Returns r s' → r.2 = false →
  s' = (t, h) ∧ bucket_count t ≠ 0 ∧
  ∃ hv b p, m_hasher k = inr hv ∧
    m_container t !! N.to_nat (hv mod bucket_count t) = Some b ∧
    find_in_list (hv mod bucket_count t) k b = Some p ∧
    r.1 = {| m_idx := hv mod bucket_count t; m_it := p |}.
Proof.
  assert (∀ t, bucket_count t ≠ 0 → insert k (t, h) = Returns r s' → r.2 = false →
    s' = (t, h) ∧
    ∃ hv b p, m_hasher k = inr hv ∧
      m_container t !! N.to_nat (hv mod bucket_count t) = Some b ∧
      find_in_list (hv mod bucket_count t) k b = Some p ∧
      r.1 = {| m_idx := hv mod bucket_count t; m_it := p |}) as Hnz.
  { clear t. intros t Hbc. rewrite (insert_unfold k t h Hbc).
    destruct (m_hasher k) as [e|hv] eqn:Hk; [done|]. cbn zeta.
    destruct (m_container t !! N.to_nat (hv mod bucket_count t)) as [b|] eqn:Hb; [|done].
    destruct (find_in_list (hv mod bucket_count t) k b) as [p|] eqn:Hf.
    - intros [= <- <-] _. split; [done|]. by exists hv, b, p.
    - case_bool_decide; [done|].
      assert (∀ idx s, finish_insert k idx s = Returns r s' → r.2 = false → False) as Hfin.
      { intros idx s Hr Hflag. apply finish_insert_inv in Hr as (? & _ & -> & _). done. }
      destruct (load_factor_exceeded t).
      + destruct (_increase_size (t, h)) as [u s2| |]; [|done..].
        destruct (_bucket k s2) as [idx2 s3| |]; [|done..].
        intros Hr Hflag. destruct (Hfin _ _ Hr Hflag).
      + intros Hr Hflag. destruct (Hfin _ _ Hr Hflag). }
  destruct (decide (bucket_count t = 0)) as [Hz|Hbc].
  - rewrite (insert_zero_buckets k t h Hz). intros Hi Hflag.
    apply Hnz in Hi as (_ & hv & b & p & _ & Hb & Hf & _); [|by unfold bucket_count|done].
    unfold bucket_count in Hb. cbn [m_container length] in Hb.
    rewrite N.mod_1_r in Hb. injection Hb as <-. done.
  - intros Hi Hflag. destruct (Hnz t Hbc Hi Hflag) as (? & ?). done.
Qed.

Section lookup.
Hypothesis hash_compat : ∀ x y, m_key_equal x y = true → m_hasher x = m_hasher y.

(** An [insert] that places the key: where the key is afterwards. *)
Lemma insert_new_inv (k : T) (t t' : hash_set) (h h' : heap) (r : iterator * bool) :
  placed t → insert k (t, h) = Returns r (t', h') → r.2 = true →
  ∃ hv b', m_hasher k = inr hv ∧ bucket_count t' ≠ 0 ∧
    m_idx r.1 = hv mod bucket_count t' ∧
    m_container t' !! N.to_nat (hv mod bucket_count t') = Some b' ∧
    ((b' = nodes k [] ∧ m_it r.1 = m_node_of (hv mod bucket_count t')) ∨
     (∃ x a rest, b' = nodes x ((a, k) :: rest) ∧ m_it r.1 = heap_node a ∧
        m_key_equal x k = false)).
Proof.
  assert (∀ (t2 : hash_set) (h2 : heap) (hv : N),
    bucket_count t2 ≠ 0 → m_hasher k = inr hv →
    (∀ b, m_container t2 !! N.to_nat (hv mod bucket_count t2) = Some b →
          ∀ x, x ∈ list_elements b → m_key_equal x k = false) →
    finish_insert k (hv mod bucket_count t2) (t2, h2) = Returns r (t', h') →
    ∃ hv b', m_hasher k = inr hv ∧ bucket_count t' ≠ 0 ∧
      m_idx r.1 = hv mod bucket_count t' ∧
      m_container t' !! N.to_nat (hv mod bucket_count t') = Some b' ∧
      ((b' = nodes k [] ∧ m_it r.1 = m_node_of (hv mod bucket_count t')) ∨
       (∃ x a rest, b' = nodes x ((a, k) :: rest) ∧ m_it r.1 = heap_node a ∧
          m_key_equal x k = false))) as Hfin.
  { intros t2 h2 hv Hbc2 Hk Habs Hr.
    pose proof (finish_insert_bucket_count _ _ _ _ _ Hr) as Hbc'. cbn [fst] in Hbc'.
    apply finish_insert_inv in Hr as (b & Hb & -> & Hc & _ & _). cbn [fst snd] in *.
    exists hv. eexists. split; [done|]. rewrite Hbc'. split; [done|]. split; [done|].
    split.
    { rewrite Hc. apply list_lookup_insert_eq. by eapply lookup_lt_Some. }
    destruct (list_insert_cases (hv mod bucket_count t2) k b h2)
      as [(-> & -> & ->)|(x & rest & -> & -> & ->)]; [by left|].
    right. exists x, (fresh h2), rest. split; [done|]. split; [done|].
    apply (Habs _ Hb). left. }
  assert (∀ t, bucket_count t ≠ 0 → placed t → insert k (t, h) = Returns r (t', h') →
    r.2 = true →
    ∃ hv b', m_hasher k = inr hv ∧ bucket_count t' ≠ 0 ∧
      m_idx r.1 = hv mod bucket_count t' ∧
      m_container t' !! N.to_nat (hv mod bucket_count t') = Some b' ∧
      ((b' = nodes k [] ∧ m_it r.1 = m_node_of (hv mod bucket_count t')) ∨
       (∃ x a rest, b' = nodes x ((a, k) :: rest) ∧ m_it r.1 = heap_node a ∧
          m_key_equal x k = false))) as Hnz.
  { clear t. intros t Hbc Hpl. rewrite (insert_unfold k t h Hbc).
    destruct (m_hasher k) as [e|hv] eqn:Hk; [done|]. cbn zeta.
    destruct (m_container t !! N.to_nat (hv mod bucket_count t)) as [b|] eqn:Hb; [|done].
    destruct (find_in_list (hv mod bucket_count t) k b) as [p|] eqn:Hf;
      [by intros [= <- _ _]|].
    pose proof (absent_from_table hash_compat k hv t b Hpl Hk Hb Hf) as Habs.
    case_bool_decide; [done|].
    destruct (load_factor_exceeded t).
    - destruct (_increase_size (t, h)) as [u [t2 h2]| |] eqn:Hinc; [|done..].
      apply increase_size_returns_inv in Hinc as (n & _ & Hr).
      apply rehash_returns_inv in Hr as (_ & _ & Hel2 & _). cbn [fst] in *.
      destruct (_bucket k (t2, h2)) as [idx2 s3| |] eqn:Hb2; [|done..].
      apply _bucket_inv in Hb2 as (-> & Hbc2 & _ & hv2 & Hk2 & ->). cbn [fst] in *.
      assert (hv2 = hv) as -> by congruence.
      intros Hr _. apply (Hfin t2 h2 hv Hbc2 eq_refl); [|done].
      intros b2 Hb2 x Hx. apply (proj1 (existsb_false_elem_of _ _) Habs).
      rewrite <- Hel2. apply elem_of_elements. eauto.
    - intros Hr _. apply (Hfin t h hv Hbc eq_refl); [|done].
      intros b2 Hb2 x Hx. rewrite Hb in Hb2. injection Hb2 as <-.
      by apply (proj1 (find_in_list_None _ k b) Hf). }
  intros Hpl. destruct (decide (bucket_count t = 0)) as [Hz|Hbc]; [|by apply Hnz].
  rewrite (insert_zero_buckets k t h Hz). apply Hnz; [by unfold bucket_count|].
  intros i b x Hi Hx. destruct i as [|i]; [|done]. injection Hi as <-.
  by apply elem_of_nil in Hx.
Qed.

(** After a returning [insert(k)], [find(k)] returns the iterator that
    [insert] returned. *)
Lemma find_after_insert (k : T) (t t' : hash_set) (h h' : heap) (r : iterator * bool) :
  placed t → heap_wf (t, h) → m_key_equal k k = true →
  insert k (t, h) = Returns r (t', h') →
  find k (t', h') = Returns r.1 (t', h') ∧ r.1 ≠ end_ t' ∧
  ∃ y, dereference t' r.1 = Some y ∧ m_key_equal y k = true ∧ (r.2 = true → y = k).
Proof.
  intros Hpl Hwf Hrefl Hi. destruct r as [it flag]. destruct flag.
  - destruct (insert_new_inv k t t' h h' _ Hpl Hi eq_refl)
      as (hv & b' & Hk & Hbc' & Hidx & Hb' & Hcase).
    cbn [fst snd] in *. destruct it as [idx p]. cbn [m_idx m_it] in *. subst idx.
    assert (find_in_list (hv mod bucket_count t') k b' = Some p ∧
            dereference t' {| m_idx := hv mod bucket_count t'; m_it := p |} = Some k)
      as [Hf Hd].
    { unfold dereference. cbn [m_idx m_it]. rewrite Hb'.
      destruct Hcase as [[-> ->]|(x & a & rest & -> & -> & Hx)].
      - cbn [find_in_list]. by rewrite Hrefl, bool_decide_eq_true_2.
      - cbn [find_in_list find_in_rest payload_in_rest].
        by rewrite Hx, Hrefl, bool_decide_eq_true_2. }
    split.
    { destruct (find_returns k hv t' h' Hk Hbc') as (b & Hb & ->).
      rewrite Hb' in Hb. injection Hb as <-. by rewrite Hf. }
    split; [apply (find_in_list_not_end _ k b'); by apply N.mod_lt|].
    exists k. done.
  - destruct (insert_existing_inv k t h _ _ Hi eq_refl)
      as ([= -> ->] & Hbc & hv & b & p & Hk & Hb & Hf & Hit).
    cbn [fst snd] in *. subst it.
    split.
    { destruct (find_returns k hv t h Hk Hbc) as (b0 & Hb0 & ->).
      rewrite Hb in Hb0. injection Hb0 as <-. by rewrite Hf. }
    split; [apply (find_in_list_not_end _ k b); by apply N.mod_lt|].
    destruct (find_in_list_Some _ k b p t (heap_wf_bucket _ _ _ _ Hwf Hb) Hb Hf)
      as (y & Hd & _ & Hyk).
    exists y. done.
Qed.

End lookup.

(** X2. Insert, then look up. On a table in which every stored key sits in
    the bucket its hash selects and which agrees with the free store, with
    equal keys hashing alike and [k] comparing equal to itself: after an
    [insert(k)] that returns [(it, flag)], [find(k)] returns the same
    iterator [it]; it is not [end()] and it dereferences to an element that
    compares equal to [k], which is [k] itself when [flag] is [true]. *)
Theorem insert_then_find (k : T) (t t' : hash_set) (h h' : heap) (r : iterator * bool) :
  placed t → heap_wf (t, h) →
  (∀ x y, m_key_equal x y = true → m_hasher x = m_hasher y) →
  m_key_equal k k = true →
  insert k (t, h) = Returns r (t', h') →
  find k (t', h') = Returns r.1 (t', h') ∧ r.1 ≠ end_ t' ∧
  ∃ y, dereference t' r.1 = Some y ∧ m_key_equal y k = true ∧ (r.2 = true → y = k).
Proof.
  intros Hpl Hwf Hcompat Hrefl Hi.
  destruct (find_after_insert Hcompat k t t' h h' r Hpl Hwf Hrefl Hi) as (Hf & Hne & y & Hd & Hy).
  split; [done|]. split; [done|]. by exists y.
Qed.

(** ** [erase] *)

Lemma erase_unfold (it : iterator) (t : hash_set) (h h' : heap) (p : node_ptr) (b' : bucket_list) :
  m_idx it < bucket_count t →
  _erase it (t, h) = Returns p (set_bucket (m_idx it) b' t, h') →
  erase it (t, h) =
  Returns (if bool_decide (p = list_end (m_idx it) b')
           then iterator_at (set_bucket (m_idx it) b' t)
                  (first_nonempty (m_idx it + 1)
                     (drop (N.to_nat (m_idx it + 1))
                        (m_container (set_bucket (m_idx it) b' t))))
           else {| m_idx := m_idx it; m_it := p |})
          ({| m_container := m_container (set_bucket (m_idx it) b' t);
              m_n_elements := decrement PIRANHA_64BIT_MODE (m_n_elements t) |}, h').
Proof.
  intros Hlt He. unfold HashSet.erase, mbind, M_bind, mret, M_ret, get_this, modify_this.
  rewrite He. cbn [fst snd]. rewrite set_bucket_lookup by done. done.
Qed.

(** After an [erase] through a dereferenceable iterator, on a table that
    satisfies its invariants, the erased key is no longer found. *)
Lemma find_after_erase (t : hash_set) (h : heap) (it : iterator) (x0 : T) :
  (∀ x y, m_key_equal x y = true → m_hasher x = m_hasher y) →
  table_inv t → heap_wf (t, h) → dereference t it = Some x0 →
  ∃ it' t' h', erase it (t, h) = Returns it' (t', h') ∧
    elements t ≡ₚ x0 :: elements t' ∧
    size t = size t' + 1 ∧
    bucket_count t' = bucket_count t ∧
    table_inv t' ∧ heap_wf (t', h') ∧
    find x0 (t', h') = Returns (end_ t') (t', h').
Proof.
  intros Hcompat Hinv Hwf Hd.
  destruct (erase_valid t h it x0 Hinv Hwf Hd) as (it' & t' & h' & He & Hel & Hsz & Hbc & Hinv' & Hwf').
  exists it', t', h'. do 6 (split; [done|]).
  assert (x0 ∈ elements t) as Hx0 by (rewrite Hel; left).
  destruct (placed_hashable t (inv_placed _ _ _ _ Hinv) x0 Hx0) as [hv Hk].
  destruct (find_membership x0 hv t' h' Hk (inv_placed _ _ _ _ Hinv') Hcompat)
    as (itf & Hf & Hend).
  rewrite Hf. f_equal. apply Hend. intros y Hy.
  pose proof (unique_perm _ _ Hel (inv_unique _ _ _ _ Hinv)) as [Hu _].
  by destruct (Hu y Hy).
Qed.

(** X3. Erase, then look up. On a table that satisfies its invariants and
    agrees with the free store, with equal keys hashing alike, [erase]
    through an iterator that can be dereferenced returns; the element the
    iterator pointed to leaves the table and nothing else does, [size()]
    decreases by one, [bucket_count()] stays, the invariants and the
    agreement with the free store are kept, and [find] of the erased key
    then returns [end()]. *)
Theorem erase_then_find (t : hash_set) (h : heap) (it : iterator) (x0 : T) :
  (∀ x y, m_key_equal x y = true → m_hasher x = m_hasher y) →
  table_inv t → heap_wf (t, h) → dereference t it = Some x0 →
  ∃ it' t' h', erase it (t, h) = Returns it' (t', h') ∧
    elements t ≡ₚ x0 :: elements t' ∧
    size t = size t' + 1 ∧
    bucket_count t' = bucket_count t ∧
    table_inv t' ∧ heap_wf (t', h') ∧
    find x0 (t', h') = Returns (end_ t') (t', h').
Proof.
  intros Hcompat Hinv Hwf Hd.
  destruct (find_after_erase t h it x0 Hcompat Hinv Hwf Hd)
    as (it' & t' & h' & He & Hrest).
  by exists it', t', h'.
Qed.

(** ** The first element *)

Lemma first_nonempty_head (bs : list bucket_list) (idx : N) (x : T) (xs : list T) :
  bs ≫= list_elements = x :: xs →
  ∃ (n : nat) (rest : list (addr * T)),
    first_nonempty idx bs = idx + N.of_nat n ∧ bs !! n = Some (nodes x rest) ∧
    (∀ i b, (i < n)%nat → bs !! i = Some b → b = empty_list) ∧
    xs = rest.*2 ++ (drop (S n) bs ≫= list_elements).
Proof.
  revert idx. induction bs as [|b bs IH]; intros idx; [done|].
  rewrite bind_cons. destruct b as [|y rest]; cbn [list_elements app first_nonempty list_empty].
  - intros Hel. destruct (IH (idx + 1) Hel) as (n & rest & Hf & Hn & Hpre & Hxs).
    exists (S n), rest. split; [rewrite Hf; lia|]. split; [done|]. split; [|done].
    intros i b Hi Hb. destruct i as [|i]; [by injection Hb as <-|].
    apply (Hpre i); [lia|done].
  - intros [= -> <-]. exists 0%nat, rest. split; [lia|]. split; [done|].
    split; [intros i b Hi; lia|done].
Qed.

Lemma first_nonempty_prefix_empty (m : nat) (bs : list bucket_list) (idx : N) :
  (∀ i b, (i < m)%nat → bs !! i = Some b → b = empty_list) → (m ≤ length bs)%nat →
  first_nonempty idx bs = first_nonempty (idx + N.of_nat m) (drop m bs) ∧
  bs ≫= list_elements = drop m bs ≫= list_elements.
Proof.
  revert bs idx. induction m as [|m IH]; intros bs idx Hpre Hlen.
  - rewrite drop_0. split; [f_equal; lia|done].
  - destruct bs as [|b bs]; [cbn [length] in Hlen; lia|].
    assert (b = empty_list) as -> by (apply (Hpre 0%nat); [lia|done]).
    cbn [first_nonempty list_empty drop]. rewrite bind_cons. cbn [list_elements app].
    destruct (IH bs (idx + 1)) as [Hf Hel].
    + intros i b Hi Hb. apply (Hpre (S i)); [lia|done].
    + cbn [length] in Hlen. lia.
    + split; [rewrite Hf; f_equal; lia|done].
Qed.

Lemma iterator_at_ext (t t' : hash_set) (idx : N) :
  bucket_count t' = bucket_count t → iterator_at t' idx = iterator_at t idx.
Proof. intros Hbc. unfold iterator_at. by rewrite Hbc. Qed.

(** [begin()] of a table that holds an element: the embedded node of the
    first bucket that is not empty. *)
Lemma begin_nonempty (t : hash_set) (x : T) (xs : list T) :
  elements t = x :: xs →
  ∃ (n : nat) (rest : list (addr * T)),
    begin_ t = {| m_idx := N.of_nat n; m_it := m_node_of (N.of_nat n) |} ∧
    m_container t !! n = Some (nodes x rest) ∧
    (∀ i b, (i < n)%nat → m_container t !! i = Some b → b = empty_list) ∧
    xs = rest.*2 ++ elements_from (S n) t.
Proof.
  intros Hel. destruct (first_nonempty_head (m_container t) 0 x xs Hel)
    as (n & rest & Hf & Hn & Hpre & Hxs).
  exists n, rest. split; [|done].
  unfold begin_, iterator_at. rewrite Hf, N.add_0_l.
  rewrite bool_decide_eq_false_2; [done|].
  apply lookup_lt_Some in Hn. unfold bucket_count. lia.
Qed.

Lemma erase_first (t : hash_set) (h : heap) (x : T) (xs : list T) :
  elements t = x :: xs →
  ∃ t' h', erase (begin_ t) (t, h) = Returns (begin_ t') (t', h') ∧
    dereference t (begin_ t) = Some x ∧
    elements t' = xs ∧
    bucket_count t' = bucket_count t ∧
    m_n_elements t' = decrement PIRANHA_64BIT_MODE (m_n_elements t) ∧
    (h' = h ∨ ∃ a, h' = h ∖ {[a]}).
Proof.
  intros Hel. destruct (begin_nonempty t x xs Hel) as (n & rest & -> & Hn & Hpre & Hxs).
  set (idx := N.of_nat n). set (it := {| m_idx := idx; m_it := m_node_of idx |}).
  assert (N.to_nat idx = n) as Hidx by (unfold idx; lia).
  assert (m_container t !! N.to_nat idx = Some (nodes x rest)) as Hb by (by rewrite Hidx).
  pose proof (lookup_bucket_Some _ _ _ Hb) as Hlt.
  pose proof (lookup_lt_Some _ _ _ Hn) as Hlen.
  assert (dereference t it = Some x) as Hd.
  { unfold dereference, it. cbn [m_idx m_it]. by rewrite Hb, bool_decide_eq_true_2. }
  destruct rest as [|[a y] rest'].
  - assert (_erase it (t, h) =
            Returns (list_end idx (@empty_list T)) (set_bucket idx empty_list t, h)) as He.
    { unfold _erase, it. cbn [fst snd m_idx m_it]. rewrite Hb.
      by rewrite bool_decide_eq_true_2. }
    rewrite (erase_unfold it t h h _ _ Hlt He). cbn [m_idx it].
    rewrite bool_decide_eq_true_2 by done.
    eexists _, _. split; [|split; [exact Hd|]].
    + f_equal. unfold begin_. cbn [m_container set_bucket].
      rewrite (iterator_at_ext (set_bucket idx empty_list t)
                 {| m_container := <[N.to_nat idx:=empty_list]> (m_container t);
                    m_n_elements := decrement PIRANHA_64BIT_MODE (m_n_elements t) |}) by done.
      f_equal.
      destruct (first_nonempty_prefix_empty (S n) (<[N.to_nat idx:=empty_list]> (m_container t)) 0)
        as [-> _].
      * intros i b Hi Hbi. rewrite Hidx in Hbi.
        destruct (decide (i = n)) as [->|Hne].
        -- rewrite list_lookup_insert_eq in Hbi by done. by injection Hbi as <-.
        -- rewrite list_lookup_insert_ne in Hbi by done. apply (Hpre i); [lia|done].
      * rewrite length_insert. lia.
      * rewrite N.add_0_l. do 2 f_equal; lia.
    + unfold elements. cbn [m_container set_bucket fst snd].
      destruct (first_nonempty_prefix_empty (S n) (<[N.to_nat idx:=empty_list]> (m_container t)) 0)
        as [_ ->].
      * intros i b Hi Hbi. rewrite Hidx in Hbi.
        destruct (decide (i = n)) as [->|Hne].
        -- rewrite list_lookup_insert_eq in Hbi by done. by injection Hbi as <-.
        -- rewrite list_lookup_insert_ne in Hbi by done. apply (Hpre i); [lia|done].
      * rewrite length_insert. lia.
      * rewrite Hidx, drop_insert_lt by lia. split; [by rewrite Hxs|].
        split; [unfold bucket_count; cbn [m_container]; by rewrite length_insert|].
        split; [done|by left].
  - assert (_erase it (t, h) =
            Returns (list_begin idx) (set_bucket idx (nodes y rest') t, h ∖ {[a]})) as He.
    { unfold _erase, it. cbn [fst snd m_idx m_it]. rewrite Hb.
      by rewrite bool_decide_eq_true_2. }
    rewrite (erase_unfold it t h _ _ _ Hlt He). cbn [m_idx it].
    rewrite bool_decide_eq_false_2 by done.
    assert (drop n (<[N.to_nat idx:=nodes y rest']> (m_container t)) =
            nodes y rest' :: drop (S n) (m_container t)) as Hdrop.
    { rewrite Hidx, insert_take_drop by done.
      apply drop_app_length'. rewrite length_take. lia. }
    assert (∀ i b, (i < n)%nat →
              <[N.to_nat idx:=nodes y rest']> (m_container t) !! i = Some b → b = empty_list)
      as Hpre'.
    { intros i b Hi Hbi. rewrite Hidx, list_lookup_insert_ne in Hbi by lia.
      by apply (Hpre i). }
    destruct (first_nonempty_prefix_empty n (<[N.to_nat idx:=nodes y rest']> (m_container t)) 0
                Hpre') as [Hf Hels]; [rewrite length_insert; lia|].
    eexists _, _. split; [|split; [exact Hd|]].
    + f_equal. unfold begin_, iterator_at. cbn [m_container set_bucket].
      rewrite Hf, Hdrop, N.add_0_l. cbn [first_nonempty list_empty].
      rewrite bool_decide_eq_false_2; [done|].
      unfold bucket_count. cbn [m_container]. rewrite length_insert. lia.
    + unfold elements. cbn [m_container set_bucket fst snd].
      rewrite Hels, Hdrop, bind_cons. cbn [list_elements].
      split; [by rewrite Hxs|].
      split; [unfold bucket_count; cbn [m_container]; by rewrite length_insert|].
      split; [done|right; by exists a].
Qed.

(** X4. [erase(begin())] on a table that holds an element: [begin()]
    dereferences to the first element of the iteration order, the call
    removes exactly that element, keeping the order of the others, and
    returns [begin()] of the table it leaves; [bucket_count()] stays,
    the count of elements is decremented and at most one heap node is
    deallocated. *)
Theorem erase_begin (t : hash_set) (h : heap) (x : T) (xs : list T) :
  elements t = x :: xs →
  ∃ t' h', erase (begin_ t) (t, h) = Returns (begin_ t') (t', h') ∧
    dereference t (begin_ t) = Some x ∧
    elements t' = xs ∧
    bucket_count t' = bucket_count t ∧
    m_n_elements t' = decrement PIRANHA_64BIT_MODE (m_n_elements t) ∧
    (h' = h ∨ ∃ a, h' = h ∖ {[a]}).
Proof.
  intros Hel. destruct (erase_first t h x xs Hel) as (t' & h' & He & Hrest).
  by exists t', h'.
Qed.

(** ** Iteration and [size()] *)

Lemma begin_end_iff (t : hash_set) : begin_ t = end_ t ↔ elements t = [].
Proof.
  destruct (elements t) as [|x xs] eqn:Hel.
  - split; [done|]. intros _. unfold begin_, elements in *.
    destruct (first_nonempty_spec (m_container t) 0)
      as [[Hf _]|(n & x & rest & _ & _ & Hel')]; [|congruence].
    rewrite Hf, N.add_0_l. unfold iterator_at, end_.
    by rewrite bool_decide_eq_true_2.
  - split; [|done]. destruct (begin_nonempty t x xs Hel) as (n & rest & -> & Hn & _).
    unfold end_. by intros [=].
Qed.

(** X5. A full iteration, [for (it = begin(); it != end(); ++it)], on a
    table that satisfies its invariants and agrees with the free store,
    makes exactly [size()] steps and visits the elements of the table, each
    once; [begin()] is [end()] exactly when [empty()] holds, and otherwise
    [begin()] dereferences to the first element visited. *)
Theorem full_iteration (t : hash_set) (h : heap) :
  table_inv t → heap_wf (t, h) →
  traverse (N.to_nat (size t)) t (begin_ t) = Some (elements t) ∧
  N.of_nat (length (elements t)) = size t ∧
  (begin_ t = end_ t ↔ empty t = true) ∧
  (∀ x xs, elements t = x :: xs → dereference t (begin_ t) = Some x).
Proof.
  intros Hinv Hwf. pose proof (inv_count _ _ _ _ Hinv) as Hn. unfold size.
  split; [|split; [done|split]].
  - apply (traverse_elements t h); [done|]. rewrite Hn. lia.
  - rewrite begin_end_iff. unfold empty, size. rewrite Hn.
    destruct (elements t) as [|x xs]; cbn [length].
    + rewrite bool_decide_eq_false_2; [done|]. intros Hne. by apply Hne.
    + rewrite bool_decide_eq_true_2 by lia. done.
  - intros x xs Hel. destruct (begin_nonempty t x xs Hel) as (n & rest & -> & Hb & _).
    unfold dereference. cbn [m_idx m_it]. rewrite Nat2N.id, Hb.
    by rewrite bool_decide_eq_true_2.
Qed.

(** ** The load factor *)

Lemma rehash_to_size_class (n : N) (s s' : hash_set * heap) (u : unit) :
  n ∈ table_sizes → rehash n s = Returns u s' → bucket_count s'.1 = n.
Proof.
  intros Hn Hr. apply rehash_returns_inv in Hr as ((_ & Hle & Hmin) & _).
  apply N.le_antisymm; [by apply Hmin|done].
Qed.

Lemma increase_size_next (t t' : hash_set) (h h' : heap) (u : unit) :
  bucket_count t ∈ table_sizes → _increase_size (t, h) = Returns u (t', h') →
  next_size_class (bucket_count t) = Some (bucket_count t') ∧
  bucket_count t < bucket_count t' ∧ m_n_elements t' = m_n_elements t.
Proof.
  intros Hc Hinc. apply increase_size_returns_inv in Hinc as (n & Hn & Hr).
  assert (n ∈ table_sizes) as Hin by (apply list_elem_of_lookup; eauto).
  pose proof (rehash_to_size_class n _ _ _ Hin Hr) as Hbc. cbn [fst] in Hbc.
  apply rehash_returns_inv in Hr as (_ & Hcount & _). cbn [fst] in *.
  assert (next_size_class (bucket_count t) = Some n) as Hnext by done.
  rewrite Hbc. split; [done|]. split; [by eapply next_size_class_gt|done].
Qed.

(** How a returning [insert] moves the bucket count and the count of
    elements on a table that has buckets. *)
Lemma insert_returns_counts (k : T) (t t' : hash_set) (h h' : heap) (r : iterator * bool) :
  bucket_count t ≠ 0 → bucket_count t ∈ table_sizes →
  insert k (t, h) = Returns r (t', h') →
  (r.2 = false ∧ t' = t) ∨
  (r.2 = true ∧ m_n_elements t' = m_n_elements t + 1 ∧
   ((m_n_elements t + 1 ≤ bucket_count t ∧ bucket_count t' = bucket_count t) ∨
    (bucket_count t < m_n_elements t + 1 ∧
     next_size_class (bucket_count t) = Some (bucket_count t') ∧
     bucket_count t < bucket_count t'))).
Proof.
  intros Hbc Hc. rewrite (insert_unfold k t h Hbc).
  destruct (m_hasher k) as [e|hv] eqn:Hk; [done|]. cbn zeta.
  destruct (m_container t !! N.to_nat (hv mod bucket_count t)) as [b|]; [|done].
  destruct (find_in_list (hv mod bucket_count t) k b) as [p|]; [intros [= <- <- _]; by left|].
  case_bool_decide; [done|].
  destruct (load_factor_exceeded t) eqn:Hlf.
  - apply load_factor_exceeded_iff in Hlf; [|done].
    destruct (_increase_size (t, h)) as [u [t2 h2]| |] eqn:Hinc; [|done..].
    destruct (increase_size_next t t2 h h2 u Hc Hinc) as (Hnext & Hgt & Hcount).
    destruct (_bucket k (t2, h2)) as [idx2 s3| |] eqn:Hb2; [|done..].
    apply _bucket_inv in Hb2 as (-> & _).
    intros Hr. pose proof (finish_insert_bucket_count _ _ _ _ _ Hr) as Hbc'.
    apply finish_insert_inv in Hr as (b2 & _ & -> & _ & Hn & _). cbn [fst snd] in *.
    right. split; [done|]. split; [lia|]. right. rewrite Hbc'. done.
  - assert (¬ bucket_count t < m_n_elements t + 1) as Hle.
    { intros Hlt. apply load_factor_exceeded_iff in Hlt; [congruence|done]. }
    intros Hr. pose proof (finish_insert_bucket_count _ _ _ _ _ Hr) as Hbc'.
    apply finish_insert_inv in Hr as (b2 & _ & -> & _ & Hn & _). cbn [fst snd] in *.
    right. split; [done|]. split; [done|]. left. split; [lia|done].
Qed.

Lemma next_size_class_zero : next_size_class 0 = Some 1.
Proof.
  unfold HashSet.next_size_class, HashSet.table_sizes. by destruct PIRANHA_64BIT_MODE.
Qed.

(** X6. The load factor. On a table whose bucket count is a size class and
    whose [size()] does not exceed [bucket_count()], an [insert] that
    returns leaves [size() <= bucket_count()] (the load factor stays at most
    1), never lowers the bucket count, and raises it by at most one size
    class; an [insert] that throws leaves [size() <= bucket_count()] as
    well. *)
Theorem insert_keeps_load_factor (k : T) (t : hash_set) (h : heap) :
  bucket_count t ∈ table_sizes → size t ≤ bucket_count t →
  (∀ r t' h', insert k (t, h) = Returns r (t', h') →
     size t' ≤ bucket_count t' ∧ bucket_count t' ∈ table_sizes ∧
     (bucket_count t' = bucket_count t ∨
      (next_size_class (bucket_count t) = Some (bucket_count t') ∧
       bucket_count t < bucket_count t'))) ∧
  (∀ e t' h', insert k (t, h) = Throws e (t', h') → size t' ≤ bucket_count t').
Proof.
  intros Hc Hload. unfold size in *. split.
  - intros r t' h' Hi.
    pose proof (insert_returns_class k t h r (t', h') Hc Hi) as Hc'. cbn [fst] in Hc'.
    destruct (decide (bucket_count t = 0)) as [Hz|Hbc].
    + rewrite (insert_zero_buckets k t h Hz) in Hi.
      assert (bucket_count (one_bucket t) = 1) as Hb1 by done.
      assert (m_n_elements t = 0) as Hn0 by lia.
      rewrite Hz. rewrite next_size_class_zero.
      apply (insert_returns_counts k (one_bucket t)) in Hi
        as [[_ ->]|(_ & Hn & [[_ Hsame]|(Hlt & _)])];
        [| | |by rewrite Hb1|rewrite Hb1; apply table_sizes_1];
        rewrite ?Hb1 in *; cbn [one_bucket m_n_elements] in *.
      * split; [lia|]. split; [apply table_sizes_1|]. right. split; [done|lia].
      * split; [lia|]. split; [done|]. right. rewrite Hsame. split; [done|lia].
      * lia.
    + apply insert_returns_counts in Hi
        as [[_ ->]|(_ & Hn & [[Hle Hsame]|(Hlt & Hnext & Hgt)])]; [| | |done..].
      * split; [done|]. split; [done|]. by left.
      * split; [lia|]. split; [done|]. by left.
      * split; [lia|]. split; [done|]. by right.
  - intros e t' h' Hi.
    apply insert_throws_inv in Hi as [[= -> ->]|[Hcl|[[Hz [= -> ->]]|(_ & _ & _ & Hinc)]]].
    + done.
    + cbn [fst] in Hcl. by subst t'.
    + assert (bucket_count (one_bucket t) = 1) as -> by done.
      unfold one_bucket. cbn [m_n_elements]. lia.
    + destruct (increase_size_next t t' h h' () Hc Hinc) as (_ & Hgt & ->). lia.
    + intros Hz. lia.
Qed.

(** ** [rehash], then [find] *)

(** X7. [rehash] does not change what [find] finds. On a table in which
    every stored key sits in the bucket its hash selects, with equal keys
    hashing alike, and for a key the hasher accepts: [find(k)] returns
    [end()] after a returning [rehash] exactly when it did before. *)
Theorem rehash_then_find (k : T) (hv n : N) (t t' : hash_set) (h h' : heap) :
  m_hasher k = inr hv → placed t →
  (∀ x y, m_key_equal x y = true → m_hasher x = m_hasher y) →
  rehash n (t, h) = Returns () (t', h') →
  ∃ it it', find k (t, h) = Returns it (t, h) ∧ find k (t', h') = Returns it' (t', h') ∧
    (it = end_ t ↔ it' = end_ t').
Proof.
  intros Hk Hpl Hcompat Hr.
  apply rehash_returns_inv in Hr as (_ & _ & Hel & Hpl'). cbn [fst] in *.
  destruct (find_membership k hv t h Hk Hpl Hcompat) as (it & Hf & Hend).
  destruct (find_membership k hv t' h' Hk Hpl' Hcompat) as (it' & Hf' & Hend').
  exists it, it'. split; [done|]. split; [done|].
  rewrite Hend, Hend'. split; intros Hall x Hx; apply Hall.
  - by rewrite <- Hel.
  - by rewrite Hel.
Qed.

(** ** [sanity_check] *)

Abbreviation check_bucket := (check_bucket m_hasher).
Abbreviation check_buckets := (check_buckets m_hasher).
Abbreviation sanity_check := (sanity_check PIRANHA_64BIT_MODE m_hasher).

Lemma check_bucket_spec (i : N) (xs : list T) (count : N) (t : hash_set) (h : heap) :
  hashable xs → xs = [] ∨ bucket_count t ≠ 0 →
  ∃ r, check_bucket i xs count (t, h) = Returns r (t, h) ∧
    ((∀ x, x ∈ xs → ∃ hv, m_hasher x = inr hv ∧ hv mod bucket_count t = i) →
     r = Some (count + N.of_nat (length xs))) ∧
    (∀ c, r = Some c →
     ∀ x, x ∈ xs → ∃ hv, m_hasher x = inr hv ∧ hv mod bucket_count t = i).
Proof.
  revert count. induction xs as [|x xs IH]; intros count Hh Hbc.
  - exists (Some count). split; [done|]. split.
    + intros _. cbn [length]. f_equal. lia.
    + intros c _ x Hx. by apply elem_of_nil in Hx.
  - destruct Hbc as [|Hbc]; [done|].
    destruct (Hh x) as [hv Hx]; [left|].
    cbn [HashSet.check_bucket]. unfold mbind, M_bind.
    rewrite (_bucket_returns x t h hv Hbc Hx).
    case_bool_decide as Hi.
    + exists None. split; [done|]. split; [|done].
      intros Hall. destruct (Hall x) as (hv' & Hx' & Hm); [left|]. congruence.
    + destruct (IH (count + 1)) as (r & Hr & Hall & Hsome).
      { intros y Hy. apply Hh. by right. }
      { by right. }
      exists r. split; [done|]. split.
      * intros Hp. rewrite Hall; [cbn [length]; f_equal; lia|].
        intros y Hy. apply Hp. by right.
      * intros c Hc y Hy. apply elem_of_cons in Hy as [->|Hy]; [eauto|].
        by apply (Hsome c).
Qed.

Lemma check_buckets_spec (i : N) (bs : list bucket_list) (count : N) (t : hash_set) (h : heap) :
  hashable (bs ≫= list_elements) → bs ≫= list_elements = [] ∨ bucket_count t ≠ 0 →
  ∃ r, check_buckets i bs count (t, h) = Returns r (t, h) ∧
    ((∀ j b x, bs !! j = Some b → x ∈ list_elements b →
        ∃ hv, m_hasher x = inr hv ∧ hv mod bucket_count t = i + N.of_nat j) →
     r = Some (count + N.of_nat (length (bs ≫= list_elements)))) ∧
    (∀ c, r = Some c →
     ∀ j b x, bs !! j = Some b → x ∈ list_elements b →
       ∃ hv, m_hasher x = inr hv ∧ hv mod bucket_count t = i + N.of_nat j).
Proof.
  revert i count. induction bs as [|b bs IH]; intros i count Hh Hbc.
  - exists (Some count). split; [done|]. split.
    + intros _. cbn. f_equal. lia.
    + intros c _ j b x Hj. done.
  - rewrite bind_cons in Hh, Hbc. cbn [HashSet.check_buckets]. unfold mbind, M_bind.
    destruct (check_bucket_spec i (list_elements b) count t h) as (r & -> & Hall & Hsome).
    { intros x Hx. apply Hh, elem_of_app. by left. }
    { destruct Hbc as [Hnil|Hbc]; [left; by apply app_eq_nil in Hnil as [? _]|by right]. }
    destruct r as [count'|].
    + destruct (IH (i + 1) count') as (r & Hr & Hall' & Hsome').
      { intros x Hx. apply Hh, elem_of_app. by right. }
      { destruct Hbc as [Hnil|Hbc]; [left; by apply app_eq_nil in Hnil as [_ ?]|by right]. }
      exists r. split; [done|]. split.
      * intros Hp. rewrite Hall'.
        -- rewrite bind_cons, length_app.
           assert (Some count' = Some (count + N.of_nat (length (list_elements b)))) as [= ->].
           { apply Hall. intros x Hx. destruct (Hp 0%nat b x eq_refl Hx) as (hv & ? & ?).
             exists hv. split; [done|]. lia. }
           f_equal. lia.
        -- intros j c x Hj Hx. destruct (Hp (S j) c x Hj Hx) as (hv & ? & ?).
           exists hv. split; [done|]. lia.
      * intros c Hc j c' x Hj Hx. destruct j as [|j].
        -- injection Hj as <-. destruct (Hsome count' eq_refl x Hx) as (hv & ? & ?).
           exists hv. split; [done|]. lia.
        -- destruct (Hsome' c Hc j c' x Hj Hx) as (hv & ? & ?).
           exists hv. split; [done|]. lia.
    + exists None. split; [done|]. split; [|done].
      intros Hp. exfalso. assert (@None N = Some (count + N.of_nat (length (list_elements b))))
        as Habs; [|done].
      apply Hall. intros x Hx. destruct (Hp 0%nat b x eq_refl Hx) as (hv & ? & ?).
      exists hv. split; [done|]. lia.
Qed.

Lemma traverse_count_steps (fuel : nat) (t : hash_set) (it : iterator) (xs : list T) :
  traverse fuel t it = Some xs → count_steps fuel t it = Some (N.of_nat (length xs)).
Proof.
  revert it xs. induction fuel as [|fuel IH]; intros it xs; cbn [traverse count_steps];
    case_bool_decide; try done; try (by intros [= <-]).
  destruct (dereference t it) as [x|]; [|done]. cbn.
  destruct (increment t it) as [it'|]; [|done]. cbn.
  destruct (traverse fuel t it') as [xs'|] eqn:Htr; [|done]. cbn.
  intros [= <-]. rewrite (IH it' xs' Htr). cbn. f_equal. lia.
Qed.

Lemma size_class_lookup (t : hash_set) :
  bucket_count t ≤ largest_size →
  ∃ s, table_sizes !! get_size_index t = Some s ∧
       (bucket_count t = s ↔ bucket_count t ∈ table_sizes).
Proof.
  intros Hle. destruct (get_size_from_hint_total (bucket_count t) Hle) as [s Hs].
  unfold HashSet.get_size_from_hint in Hs. unfold HashSet.get_size_index.
  destruct (table_sizes !! lower_bound table_sizes (bucket_count t)) as [s'|] eqn:Hlk; [|done].
  injection Hs as ->. exists s. split; [done|]. split.
  - intros ->. apply list_elem_of_lookup. eauto.
  - intros Hin. pose proof (lower_bound_elem _ _ table_sizes_ascending Hin). congruence.
Qed.

Lemma placed_from_zero (t : hash_set) :
  placed t ↔
  ∀ j b x, m_container t !! j = Some b → x ∈ list_elements b →
    ∃ hv, m_hasher x = inr hv ∧ hv mod bucket_count t = 0 + N.of_nat j.
Proof.
  split; intros Hp j b x Hj Hx; destruct (Hp j b x Hj Hx) as (hv & ? & ?);
    exists hv; (split; [done|lia]).
Qed.

(** What [sanity_check] tests, on a table that agrees with the free store
    and on whose elements the hasher does not throw. *)
Lemma sanity_check_returns (t : hash_set) (h : heap) :
  heap_wf (t, h) → hashable (elements t) → bucket_count t ≤ largest_size →
  ∃ b, sanity_check (t, h) = Returns b (t, h) ∧
    (b = true ↔
     placed t ∧ m_n_elements t = N.of_nat (length (elements t)) ∧
     bucket_count t ∈ table_sizes).
Proof.
  intros Hwf Hh Hle.
  unfold HashSet.sanity_check, mbind, M_bind, get_this, mret, M_ret. cbn [fst snd].
  destruct (check_buckets_spec 0 (m_container t) 0 t h Hh) as (r & -> & Hall & Hsome).
  { destruct (decide (bucket_count t = 0)) as [Hz|Hbc]; [left|by right].
    by apply no_buckets_no_elements. }
  destruct r as [count|].
  - pose proof (proj2 (placed_from_zero t) (Hsome count eq_refl)) as Hpl.
    assert (Some count = Some (0 + N.of_nat (length (elements t)))) as [= ->].
    { apply Hall. by apply placed_from_zero. }
    rewrite N.add_0_l.
    case_bool_decide as Hc.
    { exists false. split; [done|]. split; [done|]. intros (_ & Hn & _). by rewrite Hn in Hc. }
    destruct (size_class_lookup t Hle) as (s & -> & Hs).
    case_bool_decide as Hbc.
    { exists false. split; [done|]. split; [done|]. intros (_ & _ & Hin).
      by apply Hs in Hin. }
    rewrite (traverse_count_steps _ _ _ _ (traverse_elements t h _ Hwf (le_n _))).
    rewrite bool_decide_eq_false_2 by (intros Hne; by apply Hne).
    exists true. split; [done|]. split; [|done]. intros _.
    split; [done|]. split; [done|]. by apply Hs.
  - exists false. split; [done|]. split; [done|]. intros (Hpl & _).
    apply placed_from_zero in Hpl. by specialize (Hall Hpl).
Qed.

(** X8. [sanity_check], the test that the destructor asserts. On a table
    that agrees with the free store, on whose elements the hasher does not
    throw and whose bucket count does not exceed the largest size class,
    [sanity_check] returns, leaves the table alone, and returns [true]
    exactly when every stored key sits in the bucket its hash selects,
    [size()] is the number of stored elements and [bucket_count()] is a
    size class. With a symmetric equality predicate and equal keys hashing
    alike, every table built from a default-constructed one by [insert]
    calls, those that throw being caught, passes [sanity_check]. *)
Theorem sanity_check_spec :
  (∀ (t : hash_set) (h : heap),
     heap_wf (t, h) → hashable (elements t) → bucket_count t ≤ largest_size →
     ∃ b, sanity_check (t, h) = Returns b (t, h) ∧
       (b = true ↔
        placed t ∧ m_n_elements t = N.of_nat (length (elements t)) ∧
        bucket_count t ∈ table_sizes)) ∧
  ((∀ x y, m_key_equal x y = m_key_equal y x) →
   (∀ x y, m_key_equal x y = true → m_hasher x = m_hasher y) →
   ∀ (ks : list T) (h0 : heap),
     ∃ t h ok, insert_each ks (cleared, h0) = Some (t, h, ok) ∧
               sanity_check (t, h) = Returns true (t, h)).
Proof.
  split; [apply sanity_check_returns|].
  intros Hsym Hcompat ks h0.
  destruct (insert_each_inv Hsym Hcompat ks [] cleared h0 cleared_inv (cleared_heap_wf h0))
    as (t & h & ok & He & _ & Hinv & Hwf & _); [done|].
  exists t, h, ok. split; [done|].
  destruct (sanity_check_returns t h Hwf) as (b & Hs & Hb).
  - apply placed_hashable, Hinv.
  - apply table_sizes_le_largest, Hinv.
  - rewrite Hs. f_equal. apply Hb. split; [apply Hinv|]. split; apply Hinv.
Qed.

(** ** No node leaks *)

Lemma _unique_insert_exact (c : option exn) (k : T) (idx : N) (s s' : hash_set * heap)
    (it : iterator) :
  _unique_insert c k idx s = Returns it s' → heap_exact s → heap_exact s'.
Proof.
  intros Hu [Hwf Hex].
  destruct (_unique_insert_owns ∅ _ _ _ _ _ _ Hu) as (_ & Hwf' & _);
    [apply empty_subseteq|done|intros a _; apply not_elem_of_empty|].
  split; [done|]. intros a Ha.
  apply _unique_insert_heap in Hu as [[Hn Hh]|[Hn Hh]].
  - rewrite Hn. apply Hex. by rewrite <- Hh.
  - rewrite Hn. rewrite Hh in Ha. apply elem_of_union in Ha as [Ha|Ha].
    + apply elem_of_singleton in Ha as ->. left.
    + right. by apply Hex.
Qed.

(** The free store after the move-insert loop, however it ends, holds
    what it held before and nodes of the new table. *)
Lemma rehash_loop_bound (xs : list T) (s : hash_set * heap) :
  after (rehash_loop xs s) (λ s',
    (∀ a, a ∈ s'.2 → a ∈ s.2 ∨ a ∈ heap_nodes s'.1) ∧
    (∀ a, a ∈ heap_nodes s.1 → a ∈ heap_nodes s'.1)).
Proof.
  revert s. induction xs as [|x xs IH]; intros s.
  - cbn. split; [by left|done].
  - rewrite rehash_loop_cons.
    destruct (_bucket x s) as [idx s1|e s1|] eqn:Hb; [| |done].
    + apply _bucket_inv in Hb as (-> & _).
      destruct (_unique_insert None x idx s) as [it s2|e s2|] eqn:Hu; [| |done].
      * specialize (IH s2). unfold after in *.
        assert ((∀ a, a ∈ s2.2 → a ∈ s.2 ∨ a ∈ heap_nodes s2.1) ∧
                (∀ a, a ∈ heap_nodes s.1 → a ∈ heap_nodes s2.1)) as [Hh2 Hn2].
        { apply _unique_insert_heap in Hu as [[Hn Hh]|[Hn Hh]].
          - rewrite Hn, Hh. split; [by left|done].
          - split.
            + intros a Ha. rewrite Hh in Ha. apply elem_of_union in Ha as [Ha|Ha]; [|by left].
              apply elem_of_singleton in Ha as ->. right. rewrite Hn. left.
            + intros a Ha. rewrite Hn. by right. }
        destruct (rehash_loop xs s2) as [u s'|e s'|]; [| |done].
        -- destruct IH as [Hh Hn]. split; [|by auto].
           intros a Ha. destruct (Hh a Ha) as [Ha2|?]; [|by right].
           destruct (Hh2 a Ha2); [by left|right; by apply Hn].
        -- destruct IH as [Hh Hn]. split; [|by auto].
           intros a Ha. destruct (Hh a Ha) as [Ha2|?]; [|by right].
           destruct (Hh2 a Ha2); [by left|right; by apply Hn].
      * by apply _unique_insert_throws in Hu as [_ ?].
    + apply _bucket_throws in Hb as [-> _]. cbn. split; [by left|done].
Qed.

Lemma rehash_exact (n : N) (s : hash_set * heap) :
  heap_exact s → after (rehash n s) heap_exact.
Proof.
  intros [Hwf Hex].
  destruct (rehash n s) as [u s'|e s'|] eqn:Hr; [| |done]; cbn [after].
  - split; [by apply (rehash_heap_wf _ _ _ _ Hr)|].
    revert Hr. unfold HashSet.rehash, HashSet.rehash_run.
    destruct (hash_set_ctor n) as [e|nt] eqn:Hc; [done|].
    pose proof (rehash_loop_bound (elements s.1) (nt, s.2)) as Hb.
    destruct (rehash_loop (elements s.1) (nt, s.2)) as [u' [nt' h']|e [nt' h']|];
      [|done..].
    cbn [fst snd clear_state after] in *. intros [= <- <-]. cbn [fst snd].
    intros a Ha. apply elem_of_difference in Ha as [Ha Hold].
    destruct Hb as [Hb _]. destruct (Hb a Ha) as [Hin|Hin]; [|done].
    exfalso. apply Hold. apply elem_of_list_to_set. by apply Hex.
  - revert Hr. unfold HashSet.rehash, HashSet.rehash_run.
    destruct (hash_set_ctor n) as [e'|nt] eqn:Hc; [by intros [= _ <-]|].
    pose proof (rehash_loop_bound (elements s.1) (nt, s.2)) as Hb.
    destruct (rehash_loop (elements s.1) (nt, s.2)) as [u' [nt' h']|e' [nt' h']|];
      [done| |done].
    cbn [fst snd clear_state after] in *. intros [= _ <-].
    split; [apply cleared_heap_wf|]. cbn [fst snd]. intros a Ha.
    apply elem_of_difference in Ha as [Ha Hnew].
    apply elem_of_difference in Ha as [Ha Hold].
    exfalso. destruct Hb as [Hb _]. destruct (Hb a Ha) as [Hin|Hin].
    + apply Hold. apply elem_of_list_to_set. by apply Hex.
    + apply Hnew. by apply elem_of_list_to_set.
Qed.

Lemma increase_size_exact (s : hash_set * heap) :
  heap_exact s → after (_increase_size s) heap_exact.
Proof.
  intros Hex. unfold HashSet._increase_size. case_bool_decide; [done|].
  destruct (table_sizes !! S (get_size_index s.1)) as [n|]; [|done].
  by apply rehash_exact.
Qed.

Lemma finish_insert_exact (k : T) (idx : N) (s : hash_set * heap) :
  heap_exact s → after (finish_insert k idx s) heap_exact.
Proof.
  intros Hex. destruct (finish_insert k idx s) as [r s'|e s'|] eqn:Hf; [| |done]; cbn [after].
  - revert Hf. unfold HashSet.finish_insert, mbind, M_bind, mret, M_ret, modify_this.
    destruct (_unique_insert (T_copy_throws k) k idx s) as [it s1|e1 s1|] eqn:Hu; [|done..].
    intros [= _ <-]. apply (_unique_insert_exact _ _ _ _ _ _ Hu) in Hex.
    exact Hex.
  - by apply finish_insert_throws in Hf as [-> _].
Qed.

Lemma insert_exact (k : T) (t : hash_set) (h : heap) :
  heap_exact (t, h) → after (insert k (t, h)) heap_exact.
Proof.
  assert (∀ t, bucket_count t ≠ 0 → heap_exact (t, h) →
                after (insert k (t, h)) heap_exact) as Hnz.
  { clear t. intros t Hbc Hex. rewrite (insert_unfold k t h Hbc).
    destruct (m_hasher k) as [e|hv]; [done|]. cbn zeta.
    destruct (m_container t !! N.to_nat (hv mod bucket_count t)) as [b|]; [|done].
    destruct (find_in_list (hv mod bucket_count t) k b) as [p|]; [done|].
    case_bool_decide; [done|].
    destruct (load_factor_exceeded t); [|by apply finish_insert_exact].
    pose proof (increase_size_exact (t, h) Hex) as Hinc.
    destruct (_increase_size (t, h)) as [u s2|e2 s2|]; [|done..].
    cbn [after] in Hinc.
    destruct (_bucket k s2) as [idx2 s3|e3 s3|] eqn:Hb2; [| |done].
    - apply _bucket_inv in Hb2 as (-> & _). by apply finish_insert_exact.
    - by apply _bucket_throws in Hb2 as [-> _]. }
  intros Hex. destruct (decide (bucket_count t = 0)) as [Hz|Hbc]; [|by apply Hnz].
  rewrite (insert_zero_buckets k t h Hz). apply Hnz; [by unfold bucket_count|].
  destruct Hex as [_ Hex].
  assert (heap_nodes t = []) as Hn by (unfold heap_nodes; by rewrite (bucket_count_zero t Hz)).
  split; [by apply heap_wf_no_nodes|]. cbn [fst snd] in *. intros a Ha.
  specialize (Hex a Ha). rewrite Hn in Hex. by apply elem_of_nil in Hex.
Qed.

Lemma erase_exact (t : hash_set) (h : heap) (it : iterator) (x0 : T) :
  dereference t it = Some x0 → heap_exact (t, h) → after (erase it (t, h)) heap_exact.
Proof.
  intros Hd [[Hnd Hal] Hex].
  destruct (_erase_valid t h it x0 Hd) as (b & b' & p & h' & Hb & He & _ & Hnodes).
  rewrite (erase_unfold it t h h' p b' (lookup_bucket_Some _ _ _ Hb) He). cbn [after].
  unfold heap_exact, heap_wf, heap_nodes in *. cbn [fst snd m_container set_bucket] in *.
  destruct Hnodes as [[Hsame ->]|(a & Hrem & ->)].
  - rewrite (bind_insert_same _ _ _ b b' Hb Hsame). done.
  - pose proof (bind_remove _ _ _ b b' a Hb Hrem) as Hperm.
    rewrite Hperm in Hnd. apply NoDup_cons in Hnd as [Hnotin Hnd'].
    split; [split; [done|]|].
    + intros a' Ha'. apply elem_of_difference. split.
      * apply Hal. rewrite Hperm. by right.
      * intros Heq. apply elem_of_singleton in Heq. by subst a'.
    + intros a' Ha'. apply elem_of_difference in Ha' as [Ha' Hne].
      specialize (Hex a' Ha'). rewrite Hperm in Hex.
      apply elem_of_cons in Hex as [->|?]; [|done].
      exfalso. apply Hne. by apply elem_of_singleton.
Qed.

Lemma clear_exact (t : hash_set) (h : heap) :
  heap_exact (t, h) → (clear_state (t, h)).2 = ∅ ∧ heap_exact (clear_state (t, h)).
Proof.
  intros [_ Hex]. unfold clear_state. cbn [fst snd] in *.
  assert (h ∖ list_to_set (heap_nodes t) = ∅) as ->.
  { apply set_eq. intros a. split; [|intros Ha; by apply elem_of_empty in Ha].
    intros Ha. apply elem_of_difference in Ha as [Ha Hn]. exfalso. apply Hn.
    apply elem_of_list_to_set. by apply Hex. }
  split; [done|]. split; [apply cleared_heap_wf|].
  intros a Ha. by apply elem_of_empty in Ha.
Qed.

(** X9. No node leaks and none dangles. When the free store holds exactly
    the heap nodes that the table links, each once, it does so again after
    [insert], after [rehash] and after [erase] through a dereferenceable
    iterator, whether the call returns or throws (a [rehash] that throws
    has deleted the nodes of both tables), and [clear] leaves the free
    store empty. *)
Theorem no_leak (t : hash_set) (h : heap) :
  heap_exact (t, h) →
  (∀ k, after (insert k (t, h)) heap_exact) ∧
  (∀ n, after (rehash n (t, h)) heap_exact) ∧
  (∀ it x0, dereference t it = Some x0 → after (erase it (t, h)) heap_exact) ∧
  after (clear (t, h)) (λ s', s'.2 = ∅ ∧ heap_exact s').
Proof.
  intros Hex. split; [intros k; by apply insert_exact|].
  split; [intros n; by apply rehash_exact|].
  split; [intros it x0 Hd; by apply (erase_exact t h it x0)|].
  unfold clear. cbn [after]. by apply clear_exact.
Qed.

(** ** Copies *)

Abbreviation copy_rest := (copy_rest T_copy_throws).
Abbreviation list_copy := (list_copy T_copy_throws).
Abbreviation copy_buckets := (copy_buckets T_copy_throws).
Abbreviation hash_set_copy := (hash_set_copy T_copy_throws).
Abbreviation copy_assign := (copy_assign T_copy_throws).

(** No payload of the list throws when it is copied. *)
Abbreviation copyable xs := (∀ x : T, x ∈ xs → T_copy_throws x = None).

Lemma copy_rest_returns (src acc : list (addr * T)) (h : heap) :
  copyable src.*2 →
  ∃ new, copy_rest src acc h = Returns (acc ++ new) (list_to_set new.*1 ∪ h) ∧
    new.*2 = src.*2 ∧ NoDup new.*1 ∧ (∀ a, a ∈ new.*1 → a ∉ h).
Proof.
  clear m_hasher m_key_equal.
  revert acc h. induction src as [|[a0 y] src IH]; intros acc h Hc.
  - exists []. cbn. rewrite app_nil_r, union_empty_l_L.
    split; [done|]. split; [done|]. split; [apply NoDup_nil_2|].
    intros a Ha. by apply elem_of_nil in Ha.
  - cbn [HashSet.copy_rest]. rewrite (Hc y) by (cbn; left).
    destruct (IH (acc ++ [(fresh h, y)]) ({[fresh h]} ∪ h)) as (new & -> & H2 & Hnd & Hfr).
    { intros x Hx. apply Hc. cbn. by right. }
    exists ((fresh h, y) :: new). rewrite <- app_assoc. cbn [app fmap list_fmap fst snd].
    split.
    { f_equal. cbn [list_to_set]. apply set_eq. intros a.
      rewrite !elem_of_union. tauto. }
    split; [by rewrite H2|]. split.
    + apply NoDup_cons. split; [|done]. intros Hin. apply (Hfr _ Hin).
      apply elem_of_union. left. by apply elem_of_singleton.
    + intros a Ha. apply elem_of_cons in Ha as [->|Ha]; [apply is_fresh|].
      intros Hin. apply (Hfr _ Ha). apply elem_of_union. by right.
Qed.

Lemma copy_rest_throws (src acc : list (addr * T)) (h h0 : heap) (pre post : list T)
    (y : T) (e : exn) :
  src.*2 = pre ++ y :: post → copyable pre → T_copy_throws y = Some e →
  h = list_to_set acc.*1 ∪ h0 → (∀ a, a ∈ acc.*1 → a ∉ h0) →
  copy_rest src acc h = Throws e h0.
Proof.
  clear m_hasher m_key_equal.
  revert src acc h. induction pre as [|p pre IH]; intros src acc h Hsrc Hpre Hy Hh Hdis.
  - destruct src as [|[a0 y0] src]; [done|]. cbn in Hsrc. injection Hsrc as -> _.
    cbn [HashSet.copy_rest]. rewrite Hy. f_equal. pose proof (is_fresh h) as Hfr.
    apply set_eq. intros a. rewrite !elem_of_difference, elem_of_union, elem_of_singleton.
    rewrite elem_of_list_to_set. split.
    + intros [[[->|Ha] Hne] Hnd]; [done|]. rewrite Hh in Ha.
      apply elem_of_union in Ha as [Ha|Ha]; [|done].
      apply elem_of_list_to_set in Ha. done.
    + intros Ha. assert (a ∈ h) as Hah by (rewrite Hh; apply elem_of_union; by right).
      split; [split; [by right|]|].
      * intros ->. by apply Hfr.
      * intros Hin. by apply (Hdis a).
  - destruct src as [|[a0 y0] src]; [done|]. cbn in Hsrc. injection Hsrc as -> Hsrc.
    cbn [HashSet.copy_rest]. rewrite (Hpre p) by left.
    apply (IH src); [done| |done| |].
    + intros x Hx. apply Hpre. by right.
    + rewrite fmap_app, list_to_set_app_L, Hh. cbn [fmap list_fmap fst list_to_set].
      apply set_eq. intros a. rewrite !elem_of_union, elem_of_singleton, elem_of_empty. tauto.
    + intros a Ha. rewrite fmap_app in Ha. apply elem_of_app in Ha as [Ha|Ha]; [by apply Hdis|].
      cbn in Ha. apply list_elem_of_singleton in Ha as ->.
      intros Hin. apply (is_fresh h). revert Hin. generalize (fresh h). intros a' Hin.
      rewrite Hh. apply elem_of_union. by right.
Qed.

Lemma list_copy_returns (other : bucket_list) (h : heap) :
  copyable (list_elements other) →
  ∃ b', list_copy other h = Returns b' (list_to_set (list_heap_nodes b') ∪ h) ∧
    list_elements b' = list_elements other ∧
    NoDup (list_heap_nodes b') ∧ (∀ a, a ∈ list_heap_nodes b' → a ∉ h).
Proof.
  intros Hc. destruct other as [|x rest].
  - exists empty_list. cbn. rewrite union_empty_l_L. split; [done|]. split; [done|].
    split; [apply NoDup_nil_2|]. intros a Ha. by apply elem_of_nil in Ha.
  - cbn [HashSet.list_copy]. rewrite (Hc x) by left.
    destruct (copy_rest_returns rest [] h) as (new & -> & H2 & Hnd & Hfr).
    { intros y Hy. apply Hc. by right. }
    exists (nodes x new). cbn [app list_elements list_heap_nodes]. by rewrite H2.
Qed.

Lemma list_copy_throws (other : bucket_list) (h : heap) (pre post : list T) (y : T) (e : exn) :
  list_elements other = pre ++ y :: post → copyable pre → T_copy_throws y = Some e →
  list_copy other h = Throws e h.
Proof.
  intros Hsrc Hpre Hy. destruct other as [|x rest]; [by destruct pre|].
  cbn [HashSet.list_copy list_elements] in *. destruct pre as [|p pre].
  - cbn in Hsrc. injection Hsrc as -> _. by rewrite Hy.
  - cbn in Hsrc. injection Hsrc as -> Hsrc. rewrite (Hpre p) by left.
    rewrite (copy_rest_throws rest [] h h pre post y e); [done|done| |done| |].
    + intros z Hz. apply Hpre. by right.
    + cbn. by rewrite union_empty_l_L.
    + intros a Ha. by apply elem_of_nil in Ha.
Qed.

(** X10. The copy constructor of a bucket. When no payload of [other]
    throws on being copied, the copy holds the same payloads in the same
    order, in nodes that were not allocated before, each linked once, and
    the free store has grown by exactly these nodes. When the copy of a
    payload throws, the payloads before it having been copied, the
    constructor throws the same exception and the free store is exactly as
    it was before the call: every node allocated for the partial copy has
    been deleted. *)
Theorem list_copy_spec (other : bucket_list) (h : heap) :
  (copyable (list_elements other) →
   ∃ b', list_copy other h = Returns b' (list_to_set (list_heap_nodes b') ∪ h) ∧
     list_elements b' = list_elements other ∧
     NoDup (list_heap_nodes b') ∧ (∀ a, a ∈ list_heap_nodes b' → a ∉ h)) ∧
  (∀ pre post y e,
     list_elements other = pre ++ y :: post → copyable pre → T_copy_throws y = Some e →
     list_copy other h = Throws e h).
Proof.
  split; [apply list_copy_returns|].
  intros pre post y e. apply list_copy_throws.
Qed.

Abbreviation first_throw := (first_throw T_copy_throws).

Lemma first_throw_None (xs : list T) : first_throw xs = None ↔ copyable xs.
Proof.
  induction xs as [|x xs IH]; cbn [HashSet.first_throw].
  - split; [|done]. intros _ x Hx. by apply elem_of_nil in Hx.
  - destruct (T_copy_throws x) as [e|] eqn:Hx.
    + split; [done|]. intros Hc. rewrite (Hc x) in Hx; [done|left].
    + rewrite IH. split.
      * intros Hc y Hy. apply elem_of_cons in Hy as [->|Hy]; [done|by apply Hc].
      * intros Hc y Hy. apply Hc. by right.
Qed.

Lemma first_throw_Some (xs : list T) (e : exn) :
  first_throw xs = Some e →
  ∃ pre y post, xs = pre ++ y :: post ∧ copyable pre ∧ T_copy_throws y = Some e.
Proof.
  induction xs as [|x xs IH]; cbn [HashSet.first_throw]; [done|].
  destruct (T_copy_throws x) as [e'|] eqn:Hx.
  - intros [= ->]. exists [], x, xs. split; [done|]. split; [|done].
    intros y Hy. by apply elem_of_nil in Hy.
  - intros Hf. destruct (IH Hf) as (pre & y & post & -> & Hpre & Hy).
    exists (x :: pre), y, post. split; [done|]. split; [|done].
    intros z Hz. apply elem_of_cons in Hz as [->|Hz]; [done|by apply Hpre].
Qed.

Lemma first_throw_app (xs ys : list T) :
  first_throw (xs ++ ys) =
  match first_throw xs with Some e => Some e | None => first_throw ys end.
Proof.
  induction xs as [|x xs IH]; cbn [HashSet.first_throw app]; [done|].
  by destruct (T_copy_throws x).
Qed.

Lemma copy_buckets_returns (src acc : list bucket_list) (h : heap) :
  first_throw (src ≫= list_elements) = None →
  ∃ new, copy_buckets src acc h =
           Returns (acc ++ new) (list_to_set (new ≫= list_heap_nodes) ∪ h) ∧
    list_elements <$> new = list_elements <$> src ∧
    NoDup (new ≫= list_heap_nodes) ∧ (∀ a, a ∈ new ≫= list_heap_nodes → a ∉ h).
Proof.
  revert acc h. induction src as [|b src IH]; intros acc h Hc.
  - exists []. cbn. rewrite app_nil_r, union_empty_l_L.
    split; [done|]. split; [done|]. split; [apply NoDup_nil_2|].
    intros a Ha. by apply elem_of_nil in Ha.
  - rewrite bind_cons, first_throw_app in Hc.
    destruct (first_throw (list_elements b)) as [e|] eqn:Hb; [done|].
    pose proof (proj1 (first_throw_None _) Hb) as Hb'. clear Hb. rename Hb' into Hb.
    destruct (list_copy_returns b h Hb) as (b' & Hcopy & Hel & Hnd & Hfr).
    cbn [HashSet.copy_buckets]. rewrite Hcopy.
    destruct (IH (acc ++ [b']) (list_to_set (list_heap_nodes b') ∪ h) Hc)
      as (new & -> & Hels & Hnd' & Hfr').
    exists (b' :: new). rewrite <- app_assoc. cbn [app]. rewrite bind_cons, fmap_cons.
    split.
    { f_equal. rewrite list_to_set_app_L. apply set_eq. intros a.
      rewrite !elem_of_union. tauto. }
    split; [by rewrite Hel, Hels|]. split.
    + apply NoDup_app. split; [done|]. split; [|done].
      intros a Ha Ha'. apply (Hfr' a Ha'). apply elem_of_union. left.
      by apply elem_of_list_to_set.
    + intros a Ha. apply elem_of_app in Ha as [Ha|Ha]; [by apply Hfr|].
      intros Hin. apply (Hfr' a Ha). apply elem_of_union. by right.
Qed.

Lemma copy_buckets_throws (src acc : list bucket_list) (h h0 : heap) (e : exn) :
  first_throw (src ≫= list_elements) = Some e →
  h = list_to_set (acc ≫= list_heap_nodes) ∪ h0 →
  (∀ a, a ∈ acc ≫= list_heap_nodes → a ∉ h0) →
  copy_buckets src acc h = Throws e h0.
Proof.
  revert acc h. induction src as [|b src IH]; intros acc h Hc Hh Hdis; [done|].
  rewrite bind_cons, first_throw_app in Hc. cbn [HashSet.copy_buckets].
  destruct (first_throw (list_elements b)) as [e'|] eqn:Hb.
  - injection Hc as ->.
    apply first_throw_Some in Hb as (pre & y & post & Hel & Hpre & Hy).
    rewrite (list_copy_throws b h pre post y e Hel Hpre Hy). f_equal.
    rewrite Hh. apply set_eq. intros a.
    rewrite elem_of_difference, elem_of_union, elem_of_list_to_set. split.
    + intros [[Ha|Ha] Hn]; done.
    + intros Ha. split; [by right|]. intros Hin. by apply (Hdis a).
  - pose proof (proj1 (first_throw_None _) Hb) as Hb'. clear Hb. rename Hb' into Hb.
    destruct (list_copy_returns b h Hb) as (b' & -> & Hel & Hnd & Hfr).
    apply IH; [done| |].
    + rewrite bind_app, bind_cons, list_to_set_app_L, Hh. cbn [mbind list_bind].
      rewrite app_nil_r. apply set_eq. intros a. rewrite !elem_of_union. tauto.
    + intros a Ha. rewrite bind_app, bind_cons in Ha. cbn [mbind list_bind] in Ha.
      rewrite app_nil_r in Ha. apply elem_of_app in Ha as [Ha|Ha]; [by apply Hdis|].
      intros Hin. apply (Hfr a Ha). rewrite Hh. apply elem_of_union. by right.
Qed.

Lemma bind_fmap_elements (c c' : list bucket_list) :
  list_elements <$> c' = list_elements <$> c → c' ≫= list_elements = c ≫= list_elements.
Proof.
  revert c'. induction c as [|b c IH]; intros [|b' c']; try done.
  rewrite !fmap_cons, !bind_cons. intros [= -> Hc]. by rewrite (IH c' Hc).
Qed.

(** A table with the same payloads in the same buckets and the same count
    satisfies the invariants when the other does. *)
Lemma table_inv_ext (t t' : hash_set) :
  list_elements <$> m_container t' = list_elements <$> m_container t →
  m_n_elements t' = m_n_elements t → table_inv t → table_inv t'.
Proof.
  intros Hc Hn [Hpl Hcount Hclass Hu].
  assert (elements t' = elements t) as Hel by (by apply bind_fmap_elements).
  assert (bucket_count t' = bucket_count t) as Hbc.
  { unfold bucket_count. f_equal.
    rewrite <- (length_fmap list_elements (m_container t')), Hc. apply length_fmap. }
  split; [|by rewrite Hn, Hel|by rewrite Hbc|by rewrite Hel].
  intros i b' x Hi Hx. rewrite Hbc.
  assert ((list_elements <$> m_container t) !! i = Some (list_elements b')) as Hi'.
  { rewrite <- Hc, list_lookup_fmap, Hi. done. }
  rewrite list_lookup_fmap in Hi'.
  destruct (m_container t !! i) as [b|] eqn:Hb; [|done].
  injection Hi' as Heq. apply (Hpl i b x Hb). by rewrite Heq.
Qed.

(** X11. Copy assignment, [*this = other] with [other] another table.
    When the copy of no payload of [other] throws, [*this] ends up with the
    same payloads as [other], bucket by bucket and in the same order, and
    the same [size()], hence with the same elements and the same
    [bucket_count()], and it satisfies the invariants when [other] does; its
    nodes are newly allocated, each linked once, and the nodes it linked
    before have been deleted. When the copy of a payload throws, the
    assignment throws the same exception and leaves [*this] and the free
    store exactly as they were (strong guarantee). *)
Theorem copy_assign_spec (other t : hash_set) (h : heap) :
  (first_throw (elements other) = None →
   ∃ t', copy_assign other (t, h) =
           Returns () (t', (list_to_set (heap_nodes t') ∪ h) ∖ list_to_set (heap_nodes t)) ∧
     list_elements <$> m_container t' = list_elements <$> m_container other ∧
     size t' = size other ∧ elements t' = elements other ∧
     bucket_count t' = bucket_count other ∧
     NoDup (heap_nodes t') ∧ (∀ a, a ∈ heap_nodes t' → a ∉ h) ∧
     (table_inv other → table_inv t')) ∧
  (∀ e, first_throw (elements other) = Some e →
     copy_assign other (t, h) = Throws e (t, h)).
Proof.
  unfold HashSet.copy_assign, HashSet.hash_set_copy, move_assign, elements. cbn [fst snd].
  split.
  - intros Hc. destruct (copy_buckets_returns (m_container other) [] h Hc)
      as (new & -> & Hels & Hnd & Hfr).
    cbn [app]. exists {| m_container := new; m_n_elements := m_n_elements other |}.
    split; [reflexivity|]. cbn [m_container m_n_elements size].
    split; [done|]. split; [done|]. split; [by apply bind_fmap_elements|].
    split.
    { unfold bucket_count. cbn [m_container]. f_equal.
      rewrite <- (length_fmap list_elements new), Hels. apply length_fmap. }
    split; [done|]. split; [done|]. by apply table_inv_ext.
  - intros e Hc.
    rewrite (copy_buckets_throws (m_container other) [] h h e Hc); [done| |].
    + cbn. by rewrite union_empty_l_L.
    + intros a Ha. by apply elem_of_nil in Ha.
Qed.

(** ** The constructors from a range and from an initializer list *)

Abbreviation hash_set_from_range :=
  (hash_set_from_range PIRANHA_64BIT_MODE m_hasher m_key_equal T_copy_throws).
Abbreviation hash_set_from_initializer_list :=
  (hash_set_from_initializer_list PIRANHA_64BIT_MODE m_hasher m_key_equal T_copy_throws).

(** An [insert] for which there is room: it returns and the bucket count
    stays. *)
Lemma insert_no_growth (k : T) (hv : N) (t : hash_set) (h : heap) :
  m_hasher k = inr hv → T_copy_throws k = None →
  m_n_elements t + 1 ≤ bucket_count t → bucket_count t ≤ largest_size →
  ∃ r t' h', insert k (t, h) = Returns r (t', h') ∧
    bucket_count t' = bucket_count t ∧ m_n_elements t' ≤ m_n_elements t + 1.
Proof.
  intros Hk Hcopy Hroom Hle. assert (bucket_count t ≠ 0) as Hbc by lia.
  rewrite (insert_unfold k t h Hbc), Hk. cbn zeta.
  pose proof (N.mod_lt hv _ Hbc) as Hlt.
  destruct (lookup_bucket_lt t _ Hlt) as [b ->].
  destruct (find_in_list (hv mod bucket_count t) k b) as [p|].
  { eexists _, t, h. split; [done|]. split; [done|lia]. }
  pose proof largest_size_lt_max as Hmax.
  rewrite bool_decide_eq_false_2 by lia.
  destruct (load_factor_exceeded t) eqn:Hlf.
  { apply load_factor_exceeded_iff in Hlf; [lia|done]. }
  destruct (finish_insert_returns k _ t h Hlt Hcopy) as (it & t' & h' & -> & _ & _ & Hbc' & Hn & _).
  exists (it, true), t', h'. split; [done|]. split; [done|lia].
Qed.

Lemma insert_all_no_growth (ks : list T) (t : hash_set) (h : heap) :
  hashable ks → copyable ks →
  m_n_elements t + N.of_nat (length ks) ≤ bucket_count t → bucket_count t ≤ largest_size →
  ∃ t' h', insert_all ks (t, h) = Returns () (t', h') ∧ bucket_count t' = bucket_count t.
Proof.
  revert t h. induction ks as [|k ks IH]; intros t h Hh Hc Hroom Hle.
  - by exists t, h.
  - rewrite insert_all_cons. destruct (Hh k) as [hv Hk]; [left|].
    cbn [length] in Hroom.
    destruct (insert_no_growth k hv t h Hk (Hc k ltac:(left))) as (r & t1 & h1 & -> & Hbc & Hn);
      [lia|done|].
    destruct (IH t1 h1) as (t' & h' & -> & Hbc').
    + intros x Hx. apply Hh. by right.
    + intros x Hx. apply Hc. by right.
    + lia.
    + by rewrite Hbc.
    + exists t', h'. split; [done|]. by rewrite Hbc'.
Qed.

Lemma insert_all_heap_wf (ks : list T) (s s' : hash_set * heap) :
  insert_all ks s = Returns () s' → heap_wf s → heap_wf s'.
Proof.
  revert s. induction ks as [|k ks IH]; intros [t h]; [by intros [= <-]|].
  rewrite insert_all_cons. destruct (insert k (t, h)) as [r s1| |] eqn:Hi; [|done..].
  intros Hall Hwf. apply (IH s1 Hall). apply (insert_heap_wf k t h s1 Hwf). left. eauto.
Qed.

Lemma from_range_returns (ks : list T) (n : N) (h : heap) :
  N.of_nat (length ks) ≤ n → n ≤ largest_size →
  hashable ks → copyable ks →
  (∀ x y, m_key_equal x y = m_key_equal y x) →
  (∀ x y, m_key_equal x y = true → m_hasher x = m_hasher y) →
  ∃ t h', hash_set_from_range ks n h = Returns t h' ∧
    smallest_size_class (bucket_count t) n ∧
    elements t ≡ₚ distinct_keys ks ∧
    size t = N.of_nat (length (distinct_keys ks)) ∧
    table_inv t ∧ heap_wf (t, h').
Proof.
  intros Hlen Hle Hh Hc Hsym Hcompat. unfold HashSet.hash_set_from_range.
  destruct (hash_set_ctor n) as [e|t0] eqn:Hctor.
  { apply hash_set_ctor_inl in Hctor as [_ ?]. lia. }
  apply hash_set_ctor_inr in Hctor as (Hsz & Hn0 & Hel0 & Hnodes0 & Hpl0).
  pose proof Hsz as (Hin & Hge & _).
  destruct (insert_all_no_growth ks t0 h Hh Hc) as (t & h' & Hall & Hbc).
  { rewrite Hn0. lia. }
  { by apply table_sizes_le_largest. }
  rewrite Hall. exists t, h'. cbn [fst snd]. split; [done|].
  split; [by rewrite Hbc|].
  pose proof (insert_all_heap_wf ks _ _ Hall) as Hwf.
  apply (insert_all_inv Hcompat ks []) in Hall as (Hpl & Hel & Hn);
    [|done|by rewrite Hel0|by rewrite Hn0].
  assert (unique (elements t)) as Hu.
  { apply (unique_perm (distinct_keys ks)); [done|].
    by apply unique_foldl_distinct_step. }
  split; [done|]. split; [done|]. split.
  { split; [done|by rewrite Hn, Hel|by rewrite Hbc|done]. }
  apply Hwf. by apply heap_wf_no_nodes.
Qed.

(** X12. The constructor from a range, with a hint for the number of
    buckets that is at least the number of elements of the range and at
    most the largest size class (the constructor from an initializer list
    passes the number of elements): when the hasher and the copy
    constructor throw on none of the elements, the equality predicate is
    symmetric and equal keys hash alike, the constructor returns a table
    whose bucket count is still the smallest size class that is at least
    the hint (no insertion has rehashed), which holds the keys of the range
    without their repetitions, satisfies the invariants and agrees with the
    free store. With a hint past the largest size class the constructor
    throws [std::bad_alloc] and the free store is untouched. *)
Theorem construct_from_range (ks : list T) (n : N) (h : heap) :
  (N.of_nat (length ks) ≤ n → n ≤ largest_size →
   hashable ks → copyable ks →
   (∀ x y, m_key_equal x y = m_key_equal y x) →
   (∀ x y, m_key_equal x y = true → m_hasher x = m_hasher y) →
   ∃ t h', hash_set_from_range ks n h = Returns t h' ∧
     smallest_size_class (bucket_count t) n ∧
     elements t ≡ₚ distinct_keys ks ∧
     size t = N.of_nat (length (distinct_keys ks)) ∧
     table_inv t ∧ heap_wf (t, h') ∧
     (n = N.of_nat (length ks) → hash_set_from_initializer_list ks h = Returns t h')) ∧
  (largest_size < n → hash_set_from_range ks n h = Throws bad_alloc h).
Proof.
  split.
  - intros Hlen Hle Hh Hc Hsym Hcompat.
    destruct (from_range_returns ks n h Hlen Hle Hh Hc Hsym Hcompat)
      as (t & h' & Hr & Hsz & Hel & Hn & Hinv & Hwf).
    exists t, h'. do 6 (split; [done|]).
    intros ->. exact Hr.
  - intros Hgt. unfold HashSet.hash_set_from_range.
    destruct (hash_set_ctor n) as [e|t0] eqn:Hctor.
    + by apply hash_set_ctor_inl in Hctor as [-> _].
    + apply hash_set_ctor_inr in Hctor as ((Hin & Hge & _) & _).
      apply table_sizes_le_largest in Hin. lia.
Qed.

(** ** The iterator that [erase] returns *)

Lemma erase_in_rest_ret (a : addr) (y : T) (pre post : list (addr * T)) (prev : node_ptr) :
  a ∉ pre.*1 →
  erase_in_rest (heap_node a) prev (pre ++ (a, y) :: post) =
  (pre ++ post, Some a,
   match post with
   | [] => terminator
   | _ => match last pre with Some (a', _) => heap_node a' | None => prev end
   end).
Proof.
  revert prev. induction pre as [|[a' x'] pre IH]; intros prev Hn;
    cbn [erase_in_rest app fmap list_fmap fst] in *.
  - by rewrite bool_decide_eq_true_2.
  - apply not_elem_of_cons in Hn as [Hne Hn].
    rewrite bool_decide_eq_false_2 by congruence.
    rewrite (IH (heap_node a') Hn). do 2 f_equal.
    destruct post as [|c post]; [done|]. rewrite last_cons.
    by destruct (last pre) as [[a'' x'']|].
Qed.

(** X13. The iterator returned by [erase] for an element that is not the
    first of its bucket. The node is unlinked and deleted and the other
    payloads of the bucket keep their order. When the erased element was the
    last of its bucket, the returned iterator is the first element of the
    next bucket that is not empty, or [end()]. Otherwise the returned
    iterator stays in the bucket and dereferences to the element that
    preceded the erased one in the chain, not to the one that followed it. *)
Theorem erase_returned_iterator (t : hash_set) (h : heap) (idx : N) (x y : T) (a : addr)
    (pre post : list (addr * T)) :
  m_container t !! N.to_nat idx = Some (nodes x (pre ++ (a, y) :: post)) →
  NoDup (pre ++ (a, y) :: post).*1 →
  let t' := {| m_container := <[N.to_nat idx := nodes x (pre ++ post)]> (m_container t);
               m_n_elements := decrement PIRANHA_64BIT_MODE (m_n_elements t) |} in
  ∃ it', erase {| m_idx := idx; m_it := heap_node a |} (t, h) = Returns it' (t', h ∖ {[a]}) ∧
    (post = [] → it' = position t' idx []) ∧
    (post ≠ [] →
     m_idx it' = idx ∧ dereference t' it' = last (x :: pre.*2) ∧
     it' ≠ position t' idx post).
Proof.
  intros Hb Hnd t'. pose proof (lookup_bucket_Some _ _ _ Hb) as Hlt.
  rewrite fmap_app, fmap_cons in Hnd. cbn [fst] in Hnd.
  pose proof Hnd as Hnd0. apply NoDup_app in Hnd0 as (Hndpre & Hdis & Hndpost).
  assert (a ∉ pre.*1) as Hn by (intros Hin; apply (Hdis a Hin); left).
  set (it := {| m_idx := idx; m_it := heap_node a |}).
  assert (_erase it (t, h) =
          Returns (match post with
                   | [] => terminator
                   | _ => match last pre with
                          | Some (a', _) => heap_node a'
                          | None => m_node_of idx
                          end
                   end) (set_bucket idx (nodes x (pre ++ post)) t, h ∖ {[a]})) as He.
  { unfold _erase, it. cbn [fst snd m_idx m_it]. rewrite Hb.
    rewrite bool_decide_eq_false_2 by done. by rewrite (erase_in_rest_ret a y pre post _ Hn). }
  rewrite (erase_unfold it t h _ _ _ Hlt He). cbn [m_idx it list_end list_empty].
  eexists. split; [reflexivity|].
  assert (m_container t' !! N.to_nat idx = Some (nodes x (pre ++ post))) as Hb'.
  { unfold t'. cbn [m_container]. apply list_lookup_insert_eq. by eapply lookup_lt_Some. }
  split.
  - intros ->. rewrite bool_decide_eq_true_2 by done. unfold position.
    by apply iterator_at_ext.
  - intros Hpost. destruct post as [|[a1 y1] post]; [done|].
    assert (match last pre with
            | Some (a', _) => heap_node a'
            | None => m_node_of idx
            end ≠ terminator) as Hne by (by destruct (last pre) as [[a' z]|]).
    rewrite bool_decide_eq_false_2 by done. cbn [m_idx]. split; [done|].
    unfold dereference, position. cbn [m_idx m_it]. rewrite Hb'.
    destruct (last pre) as [[a' z]|] eqn:Hlast.
    + apply last_Some in Hlast as [pre' ->].
      rewrite <- app_assoc. cbn [app].
      rewrite fmap_app in Hndpre. apply NoDup_app in Hndpre as (_ & Hdis' & _).
      rewrite payload_in_rest_app.
      * split.
        -- rewrite fmap_app. cbn [fmap list_fmap snd]. by rewrite app_comm_cons, last_snoc.
        -- intros [= ->]. apply (Hdis a1).
           ++ rewrite fmap_app. apply elem_of_app. right. left.
           ++ right. left.
      * intros Hin. apply (Hdis' a' Hin). left.
    + apply last_None in Hlast as ->. rewrite bool_decide_eq_true_2 by done.
      split; [done|]. done.
Qed.

(** ** [bucket] *)

Lemma bucket_unfold (k : T) (t : hash_set) (h : heap) :
  bucket k (t, h) =
  if bool_decide (bucket_count t = 0) then Throws zero_division_error (t, h)
  else _bucket k (t, h).
Proof.
  unfold HashSet.bucket, mbind, M_bind, get_this, throw. cbn [fst snd].
  by case_bool_decide.
Qed.

(** X14. [bucket(k)]. On a table without buckets it throws
    [zero_division_error]; otherwise it returns the hash value reduced
    modulo [bucket_count()], an index below [bucket_count()], and leaves the
    table alone. When every stored key sits in the bucket its hash selects,
    [bucket(x)] of a stored element [x] is the index of the bucket that
    holds it, and, equal keys hashing alike, after an [insert(k)] that
    returned [(it, flag)], [bucket(k)] is the bucket of [it]. *)
Theorem bucket_of_key (t : hash_set) (h : heap) :
  (∀ k, bucket_count t = 0 → bucket k (t, h) = Throws zero_division_error (t, h)) ∧
  (∀ k hv, bucket_count t ≠ 0 → m_hasher k = inr hv →
     bucket k (t, h) = Returns (hv mod bucket_count t) (t, h) ∧
     hv mod bucket_count t < bucket_count t) ∧
  (placed t →
   (∀ i b x, m_container t !! i = Some b → x ∈ list_elements b →
      bucket x (t, h) = Returns (N.of_nat i) (t, h)) ∧
   ((∀ x y, m_key_equal x y = true → m_hasher x = m_hasher y) →
    ∀ k r t' h', insert k (t, h) = Returns r (t', h') →
      bucket k (t', h') = Returns (m_idx r.1) (t', h'))).
Proof.
  split; [|split; [|intros Hpl; split]].
  - intros k Hz. by rewrite bucket_unfold, bool_decide_eq_true_2.
  - intros k hv Hbc Hk. rewrite bucket_unfold, bool_decide_eq_false_2 by done.
    split; [by apply _bucket_returns|by apply N.mod_lt].
  - intros i b x Hi Hx. destruct (Hpl i b x Hi Hx) as (hv & Hk & Hm).
    assert (bucket_count t ≠ 0) as Hbc.
    { apply lookup_lt_Some in Hi. unfold bucket_count. lia. }
    rewrite bucket_unfold, bool_decide_eq_false_2 by done.
    rewrite (_bucket_returns x t h hv Hbc Hk). by rewrite Hm.
  - intros Hcompat k [it flag] t' h' Hi. destruct flag.
    + destruct (insert_new_inv Hcompat k t t' h h' _ Hpl Hi eq_refl)
        as (hv & b' & Hk & Hbc' & Hidx & _).
      rewrite bucket_unfold, bool_decide_eq_false_2 by done.
      rewrite (_bucket_returns k t' h' hv Hbc' Hk). cbn [fst] in *. by rewrite Hidx.
    + destruct (insert_existing_inv k t h _ _ Hi eq_refl)
        as ([= -> ->] & Hbc & hv & b & p & Hk & _ & _ & Hit).
      rewrite bucket_unfold, bool_decide_eq_false_2 by done.
      rewrite (_bucket_returns k t h hv Hbc Hk). cbn [fst] in *. by rewrite Hit.
Qed.


(** ** Insertion followed by erasure *)

(** X15. Erasing what was just inserted. On a table that satisfies its
    invariants and agrees with the free store, with a symmetric equality
    predicate and equal keys hashing alike: after an [insert(k)] that
    returned [(it, true)], [it] dereferences to [k], and [erase(it)] on the
    resulting table returns and leaves a table with the elements and the
    size the table had before the insertion (the bucket count stays the one
    the insertion left, which may have grown), which satisfies the
    invariants and agrees with the free store, and in which [find(k)]
    returns [end()]. *)
Theorem insert_then_erase (k : T) (t t' : hash_set) (h h' : heap) (it : iterator) :
  (∀ x y, m_key_equal x y = m_key_equal y x) →
  (∀ x y, m_key_equal x y = true → m_hasher x = m_hasher y) →
  table_inv t → heap_wf (t, h) →
  insert k (t, h) = Returns (it, true) (t', h') →
  dereference t' it = Some k ∧
  ∃ it'' t'' h'', erase it (t', h') = Returns it'' (t'', h'') ∧
    elements t'' ≡ₚ elements t ∧ size t'' = size t ∧
    bucket_count t'' = bucket_count t' ∧
    table_inv t'' ∧ heap_wf (t'', h'') ∧
    find k (t'', h'') = Returns (end_ t'') (t'', h'').
Proof.
  intros Hsym Hcompat Hinv Hwf Hi. pose proof Hinv.(inv_placed _ _ _ _) as Hpl.
  assert (dereference t' it = Some k) as Hd.
  { destruct (insert_new_inv Hcompat k t t' h h' _ Hpl Hi eq_refl)
      as (hv & b' & Hk & Hbc' & Hidx & Hb' & Hcase).
    cbn [fst] in *. unfold dereference. rewrite Hidx, Hb'.
    destruct Hcase as [[-> ->]|(x & a & rest & -> & -> & _)].
    - by rewrite bool_decide_eq_true_2.
    - cbn [payload_in_rest]. by rewrite bool_decide_eq_true_2. }
  split; [done|].
  pose proof (insert_returns_table_inv Hsym Hcompat k t t' h h' _ Hinv Hi) as Hinv'.
  assert (heap_wf (t', h')) as Hwf'.
  { apply (insert_heap_wf k t h (t', h') Hwf). left. by eexists. }
  destruct (find_after_erase t' h' it k Hcompat Hinv' Hwf' Hd)
    as (it'' & t'' & h'' & He & Hp & Hs & Hbc & Hinv'' & Hwf'' & Hf).
  exists it'', t'', h''. split; [done|].
  destruct (insert_returns_inv Hcompat k t t' h h' _ Hpl Hi) as (_ & [(Hfl & _)|(_ & _ & Hel & Hn)]);
    [done|].
  split; [|split; [|done]].
  - apply Permutation_cons_inv with k. by rewrite <- Hp, Hel.
  - unfold size in *. lia.
Qed.


(** ** Failing insertions that leave the table as it was *)

(** X16. The failures of [insert] that change nothing. On a table with
    buckets: when the hasher throws on the key, [insert] throws that
    exception; when no stored element is equal to the key and the count is
    the maximum of [size_type], it throws [std::overflow_error]; and when no
    stored element is equal to the key, the load factor allows one more
    element and the copy of the key throws, it throws that exception. In
    all three cases the table and the free store are exactly what they
    were. *)
Theorem insert_failures_without_effect (k : T) (t : hash_set) (h : heap) :
  bucket_count t ≠ 0 →
  (∀ e, m_hasher k = inl e → insert k (t, h) = Throws e (t, h)) ∧
  (∀ hv, m_hasher k = inr hv →
     (∀ x, x ∈ elements t → m_key_equal x k = false) →
     (m_n_elements t = size_type_max → insert k (t, h) = Throws overflow_error (t, h)) ∧
     (∀ e, m_n_elements t ≠ size_type_max → load_factor_exceeded t = false →
           T_copy_throws k = Some e → insert k (t, h) = Throws e (t, h))).
Proof.
  intros Hbc. split.
  - intros e Hk. by rewrite (insert_unfold k t h Hbc), Hk.
  - intros hv Hk Hno. rewrite (insert_unfold k t h Hbc), Hk. cbn zeta.
    pose proof (N.mod_lt hv _ Hbc) as Hlt.
    destruct (lookup_bucket_lt t _ Hlt) as [b Hb]. rewrite Hb.
    assert (find_in_list (hv mod bucket_count t) k b = None) as ->.
    { apply find_in_list_None. intros y Hy. apply Hno. apply elem_of_elements.
      by exists (N.to_nat (hv mod bucket_count t)), b. }
    split.
    + intros Hmax. by rewrite bool_decide_eq_true_2.
    + intros e Hne Hlf Hc. rewrite bool_decide_eq_false_2 by done. rewrite Hlf.
      by apply finish_insert_copy_throws.
Qed.

End facts.

(** ** The example tables *)

Lemma table_135_inv : table_inv false id_hasher N.eqb table_135.
Proof.
  split.
  - intros i b x Hi Hx. exists x. split; [done|].
    destruct i as [|[|[|i]]]; simpl in Hi; try done; injection Hi as <-;
      apply list_elem_of_singleton in Hx as ->; done.
  - done.
  - apply list_elem_of_lookup. by exists 2%nat.
  - simpl. split; [intros z Hz|split; [intros z Hz|split; [intros z Hz|done]]];
      repeat (apply elem_of_cons in Hz as [->|Hz]; [done|]); by apply elem_of_nil in Hz.
Qed.

Lemma rehash_preserves_membership_witness :
  4 ≤ largest_size false ∧
  ∃ t' h', rehash false id_hasher 4 (table_135, ∅) = Returns () (t', h') ∧
    elements t' ≡ₚ elements table_135 ∧
    (∀ x, x ∈ elements t' ↔ x ∈ elements table_135) ∧
    smallest_size_class false (bucket_count t') 4 ∧
    size t' = size table_135.
Proof.
  split; [vm_compute; discriminate|].
  destruct (proj1 (rehash_preserves_membership false id_hasher table_135 ∅ 4))
    as (t' & h' & Hr & Hp & Hx & Hs & Hn & _).
  - vm_compute; discriminate.
  - left. discriminate.
  - intros x _. by exists x.
  - by exists t', h'.
Defined.

(** Past the largest size class, 3221225473 in 32-bit mode, there is no
    size class: [rehash(3221225474)] throws [std::bad_alloc] and leaves the
    table with its one bucket, which is not a size class that is at least
    3221225474. *)
Lemma rehash_counterexample :
  rehash false id_hasher 3221225474 (table_5, ∅) = Throws bad_alloc (table_5, ∅) ∧
  ¬ (∃ t' h', rehash false id_hasher 3221225474 (table_5, ∅) = Returns () (t', h')) ∧
  ¬ smallest_size_class false (bucket_count table_5) 3221225474 ∧
  (∀ s, s ∈ table_sizes false → s < 3221225474).
Proof.
  assert (rehash false id_hasher 3221225474 (table_5, ∅) = Throws bad_alloc (table_5, ∅))
    as H by reflexivity.
  split; [done|]. split; [intros (t' & h' & Hr); congruence|].
  split; [by intros (_ & Hle & _)|].
  intros s Hs. apply table_sizes_le_largest in Hs. unfold largest_size in Hs. lia.
Qed.

(** On a table that holds an element, [rehash(0)] builds a table without
    buckets and divides by zero when it computes the destination of the
    first element. *)
Example rehash_zero_nonempty : rehash false id_hasher 0 (table_5, ∅) = Undefined.
Proof. reflexivity. Qed.

Lemma insert_growth_trigger_witness :
  load_factor_exceeded table_135 = true ∧
  next_size_class false (bucket_count table_135) = Some 5 ∧
  bucket_count table_135 < 5 ∧
  ∃ r t' h', insert false id_hasher N.eqb no_throw 7 (table_135, ∅) = Returns r (t', h') ∧
             inserted id_hasher 7 table_135 r t' 5.
Proof.
  split; [reflexivity|]. split; [reflexivity|].
  apply (proj1 (proj2 (proj2 (proj1 (insert_growth_trigger false id_hasher N.eqb no_throw)
           table_135 ∅ 7 7 table_135_inv ltac:(discriminate) eq_refl eq_refl
           ltac:(discriminate) eq_refl)))).
  - reflexivity.
  - reflexivity.
Defined.

(** The hasher throws on the stored key 13 during the rehash that the
    insertion of 5 triggers: the table is left cleared. *)
Example failing_insert_outcomes_example :
  insert false picky_hasher N.eqb no_throw 5 (table_13, ∅) =
    Throws (unspecified 0) (cleared, ∅) ∧
  ((@cleared N = table_13 ∨
    (no_throw 5 = Some (unspecified 0) ∧
     _increase_size false picky_hasher (table_13, ∅) = Returns () (cleared, ∅) ∧
     elements (@cleared N) ≡ₚ elements table_13 ∧ size (@cleared N) = size table_13) ∨
    (elements (@cleared N) = [] ∧ size (@cleared N) = 0)) ∧
   (table_inv false picky_hasher N.eqb table_13 →
    table_inv false picky_hasher N.eqb cleared ∧
    elements (@cleared N) ≡ₚ elements table_13 ∧ size (@cleared N) = size table_13)).
Proof.
  split; [reflexivity|].
  apply (proj2 (failing_insert_outcomes false picky_hasher N.eqb no_throw)
           5 table_13 cleared ∅ ∅ (unspecified 0)).
  - discriminate.
  - reflexivity.
Qed.

Lemma erase_head_of_bucket_witness :
  (∃ t' p, _erase {| m_idx := 1; m_it := m_node_of 1 |} (table_241, {[0%nat]}) =
             Returns p (t', {[0%nat]}) ∧
           m_container t' !! 1%nat = Some empty_list ∧
           bucket_count t' = 2) ∧
  (∃ t' p, _erase {| m_idx := 0; m_it := m_node_of 0 |} (table_241, {[0%nat]}) =
             Returns p (t', {[0%nat]} ∖ {[0%nat]}) ∧
           m_container t' !! 0%nat = Some (nodes 4 []) ∧
           bucket_count t' = 2).
Proof.
  split.
  - destruct (proj1 (erase_head_of_bucket false table_241 {[0%nat]} 1 1) eq_refl)
      as (t' & p & He & Hb & Hbc & _).
    by exists t', p.
  - destruct (proj2 (erase_head_of_bucket false table_241 {[0%nat]} 0 2) 0%nat 4 [] eq_refl)
      as (t' & p & He & Hb & _ & _ & Hbc & _).
    by exists t', p.
Defined.

Lemma insert_existing_key_witness :
  (∃ it y, insert false id_hasher N.eqb no_throw 3 (table_135, ∅) = Returns (it, false) (table_135, ∅) ∧
           m_idx it = 0 ∧ dereference table_135 it = Some y ∧ (y =? 3) = true) ∧
  (∃ t h, insert_all false id_hasher N.eqb no_throw [1; 3; 1; 5; 3] (cleared, ∅) = Returns () (t, h) ∧
          insert_each false id_hasher N.eqb no_throw [1; 3; 1; 5; 3] (cleared, ∅) =
            Some (t, h, [1; 3; 1; 5; 3]) ∧
          elements t ≡ₚ [1; 3; 5] ∧ size t = 3) ∧
  (∃ t h ok, insert_each false picky_hasher N.eqb picky_copy [1; 13; 7; 1; 5] (cleared, ∅) =
               Some (t, h, ok) ∧
             1 ∈ ok ∧ 5 ∈ ok ∧
             elements t ≡ₚ distinct_keys N.eqb ok ∧ size t = N.of_nat (length (distinct_keys N.eqb ok))).
Proof.
  split; [|split].
  - destruct (proj1 (insert_existing_key false id_hasher N.eqb no_throw)
                table_135 ∅ 3 3 3 (nodes 3 [])) as (it & y & Hi & Hidx & Hd & _ & Hy).
    + discriminate.
    + by apply heap_wf_no_nodes.
    + reflexivity.
    + reflexivity.
    + simpl. left.
    + reflexivity.
    + by exists it, y.
  - destruct (proj2 (insert_existing_key false id_hasher N.eqb no_throw)) as (Hseq & Hret & _).
    + intros x y. apply N.eqb_sym.
    + intros x y Heq. apply N.eqb_eq in Heq. by subst.
    + destruct (Hseq [1; 3; 1; 5; 3] ∅) as (t & h & Hall & Heach & _).
      * intros x _. by exists x.
      * done.
      * vm_compute. discriminate.
      * destruct (Hret [1; 3; 1; 5; 3] t ∅ h Hall) as (Hel & _ & Hsz).
        by exists t, h.
  - destruct (proj2 (insert_existing_key false picky_hasher N.eqb picky_copy)) as (_ & _ & Heach).
    + intros x y. apply N.eqb_sym.
    + intros x y Heq. apply N.eqb_eq in Heq. by subst.
    + destruct (Heach [1; 13; 7; 1; 5] ∅) as (t & h & ok & He & _ & Hok & _ & _ & Hel & _ & Hsz).
      assert (N.of_nat (length [1; 13; 7; 1; 5]) ≤ largest_size false) as Hlen
        by (vm_compute; discriminate).
      exists t, h, ok. split; [done|].
      split; [apply (Hok Hlen 1 1); [left|reflexivity..]|].
      split; [apply (Hok Hlen 5 5); [do 4 right; left|reflexivity..]|].
      done.
Defined.

(** C4, at the input where the code departs from it. The table that
    [insert(5)] builds from a default-constructed one has one bucket, which
    holds 5. On [insert(k)] with [k] equal to 7, a key whose copy throws, the
    load-factor test holds, the growth step rehashes the table to three
    buckets, and then the copy of the key throws: [insert] throws and leaves
    the table with three buckets, still holding 5. The failing insertion has
    left the table neither in the state it was in before the call nor
    emptied, the two outcomes that the exception safety guarantee documented
    for the insertion methods allows. *)
Theorem insert_copy_throws_after_growth :
  let t' := {| m_container := [empty_list; empty_list; nodes 5 []]; m_n_elements := 1 |} in
  (∃ it, insert false id_hasher N.eqb picky_copy 5 (cleared, ∅) =
         Returns (it, true) (table_5, ∅)) ∧
  load_factor_exceeded table_5 = true ∧
  _increase_size false id_hasher (table_5, ∅) = Returns () (t', ∅) ∧
  picky_copy 7 = Some (unspecified 1) ∧
  insert false id_hasher N.eqb picky_copy 7 (table_5, ∅) = Throws (unspecified 1) (t', ∅) ∧
  bucket_count table_5 = 1 ∧ bucket_count t' = 3 ∧
  elements t' = elements table_5 ∧
  ¬ (t' = table_5 ∨ elements t' = [] ∧ size t' = 0).
Proof.
  split; [by eexists|]. do 7 (split; [reflexivity|]).
  intros [Heq|[Heq _]]; discriminate.
Qed.

(** ** A full table at the largest size class *)

Lemma full_table_bucket_count (n : nat) : bucket_count (full_table n) = N.of_nat n.
Proof. unfold bucket_count, full_table. cbn [m_container]. by rewrite length_fmap, length_seq. Qed.

Lemma full_table_lookup (n i : nat) (b : bucket_list) :
  m_container (full_table n) !! i = Some b → (i < n)%nat ∧ b = nodes (N.of_nat i) [].
Proof.
  unfold full_table. cbn [m_container]. rewrite list_lookup_fmap.
  destruct (seq 0 n !! i) as [j|] eqn:Hj; [|done].
  apply lookup_seq in Hj as [-> Hlt]. intros [= <-]. done.
Qed.

Lemma full_table_elements_from (s n : nat) :
  ((λ i, nodes (N.of_nat i) []) <$> seq s n) ≫= list_elements = N.of_nat <$> seq s n.
Proof.
  revert s. induction n as [|n IH]; intros s; [done|].
  cbn [seq fmap list_fmap]. rewrite bind_cons, IH. done.
Qed.

Lemma full_table_elements (n : nat) : elements (full_table n) = N.of_nat <$> seq 0 n.
Proof. apply full_table_elements_from. Qed.

Lemma unique_of_nat_seq (s n : nat) : unique N.eqb (N.of_nat <$> seq s n).
Proof.
  revert s. induction n as [|n IH]; intros s; [done|].
  cbn [seq fmap list_fmap unique]. split; [|apply IH].
  intros y Hy. apply list_elem_of_fmap in Hy as (j & -> & Hj).
  apply elem_of_seq in Hj. split; apply N.eqb_neq; lia.
Qed.

Lemma full_table_inv (mode : bool) (n : nat) :
  N.of_nat n ∈ table_sizes mode → table_inv mode id_hasher N.eqb (full_table n).
Proof.
  intros Hn. split.
  - intros i b x Hi Hx. apply full_table_lookup in Hi as [Hlt ->].
    apply list_elem_of_singleton in Hx as ->. exists (N.of_nat i). split; [done|].
    rewrite full_table_bucket_count. apply N.mod_small. lia.
  - rewrite full_table_elements, length_fmap, length_seq. done.
  - by rewrite full_table_bucket_count.
  - rewrite full_table_elements. apply unique_of_nat_seq.
Qed.

(** The table that holds the keys [0 .. L - 1], one per bucket, [L] being
    the largest size class, and the key [L]. *)
Lemma full_table_insert (mode : bool) (L : N) :
  L = largest_size mode →
  let t := full_table (N.to_nat L) in
  table_inv mode id_hasher N.eqb t ∧
  bucket_count t = L ∧
  _find N.eqb L (L mod bucket_count t) (t, ∅) = Returns (end_ t) (t, ∅) ∧
  m_n_elements t ≠ size_type_max mode ∧
  load_factor_exceeded t = true ∧
  next_size_class mode (bucket_count t) = None ∧
  insert mode id_hasher N.eqb no_throw L (t, ∅) = Throws bad_alloc (t, ∅) ∧
  ¬ (∃ r t' h', insert mode id_hasher N.eqb no_throw L (t, ∅) = Returns r (t', h')).
Proof.
  intros HL t.
  assert (bucket_count t = L) as Hbc.
  { unfold t. by rewrite full_table_bucket_count, N2Nat.id. }
  assert (m_n_elements t = L) as Hcnt.
  { unfold t, full_table. cbn [m_n_elements]. apply N2Nat.id. }
  assert (L ≠ 0) as Hnz by (rewrite HL; by destruct mode).
  assert (L ∈ table_sizes mode) as Hin.
  { rewrite HL. apply list_elem_of_lookup. eexists. apply table_sizes_last. }
  assert (m_container t !! N.to_nat (L mod bucket_count t) = Some (nodes 0 [])) as Hb.
  { rewrite Hbc, N.Div0.mod_same. unfold t, full_table. cbn [m_container].
    rewrite list_lookup_fmap. change (N.to_nat 0) with 0%nat.
    rewrite lookup_seq_lt by lia. done. }
  assert (find_in_list N.eqb (L mod bucket_count t) L (nodes 0 []) = None) as Hf.
  { cbn [find_in_list find_in_rest]. by rewrite (proj2 (N.eqb_neq 0 L)). }
  assert (load_factor_exceeded t = true) as Hlf.
  { apply load_factor_exceeded_iff; [by rewrite Hbc|]. rewrite Hbc, Hcnt. lia. }
  assert (m_n_elements t ≠ size_type_max mode) as Hmax.
  { rewrite Hcnt, HL. unfold HashSet.size_type_max, largest_size. by destruct mode. }
  assert (insert mode id_hasher N.eqb no_throw L (t, ∅) = Throws bad_alloc (t, ∅)) as Hi.
  { rewrite insert_unfold by (by rewrite Hbc). unfold id_hasher at 1. cbn zeta.
    rewrite Hb, Hf, (bool_decide_eq_false_2 _ Hmax), Hlf.
    rewrite increase_size_largest; [done|]. by rewrite Hbc. }
  split; [apply full_table_inv; by rewrite N2Nat.id|]. split; [done|].
  split; [unfold _find; cbn [fst]; by rewrite Hb, Hf|].
  split; [done|]. split; [done|].
  split; [rewrite Hbc; apply next_size_class_None; [done|by rewrite HL]|].
  split; [done|].
  intros (r & t' & h' & Hr). congruence.
Qed.

(** A table in 64-bit mode with 824633720831 buckets, the largest size
    class, each holding one key, and the key 824633720831, which is not in
    it: the table satisfies its invariants, [(size() + 1) / bucket_count()]
    exceeds 1.0, and [insert] throws [std::bad_alloc] and leaves the table
    as it was instead of rehashing it. *)
Lemma insert_at_largest_size_counterexample :
  let t := full_table (N.to_nat 824633720831) in
  table_inv true id_hasher N.eqb t ∧
  bucket_count t = 824633720831 ∧
  _find N.eqb 824633720831 (824633720831 mod bucket_count t) (t, ∅) = Returns (end_ t) (t, ∅) ∧
  m_n_elements t ≠ size_type_max true ∧
  load_factor_exceeded t = true ∧
  next_size_class true (bucket_count t) = None ∧
  insert true id_hasher N.eqb no_throw 824633720831 (t, ∅) = Throws bad_alloc (t, ∅) ∧
  ¬ (∃ r t' h', insert true id_hasher N.eqb no_throw 824633720831 (t, ∅) = Returns r (t', h')).
Proof. exact (full_table_insert true 824633720831 eq_refl). Qed.

(** The same in 32-bit mode, at 3221225473 buckets. *)
Example insert_at_largest_size_32 :
  let t := full_table (N.to_nat 3221225473) in
  insert false id_hasher N.eqb no_throw 3221225473 (t, ∅) = Throws bad_alloc (t, ∅).
Proof.
  destruct (full_table_insert false 3221225473 eq_refl) as (_ & _ & _ & _ & _ & _ & Hi & _).
  exact Hi.
Qed.

(** The other guard: a table whose count was forced to the maximum of
    [size_type] with [_update_size]. *)
Example insert_at_maximum_count :
  insert false id_hasher N.eqb no_throw 7
    ({| m_container := [empty_list]; m_n_elements := 2 ^ 32 - 1 |}, ∅) =
  Throws overflow_error ({| m_container := [empty_list]; m_n_elements := 2 ^ 32 - 1 |}, ∅).
Proof. reflexivity. Qed.


(** ** Instances of the further properties *)

Lemma id_hasher_compat (x y : N) : (x =? y) = true → id_hasher x = id_hasher y.
Proof. intros Heq. apply N.eqb_eq in Heq. by subst. Qed.

Lemma table_241_heap_exact : heap_exact (table_241, {[0%nat]}).
Proof.
  split; [split|]; cbn.
  - apply NoDup_singleton.
  - intros a Ha. apply list_elem_of_singleton in Ha as ->. by apply elem_of_singleton.
  - intros a Ha. apply elem_of_singleton in Ha as ->. by apply list_elem_of_singleton.
Qed.

Lemma find_spec_witness :
  ∃ it, find id_hasher N.eqb 5 (table_135, ∅) = Returns it (table_135, ∅) ∧
    (it = end_ table_135 ↔ ∀ x, x ∈ elements table_135 → (x =? 5) = false) ∧
    (it ≠ end_ table_135 →
     m_idx it = 5 mod bucket_count table_135 ∧
     ∃ y, dereference table_135 it = Some y ∧ y ∈ elements table_135 ∧ (y =? 5) = true).
Proof.
  apply (proj2 (proj2 (find_spec id_hasher N.eqb table_135 ∅ 5)) 5).
  - reflexivity.
  - apply table_135_inv.
  - by apply heap_wf_no_nodes.
  - apply id_hasher_compat.
Defined.

Lemma insert_then_find_witness :
  ∃ r t' h', insert false id_hasher N.eqb no_throw 7 (table_135, ∅) = Returns r (t', h') ∧
    find id_hasher N.eqb 7 (t', h') = Returns r.1 (t', h') ∧ r.1 ≠ end_ t' ∧
    ∃ y, dereference t' r.1 = Some y ∧ (y =? 7) = true ∧ (r.2 = true → y = 7).
Proof.
  assert (∃ r t' h', insert false id_hasher N.eqb no_throw 7 (table_135, ∅) = Returns r (t', h'))
    as (r & t' & h' & Hi) by (by eexists _, _, _).
  exists r, t', h'. split; [done|].
  apply (insert_then_find false id_hasher N.eqb no_throw 7 table_135 t' ∅ h' r).
  - apply table_135_inv.
  - by apply heap_wf_no_nodes.
  - apply id_hasher_compat.
  - reflexivity.
  - exact Hi.
Defined.

Lemma erase_then_find_witness :
  ∃ it' t' h',
    erase false {| m_idx := 1; m_it := m_node_of 1 |} (table_135, ∅) = Returns it' (t', h') ∧
    elements table_135 ≡ₚ 1 :: elements t' ∧ size table_135 = size t' + 1 ∧
    find id_hasher N.eqb 1 (t', h') = Returns (end_ t') (t', h').
Proof.
  destruct (erase_then_find false id_hasher N.eqb table_135 ∅
              {| m_idx := 1; m_it := m_node_of 1 |} 1)
    as (it' & t' & h' & He & Hp & Hs & _ & _ & _ & Hf).
  - apply id_hasher_compat.
  - apply table_135_inv.
  - by apply heap_wf_no_nodes.
  - reflexivity.
  - by exists it', t', h'.
Defined.

Lemma full_iteration_witness :
  traverse (N.to_nat (size table_135)) table_135 (begin_ table_135) =
    Some (elements table_135) ∧
  N.of_nat (length (elements table_135)) = size table_135 ∧
  (begin_ table_135 = end_ table_135 ↔ empty table_135 = true) ∧
  (∀ x xs, elements table_135 = x :: xs →
           dereference table_135 (begin_ table_135) = Some x).
Proof.
  apply (full_iteration false id_hasher N.eqb table_135 ∅).
  - apply table_135_inv.
  - by apply heap_wf_no_nodes.
Defined.

Lemma erase_begin_witness :
  ∃ t' h', erase false (begin_ table_241) (table_241, {[0%nat]}) =
             Returns (begin_ t') (t', h') ∧
    dereference table_241 (begin_ table_241) = Some 2 ∧ elements t' = [4; 1].
Proof.
  destruct (erase_begin false table_241 {[0%nat]} 2 [4; 1] eq_refl)
    as (t' & h' & He & Hd & Hel & _).
  by exists t', h'.
Defined.

Lemma insert_keeps_load_factor_witness :
  (∀ r t' h', insert false id_hasher N.eqb no_throw 7 (table_135, ∅) = Returns r (t', h') →
     size t' ≤ bucket_count t' ∧ bucket_count t' ∈ table_sizes false ∧
     (bucket_count t' = bucket_count table_135 ∨
      (next_size_class false (bucket_count table_135) = Some (bucket_count t') ∧
       bucket_count table_135 < bucket_count t'))) ∧
  (∀ e t' h', insert false id_hasher N.eqb no_throw 7 (table_135, ∅) = Throws e (t', h') →
     size t' ≤ bucket_count t').
Proof.
  apply (insert_keeps_load_factor false id_hasher N.eqb no_throw 7 table_135 ∅).
  - apply table_135_inv.
  - vm_compute. discriminate.
Defined.

Lemma rehash_then_find_witness :
  ∃ t' h' it it', rehash false id_hasher 4 (table_135, ∅) = Returns () (t', h') ∧
    find id_hasher N.eqb 5 (table_135, ∅) = Returns it (table_135, ∅) ∧
    find id_hasher N.eqb 5 (t', h') = Returns it' (t', h') ∧
    (it = end_ table_135 ↔ it' = end_ t').
Proof.
  assert (∃ t' h', rehash false id_hasher 4 (table_135, ∅) = Returns () (t', h'))
    as (t' & h' & Hr) by (by eexists _, _).
  destruct (rehash_then_find false id_hasher N.eqb 5 5 4 table_135 t' ∅ h')
    as (it & it' & Hf & Hf' & Hiff).
  - reflexivity.
  - apply table_135_inv.
  - apply id_hasher_compat.
  - exact Hr.
  - by exists t', h', it, it'.
Defined.

Lemma sanity_check_spec_witness :
  (∃ b, sanity_check false id_hasher (table_135, ∅) = Returns b (table_135, ∅) ∧
     (b = true ↔
      placed id_hasher table_135 ∧
      m_n_elements table_135 = N.of_nat (length (elements table_135)) ∧
      bucket_count table_135 ∈ table_sizes false)) ∧
  (∃ t h ok, insert_each false id_hasher N.eqb no_throw [1; 3; 1] (cleared, ∅) =
               Some (t, h, ok) ∧
             sanity_check false id_hasher (t, h) = Returns true (t, h)).
Proof.
  split.
  - apply (proj1 (sanity_check_spec false id_hasher N.eqb no_throw) table_135 ∅).
    + by apply heap_wf_no_nodes.
    + intros x _. by exists x.
    + vm_compute. discriminate.
  - apply (proj2 (sanity_check_spec false id_hasher N.eqb no_throw)).
    + intros x y. apply N.eqb_sym.
    + apply id_hasher_compat.
Defined.

Lemma no_leak_witness :
  after (insert false id_hasher N.eqb no_throw 6 (table_241, {[0%nat]})) heap_exact ∧
  after (rehash false id_hasher 5 (table_241, {[0%nat]})) heap_exact ∧
  after (erase false {| m_idx := 0; m_it := heap_node 0%nat |} (table_241, {[0%nat]}))
    heap_exact ∧
  after (clear (table_241, {[0%nat]})) (λ s', s'.2 = ∅ ∧ heap_exact s').
Proof.
  destruct (no_leak false id_hasher N.eqb no_throw table_241 {[0%nat]} table_241_heap_exact)
    as (Hi & Hr & He & Hc).
  split; [apply Hi|]. split; [apply Hr|]. split; [|apply Hc].
  by apply (He _ 4).
Defined.

Lemma list_copy_spec_witness :
  (∃ b', list_copy no_throw (nodes 2 [(0%nat, 4)]) {[0%nat]} =
           Returns b' (list_to_set (list_heap_nodes b') ∪ {[0%nat]}) ∧
         list_elements b' = [2; 4]) ∧
  list_copy picky_copy (nodes 2 [(0%nat, 7); (1%nat, 9)]) {[0%nat; 1%nat]} =
    Throws (unspecified 1) {[0%nat; 1%nat]}.
Proof.
  split.
  - destruct (proj1 (list_copy_spec no_throw (nodes 2 [(0%nat, 4)]) {[0%nat]}))
      as (b' & Hc & He & _); [done|].
    by exists b'.
  - apply (proj2 (list_copy_spec picky_copy (nodes 2 [(0%nat, 7); (1%nat, 9)])
                    {[0%nat; 1%nat]}) [2] [9] 7 (unspecified 1)).
    + reflexivity.
    + intros x Hx. apply list_elem_of_singleton in Hx as ->. reflexivity.
    + reflexivity.
Defined.

Lemma copy_assign_spec_witness :
  (∃ t', copy_assign no_throw table_241 (table_5, {[0%nat]}) =
           Returns () (t', (list_to_set (heap_nodes t') ∪ {[0%nat]}) ∖
                             list_to_set (heap_nodes table_5)) ∧
         elements t' = elements table_241 ∧ bucket_count t' = bucket_count table_241) ∧
  copy_assign picky_copy {| m_container := [nodes 1 [(0%nat, 7)]]; m_n_elements := 2 |}
    (table_5, {[0%nat]}) = Throws (unspecified 1) (table_5, {[0%nat]}).
Proof.
  split.
  - destruct (proj1 (copy_assign_spec false id_hasher N.eqb no_throw table_241 table_5
                       {[0%nat]}) eq_refl) as (t' & Hc & _ & _ & He & Hb & _).
    by exists t'.
  - by apply (proj2 (copy_assign_spec false id_hasher N.eqb picky_copy
                       {| m_container := [nodes 1 [(0%nat, 7)]]; m_n_elements := 2 |}
                       table_5 {[0%nat]})).
Defined.

Lemma construct_from_range_witness :
  (∃ t h', hash_set_from_range false id_hasher N.eqb no_throw [1; 3; 1] 3 ∅ = Returns t h' ∧
     elements t ≡ₚ [1; 3] ∧ size t = 2 ∧
     hash_set_from_initializer_list false id_hasher N.eqb no_throw [1; 3; 1] ∅ =
       Returns t h') ∧
  hash_set_from_range false id_hasher N.eqb no_throw [1; 3; 1] 3221225474 ∅ =
    Throws bad_alloc ∅.
Proof.
  split.
  - destruct (proj1 (construct_from_range false id_hasher N.eqb no_throw [1; 3; 1] 3 ∅))
      as (t & h' & Hr & _ & Hel & Hsz & _ & _ & Hil).
    + done.
    + vm_compute. discriminate.
    + intros x _. by exists x.
    + done.
    + intros x y. apply N.eqb_sym.
    + apply id_hasher_compat.
    + exists t, h'. split; [done|]. split; [done|]. split; [done|]. by apply Hil.
  - apply (proj2 (construct_from_range false id_hasher N.eqb no_throw [1; 3; 1]
                    3221225474 ∅)).
    reflexivity.
Defined.

Lemma erase_returned_iterator_witness :
  ∃ it', erase false {| m_idx := 0; m_it := heap_node 0%nat |}
           ({| m_container := [nodes 3 [(0%nat, 6); (1%nat, 9)]]; m_n_elements := 3 |},
            {[0%nat; 1%nat]}) =
         Returns it' ({| m_container := [nodes 3 [(1%nat, 9)]]; m_n_elements := 2 |},
                      {[0%nat; 1%nat]} ∖ {[0%nat]}) ∧
    m_idx it' = 0 ∧
    dereference {| m_container := [nodes 3 [(1%nat, 9)]]; m_n_elements := 2 |} it' = Some 3.
Proof.
  destruct (erase_returned_iterator false
              {| m_container := [nodes 3 [(0%nat, 6); (1%nat, 9)]]; m_n_elements := 3 |}
              {[0%nat; 1%nat]} 0 3 6 0%nat [] [(1%nat, 9)] eq_refl)
    as (it' & He & _ & Hpost).
  - cbn. apply NoDup_cons. split; [|apply NoDup_singleton].
    intros Hin. by apply list_elem_of_singleton in Hin.
  - destruct (Hpost ltac:(discriminate)) as (Hidx & Hd & _).
    by exists it'.
Defined.

Lemma bucket_of_key_witness :
  bucket id_hasher 7 (@cleared N, ∅) = Throws zero_division_error (cleared, ∅) ∧
  bucket id_hasher 7 (table_135, ∅) = Returns (7 mod bucket_count table_135) (table_135, ∅) ∧
  bucket id_hasher 5 (table_135, ∅) = Returns 2 (table_135, ∅) ∧
  (∀ r t' h', insert false id_hasher N.eqb no_throw 7 (table_135, ∅) = Returns r (t', h') →
     bucket id_hasher 7 (t', h') = Returns (m_idx r.1) (t', h')).
Proof.
  split; [|split; [|split]].
  - by apply (proj1 (bucket_of_key false id_hasher N.eqb no_throw cleared ∅)).
  - apply (proj1 (proj2 (bucket_of_key false id_hasher N.eqb no_throw table_135 ∅)) 7 7);
      [discriminate|reflexivity].
  - apply (proj1 (proj2 (proj2 (bucket_of_key false id_hasher N.eqb no_throw table_135 ∅))
                    table_135_inv.(inv_placed _ _ _ _)) 2%nat (nodes 5 []) 5);
      [reflexivity|left].
  - apply (proj2 (proj2 (proj2 (bucket_of_key false id_hasher N.eqb no_throw table_135 ∅))
                    table_135_inv.(inv_placed _ _ _ _)) id_hasher_compat).
Defined.


Lemma insert_then_erase_witness :
  ∃ it t' h' it'' t'' h'',
    insert false id_hasher N.eqb no_throw 7 (table_135, ∅) = Returns (it, true) (t', h') ∧
    dereference t' it = Some 7 ∧
    erase false it (t', h') = Returns it'' (t'', h'') ∧
    elements t'' ≡ₚ elements table_135 ∧ size t'' = size table_135 ∧
    find id_hasher N.eqb 7 (t'', h'') = Returns (end_ t'') (t'', h'').
Proof.
  assert (∃ it t' h', insert false id_hasher N.eqb no_throw 7 (table_135, ∅) =
                        Returns (it, true) (t', h'))
    as (it & t' & h' & Hi) by (by eexists _, _, _).
  destruct (insert_then_erase false id_hasher N.eqb no_throw 7 table_135 t' ∅ h' it)
    as (Hd & it'' & t'' & h'' & He & Hel & Hsz & _ & _ & _ & Hf).
  - intros x y. apply N.eqb_sym.
  - apply id_hasher_compat.
  - apply table_135_inv.
  - by apply heap_wf_no_nodes.
  - exact Hi.
  - by exists it, t', h', it'', t'', h''.
Defined.


Lemma insert_failures_without_effect_witness :
  insert false picky_hasher N.eqb no_throw 13 (table_135, ∅) =
    Throws (unspecified 0) (table_135, ∅) ∧
  insert false id_hasher N.eqb no_throw 7
    ({| m_container := [empty_list]; m_n_elements := 2 ^ 32 - 1 |}, ∅) =
    Throws overflow_error ({| m_container := [empty_list]; m_n_elements := 2 ^ 32 - 1 |}, ∅) ∧
  insert false id_hasher N.eqb picky_copy 7
    ({| m_container := [empty_list; nodes 1 []; empty_list]; m_n_elements := 1 |}, ∅) =
    Throws (unspecified 1)
      ({| m_container := [empty_list; nodes 1 []; empty_list]; m_n_elements := 1 |}, ∅).
Proof.
  split; [|split].
  - apply (proj1 (insert_failures_without_effect false picky_hasher N.eqb no_throw 13
                    table_135 ∅ ltac:(discriminate))).
    reflexivity.
  - apply (proj1 (proj2 (insert_failures_without_effect false id_hasher N.eqb no_throw 7
                           {| m_container := [empty_list]; m_n_elements := 2 ^ 32 - 1 |} ∅
                           ltac:(discriminate)) 7 eq_refl
                    ltac:(intros x Hx; by apply elem_of_nil in Hx))).
    reflexivity.
  - apply (proj2 (proj2 (insert_failures_without_effect false id_hasher N.eqb picky_copy 7
                           {| m_container := [empty_list; nodes 1 []; empty_list];
                              m_n_elements := 1 |} ∅
                           ltac:(discriminate)) 7 eq_refl
                    ltac:(intros x Hx; apply list_elem_of_singleton in Hx as ->;
                          reflexivity))).
    + discriminate.
    + reflexivity.
    + reflexivity.
Defined.

End HashSetFacts.

(** * Properties of the hybrid integer *)

Module MpIntegerFacts.
Import MpInteger.
Local Open Scope Z_scope.

Section facts.
Variable NBits : N.
Variable native_bits : N.
Variable n_limbs : nat.
Variable ulong_max : Z.

Abbreviation limb_base := (limb_base NBits native_bits).
Abbreviation magnitude := (magnitude NBits native_bits).
Abbreviation limbs_of := (limbs_of NBits native_bits).
Abbreviation static_value := (static_value NBits native_bits).
Abbreviation static_capacity := (static_capacity NBits native_bits n_limbs).
Abbreviation fits_static := (fits_static NBits native_bits n_limbs).
Abbreviation static_of_Z := (static_of_Z NBits native_bits n_limbs).
Abbreviation static_op := (static_op NBits native_bits n_limbs).
Abbreviation value := (value NBits native_bits).
Abbreviation promote := (promote NBits native_bits).
Abbreviation maybe_promote := (maybe_promote NBits native_bits).
Abbreviation of_native := (of_native NBits native_bits n_limbs).
Abbreviation hybrid_op := (hybrid_op NBits native_bits).
Abbreviation add := (add NBits native_bits n_limbs).
Abbreviation sub := (sub NBits native_bits n_limbs).
Abbreviation mul := (mul NBits native_bits n_limbs).
Abbreviation div := (div NBits native_bits n_limbs).
Abbreviation rem := (rem NBits native_bits n_limbs).
Abbreviation div_op := (div_op NBits native_bits n_limbs).
Abbreviation div_native := (div_native NBits native_bits n_limbs).
Abbreviation rem_native := (rem_native NBits native_bits n_limbs).
Abbreviation pow_sq := (pow_sq NBits native_bits n_limbs).
Abbreviation pow_nonneg := (pow_nonneg NBits native_bits n_limbs).
Abbreviation pow := (pow NBits native_bits n_limbs ulong_max).
Abbreviation sign := (sign NBits native_bits).
Abbreviation eqb := (eqb NBits native_bits).

Lemma limb_base_pos : 0 < limb_base.
Proof. unfold MpInteger.limb_base. apply Z.pow_pos_nonneg; lia. Qed.

Lemma magnitude_nonneg (ls : list N) : 0 ≤ magnitude ls.
Proof.
  induction ls as [|l ls IH]; simpl; [done|].
  pose proof limb_base_pos. nia.
Qed.

Lemma magnitude_limbs_of (n : nat) (m : Z) :
  0 ≤ m < limb_base ^ Z.of_nat n → magnitude (limbs_of n m) = m.
Proof.
  pose proof limb_base_pos as Hb.
  revert m. induction n as [|n IH]; intros m Hm.
  - simpl in *. lia.
  - cbn [MpInteger.limbs_of MpInteger.magnitude].
    rewrite IH.
    + rewrite Z2N.id by (apply Z.mod_pos_bound; lia).
      rewrite (Z.div_mod m limb_base) at 3 by lia. lia.
    + split; [apply Z.div_pos; lia|].
      apply Z.div_lt_upper_bound; [lia|].
      rewrite Nat2Z.inj_succ, Z.pow_succ_r in Hm by lia. lia.
Qed.

Lemma used_limbs_zero (ls : list N) : used_limbs ls = O → magnitude ls = 0.
Proof.
  induction ls as [|l ls IH]; simpl; [done|].
  destruct (used_limbs ls) as [|u]; [|done].
  destruct (l =? 0)%N eqn:Hl; [|done].
  intros _. apply N.eqb_eq in Hl as ->. rewrite IH by done. lia.
Qed.

Lemma magnitude_take_used (ls : list N) :
  magnitude (take (used_limbs ls) ls) = magnitude ls.
Proof.
  induction ls as [|l ls IH]; simpl; [done|].
  destruct (used_limbs ls) as [|u] eqn:Hu.
  - destruct (l =? 0)%N eqn:Hl; simpl.
    + apply N.eqb_eq in Hl as ->. rewrite (used_limbs_zero ls Hu). lia.
    + rewrite (used_limbs_zero ls Hu). destruct ls; simpl; lia.
  - simpl. simpl in IH. by rewrite IH.
Qed.

(** What is stored is what was given. *)
Lemma static_value_of_Z (z : Z) :
  fits_static z = true → static_value (static_of_Z z) = z.
Proof.
  unfold MpInteger.fits_static, MpInteger.static_capacity. intros Hfit. apply Z.ltb_lt in Hfit.
  unfold MpInteger.static_value, MpInteger.static_of_Z. cbn [s_size s_limbs].
  pose proof (magnitude_limbs_of n_limbs (Z.abs z) ltac:(lia)) as Hm.
  pose proof (magnitude_take_used (limbs_of n_limbs (Z.abs z))) as Ht.
  pose proof (used_limbs_zero (limbs_of n_limbs (Z.abs z))) as Hz.
  destruct (used_limbs (limbs_of n_limbs (Z.abs z))) as [|u] eqn:Hu.
  - rewrite Hm in Hz. specialize (Hz eq_refl). lia.
  - destruct (Z.sgn_spec z) as [(Hs & Hg)|[(Hs & Hg)|(Hs & Hg)]]; rewrite Hg.
    + assert (Z.abs_nat (1 * Z.of_nat (S u)) = S u) as Ha by lia.
      rewrite Ha, Ht, Hm. lia.
    + subst z. rewrite Z.mul_0_l. done.
    + assert (Z.abs_nat (Z.opp 1 * Z.of_nat (S u)) = S u) as Ha by lia.
      rewrite Ha, Ht, Hm. lia.
Qed.

Lemma value_of_native (z : Z) : value (of_native z) = z.
Proof.
  unfold MpInteger.of_native. destruct (fits_static z) eqn:Hf; [|done].
  by apply static_value_of_Z.
Qed.

Lemma value_promote (x : mp_integer) : value (promote x) = value x.
Proof. by destruct x. Qed.

Lemma value_hybrid_op (f : Z → Z → Z) (x y : mp_integer) :
  value (hybrid_op (static_op f) f x y) = f (value x) (value y).
Proof.
  destruct x as [a|a], y as [b|b]; try done. simpl.
  unfold MpInteger.static_op.
  destruct (fits_static (f (static_value a) (static_value b))) eqn:Hf; [|done].
  by apply static_value_of_Z.
Qed.

Lemma value_add x y : value (add x y) = value x + value y.
Proof. apply value_hybrid_op. Qed.
Lemma value_sub x y : value (sub x y) = value x - value y.
Proof. apply value_hybrid_op. Qed.
Lemma value_mul x y : value (mul x y) = value x * value y.
Proof. apply value_hybrid_op. Qed.

Lemma div_op_nonzero (f : Z → Z → Z) (x y : mp_integer) :
  value y ≠ 0 → ∃ r, div_op f x y = inr r ∧ value r = f (value x) (value y).
Proof.
  intros Hy. unfold MpInteger.div_op. rewrite (proj2 (Z.eqb_neq _ _) Hy).
  eexists. split; [done|]. apply value_hybrid_op.
Qed.

Lemma div_op_zero (f : Z → Z → Z) (x y : mp_integer) :
  value y = 0 → div_op f x y = inl zero_division_error.
Proof. intros Hy. unfold MpInteger.div_op. by rewrite Hy. Qed.

Lemma value_neg (x : mp_integer) : value (neg x) = - value x.
Proof.
  destruct x as [[sz ls]|z]; [|done]. unfold MpInteger.value, MpInteger.static_value. simpl.
  rewrite Z.sgn_opp. replace (Z.abs_nat (- sz)) with (Z.abs_nat sz) by lia. lia.
Qed.

Lemma value_abs (x : mp_integer) : value (abs x) = Z.abs (value x).
Proof.
  destruct x as [[sz ls]|z]; [|done]. unfold MpInteger.value, MpInteger.static_value. simpl.
  replace (Z.abs_nat (Z.abs sz)) with (Z.abs_nat sz) by lia.
  pose proof (magnitude_nonneg (take (Z.abs_nat sz) ls)). 
  destruct (Z.sgn_spec sz) as [(Hs & Heq)|[(Hs & Heq)|(Hs & Heq)]]; rewrite Heq.
  - rewrite Z.abs_eq by lia. rewrite Z.sgn_pos by lia. lia.
  - subst sz. simpl. done.
  - rewrite Z.abs_neq by lia. rewrite Z.sgn_pos by lia. lia.
Qed.

Lemma value_pow_sq (m : mp_integer) (p : positive) :
  value (pow_sq m p) = value m ^ Z.pos p.
Proof.
  induction p as [p IH|p IH|]; cbn [MpInteger.pow_sq].
  - rewrite !value_mul, IH. rewrite Pos2Z.inj_xI.
    rewrite Z.pow_add_r, Z.pow_1_r by lia.
    replace (2 * Z.pos p) with (Z.pos p + Z.pos p) by lia.
    rewrite Z.pow_add_r by lia. lia.
  - rewrite value_mul, IH. rewrite Pos2Z.inj_xO.
    rewrite <- Z.pow_add_r by lia. f_equal. lia.
  - by rewrite Z.pow_1_r.
Qed.

Lemma value_pow_nonneg (b : mp_integer) (e : N) :
  value (pow_nonneg b e) = value b ^ Z.of_N e.
Proof.
  destruct e as [|p]; cbn [MpInteger.pow_nonneg].
  - by rewrite value_of_native.
  - unfold MpInteger.sign.
    destruct (Z.sgn (value b) <? 0) eqn:Hs; cbn [andb].
    + apply Z.ltb_lt in Hs. assert (value b < 0) as Hb by lia.
      destruct (Z.odd (Z.pos p)) eqn:Hodd.
      * rewrite value_neg, value_pow_sq, value_abs. rewrite Z.abs_neq by lia.
        change (Z.of_N (N.pos p)) with (Z.pos p).
        rewrite Z.pow_opp_odd by (by apply Z.odd_spec). lia.
      * rewrite value_pow_sq, value_abs. rewrite Z.abs_neq by lia.
        change (Z.of_N (N.pos p)) with (Z.pos p).
        apply Z.pow_opp_even. apply Z.even_spec. by rewrite <- Z.negb_odd, Hodd.
    + apply Z.ltb_ge in Hs. rewrite value_pow_sq, value_abs.
      rewrite Z.abs_eq by lia. done.
Qed.

Lemma value_maybe_promote (p : bool) (x : mp_integer) : value (maybe_promote p x) = value x.
Proof. destruct p; [apply value_promote|done]. Qed.

(** C1. Static/dynamic equivalence: for all integers [a] and [b] (the
    native-representable ones among them) and whether or not either operand
    was promoted to dynamic storage beforehand, [hybrid(a) op hybrid(b)]
    has the value the reference library computes, for [op] among [+], [-],
    [*] and, when [b] is not zero, [/] ([mpz_tdiv_q]) and [%]
    ([mpz_tdiv_r]). *)
Theorem static_dynamic_equivalence (a b : Z) (pa pb : bool) :
  let x := maybe_promote pa (of_native a) in
  let y := maybe_promote pb (of_native b) in
  value (add x y) = Mpz.mpz_add a b ∧
  value (sub x y) = Mpz.mpz_sub a b ∧
  value (mul x y) = Mpz.mpz_mul a b ∧
  (b ≠ 0 →
   ∃ q r, div x y = inr q ∧ value q = Mpz.mpz_tdiv_q a b ∧
          rem x y = inr r ∧ value r = Mpz.mpz_tdiv_r a b).
Proof.
  intros x y.
  assert (value x = a) as Hx by (unfold x; by rewrite value_maybe_promote, value_of_native).
  assert (value y = b) as Hy by (unfold y; by rewrite value_maybe_promote, value_of_native).
  split; [by rewrite value_add, Hx, Hy|].
  split; [by rewrite value_sub, Hx, Hy|].
  split; [by rewrite value_mul, Hx, Hy|].
  intros Hb.
  destruct (div_op_nonzero Mpz.mpz_tdiv_q x y) as (q & Hq & Hvq); [by rewrite Hy|].
  destruct (div_op_nonzero Mpz.mpz_tdiv_r x y) as (r & Hr & Hvr); [by rewrite Hy|].
  exists q, r. rewrite Hx, Hy in Hvq, Hvr. done.
Qed.

(** C6. For every hybrid integer [x] and every non-zero hybrid integer
    [y], [x / y] and [x % y] succeed; the quotient is truncated toward zero
    (it is [Z.quot], and its magnitude is the floor of the quotient of the
    magnitudes), [(x / y) * y + (x % y) == x], and [x % y] is zero or has
    the sign of [x]. In particular [5 / 2 == 2], [-5 / 2 == -2] (not [-3]),
    [5 % 2 == 1] and [-5 % 2 == -1]. *)
Theorem division_truncates :
  (∀ x y : mp_integer, value y ≠ 0 →
     ∃ q r, div x y = inr q ∧ rem x y = inr r ∧
       value q = Z.quot (value x) (value y) ∧
       Z.abs (value q) = Z.abs (value x) / Z.abs (value y) ∧
       eqb (add (mul q y) r) x = true ∧
       (value r = 0 ∨ Z.sgn (value r) = Z.sgn (value x))) ∧
  (∃ q1 q2 r1 r2,
     div (of_native 5) (of_native 2) = inr q1 ∧ value q1 = 2 ∧
     div (of_native (-5)) (of_native 2) = inr q2 ∧ value q2 = -2 ∧ value q2 ≠ -3 ∧
     rem (of_native 5) (of_native 2) = inr r1 ∧ value r1 = 1 ∧
     rem (of_native (-5)) (of_native 2) = inr r2 ∧ value r2 = -1).
Proof.
  assert (∀ x y : mp_integer, value y ≠ 0 →
     ∃ q r, div x y = inr q ∧ rem x y = inr r ∧
       value q = Z.quot (value x) (value y) ∧ value r = Z.rem (value x) (value y)) as Hdiv.
  { intros x y Hy.
    destruct (div_op_nonzero Mpz.mpz_tdiv_q x y Hy) as (q & Hq & Hvq).
    destruct (div_op_nonzero Mpz.mpz_tdiv_r x y Hy) as (r & Hr & Hvr).
    by exists q, r. }
  split.
  - intros x y Hy. destruct (Hdiv x y Hy) as (q & r & Hq & Hr & Hvq & Hvr).
    exists q, r. split; [done|]. split; [done|]. split; [done|].
    split; [|split].
    + rewrite Hvq, <- Z.quot_abs by done.
      apply Z.quot_div_nonneg; lia.
    + unfold MpInteger.eqb. apply Z.eqb_eq.
      rewrite value_add, value_mul, Hvq, Hvr.
      rewrite (Z.quot_rem' (value x) (value y)) at 3. lia.
    + rewrite Hvr. destruct (decide (Z.rem (value x) (value y) = 0)) as [|Hnz]; [by left|].
      right. by apply Z.rem_sign_nz.
  - destruct (Hdiv (of_native 5) (of_native 2)) as (q1 & r1 & Hq1 & Hr1 & Hvq1 & Hvr1);
      [by rewrite value_of_native|].
    destruct (Hdiv (of_native (-5)) (of_native 2)) as (q2 & r2 & Hq2 & Hr2 & Hvq2 & Hvr2);
      [by rewrite value_of_native|].
    rewrite !value_of_native in *.
    exists q1, q2, r1, r2. rewrite Hvq1, Hvq2, Hvr1, Hvr2. done.
Qed.

(** C9. For every hybrid integer [a], [a / b] and [a % b] fail with
    [zero_division_error] when the divisor is a hybrid integer of value
    zero, and when it is the native integer zero. *)
Theorem division_by_zero (a b : mp_integer) :
  value b = 0 →
  div a b = inl zero_division_error ∧ rem a b = inl zero_division_error ∧
  div_native a 0 = inl zero_division_error ∧ rem_native a 0 = inl zero_division_error.
Proof.
  intros Hb. unfold MpInteger.div_native, MpInteger.rem_native.
  repeat split; apply div_op_zero; try done; apply value_of_native.
Qed.

(** C7. [pow]: every base to the exponent 0 gives 1, [0.pow(0)] included;
    [2.pow(5) == 32] and [(-3).pow(3) == -27] (a non-negative exponent up to
    [ULONG_MAX] gives what [mpz_pow_ui] gives); a negative exponent gives 0
    on a base of magnitude greater than one, 1 on the base 1, -1 on the
    base -1 when the exponent is odd, and fails with [zero_division_error]
    on the base 0. [unsigned long] has at least 32 bits. *)
Theorem pow_cases :
  2 ^ 32 - 1 ≤ ulong_max →
  (∀ b e, value e = 0 → ∃ r, pow b e = inr r ∧ value r = 1) ∧
  (∃ r, pow (of_native 0) (of_native 0) = inr r ∧ value r = 1) ∧
  (∃ r, pow (of_native 2) (of_native 5) = inr r ∧ value r = 32) ∧
  (∃ r, pow (of_native (-3)) (of_native 3) = inr r ∧ value r = -27) ∧
  (∀ b e, 0 ≤ value e ≤ ulong_max →
     ∃ r, pow b e = inr r ∧ value r = Mpz.mpz_pow_ui (value b) (Z.to_N (value e))) ∧
  (∀ b e, value e < 0 → 1 < Z.abs (value b) → ∃ r, pow b e = inr r ∧ value r = 0) ∧
  (∀ b e, value e < 0 → value b = 1 → ∃ r, pow b e = inr r ∧ value r = 1) ∧
  (∀ b e, value e < 0 → Z.odd (value e) = true → value b = -1 →
     ∃ r, pow b e = inr r ∧ value r = -1) ∧
  (∀ b e, value e < 0 → value b = 0 → pow b e = inl zero_division_error) ∧
  pow (of_native 0) (of_native (-1)) = inl zero_division_error.
Proof.
  intros Hul.
  assert (∀ b e, 0 ≤ value e ≤ ulong_max →
     ∃ r, pow b e = inr r ∧ value r = Mpz.mpz_pow_ui (value b) (Z.to_N (value e))) as Hnn.
  { intros b e [H0 Hmax]. unfold MpInteger.pow. cbn zeta.
    rewrite (proj2 (Z.leb_le _ _) H0), (proj2 (Z.ltb_ge _ _) Hmax).
    eexists. split; [done|]. apply value_pow_nonneg. }
  assert (∀ b e, value e < 0 → value b = 0 → pow b e = inl zero_division_error) as Hzd.
  { intros b e He Hb. unfold MpInteger.pow. cbn zeta.
    rewrite (proj2 (Z.leb_gt _ _) He), Hb. done. }
  assert (∀ n e : Z, 0 ≤ e ≤ 2 ^ 32 - 1 →
     ∃ r, pow (of_native n) (of_native e) = inr r ∧ value r = n ^ e) as Hc.
  { intros n e He. destruct (Hnn (of_native n) (of_native e)) as (r & Hr & Hv).
    - rewrite value_of_native. lia.
    - exists r. split; [done|]. rewrite Hv, !value_of_native.
      unfold Mpz.mpz_pow_ui. by rewrite Z2N.id by lia. }
  split.
  { intros b e He. destruct (Hnn b e) as (r & Hr & Hv); [lia|].
    exists r. split; [done|]. rewrite Hv, He. done. }
  split; [apply (Hc 0 0); lia|].
  split; [apply (Hc 2 5); lia|].
  split; [apply (Hc (-3) 3); lia|].
  split; [done|].
  split.
  { intros b e He Hb. unfold MpInteger.pow. cbn zeta.
    rewrite (proj2 (Z.leb_gt _ _) He).
    rewrite (proj2 (Z.eqb_neq (value b) 0)) by lia.
    rewrite (proj2 (Z.eqb_neq (Z.abs (value b)) 1)) by lia.
    eexists. split; [done|]. apply value_of_native. }
  split.
  { intros b e He Hb. unfold MpInteger.pow. cbn zeta.
    rewrite (proj2 (Z.leb_gt _ _) He), Hb. simpl.
    eexists. split; [done|]. apply value_of_native. }
  split.
  { intros b e He Hodd Hb. unfold MpInteger.pow. cbn zeta.
    rewrite (proj2 (Z.leb_gt _ _) He), Hb. simpl.
    rewrite <- Z.negb_odd, Hodd. simpl.
    eexists. split; [done|]. apply value_of_native. }
  split; [done|].
  apply Hzd; by rewrite value_of_native.
Qed.

End facts.

(** ** The theorems at concrete operands: 32-bit limbs, two of them *)

Lemma static_dynamic_equivalence_witness :
  (3 : Z) ≠ 0 ∧
  ∃ q r, div 32 64 2 (promote 32 64 (of_native 32 64 2 (-7))) (of_native 32 64 2 3) = inr q ∧
         value 32 64 q = Mpz.mpz_tdiv_q (-7) 3 ∧
         rem 32 64 2 (promote 32 64 (of_native 32 64 2 (-7))) (of_native 32 64 2 3) = inr r ∧
         value 32 64 r = Mpz.mpz_tdiv_r (-7) 3.
Proof.
  split; [lia|].
  apply (proj2 (proj2 (proj2 (static_dynamic_equivalence 32 64 2 (-7) 3 true false)))). lia.
Defined.

Lemma division_truncates_witness :
  value 32 64 (of_native 32 64 2 2) ≠ 0 ∧
  ∃ q r, div 32 64 2 (of_native 32 64 2 (-5)) (of_native 32 64 2 2) = inr q ∧
         rem 32 64 2 (of_native 32 64 2 (-5)) (of_native 32 64 2 2) = inr r ∧
         value 32 64 q = -2 ∧ value 32 64 r = -1.
Proof.
  split; [vm_compute; discriminate|].
  destruct (proj1 (division_truncates 32 64 2)
              (of_native 32 64 2 (-5)) (of_native 32 64 2 2))
    as (q & r & Hq & Hr & _); [vm_compute; discriminate|].
  exists q, r. split; [done|]. split; [done|].
  vm_compute in Hq, Hr. injection Hq as <-. injection Hr as <-. split; reflexivity.
Defined.

Lemma pow_cases_witness :
  2 ^ 32 - 1 ≤ 2 ^ 64 - 1 ∧
  (∃ r, pow 32 64 2 (2 ^ 64 - 1) (of_native 32 64 2 2) (of_native 32 64 2 5) = inr r ∧
        value 32 64 r = 32) ∧
  pow 32 64 2 (2 ^ 64 - 1) (of_native 32 64 2 0) (of_native 32 64 2 (-1)) =
    inl zero_division_error.
Proof.
  split; [lia|].
  destruct (pow_cases 32 64 2 (2 ^ 64 - 1) ltac:(lia))
    as (_ & _ & H25 & _ & _ & _ & _ & _ & _ & Hz).
  split; [exact H25|exact Hz].
Defined.

Lemma division_by_zero_witness :
  value 32 64 (of_native 32 64 2 0) = 0 ∧
  div 32 64 2 (of_native 32 64 2 7) (of_native 32 64 2 0) = inl zero_division_error ∧
  rem 32 64 2 (of_native 32 64 2 7) (of_native 32 64 2 0) = inl zero_division_error ∧
  div_native 32 64 2 (of_native 32 64 2 7) 0 = inl zero_division_error ∧
  rem_native 32 64 2 (of_native 32 64 2 7) 0 = inl zero_division_error.
Proof.
  split; [reflexivity|].
  apply (division_by_zero 32 64 2 (of_native 32 64 2 7) (of_native 32 64 2 0)). reflexivity.
Defined.

End MpIntegerFacts.
